(** * FAS multigrid solver: a shallow embedding of full_multigrid.cpp

    The solver of [full_multigrid.cpp] (class [FASMultigrid]) is embedded
    function by function.  [idx_t] is [Z]; [real_t] is the type [R] of real
    numbers, that is, arithmetic is exact (no rounding, no infinity, no
    NaN); a raw array ([real_t *], [arr_t *], [idx_t *]) is a total map
    from its index.  A method that mutates the solver takes the solver and
    returns the new one; the loops the source hands to OpenMP run here in
    their sequential order.  A loop that may not end ([_jacobianRelax])
    takes fuel, and a method that may throw returns an [outcome].

    A statement that holds of the exact reals only says so.  The two
    transfer operators are embedded a second time on binary64 numbers
    ([_restrictFine2coarse64], [_interpolateCoarse2fine64]), where the
    equalities of exact arithmetic are seen to fail by rounding. *)

From Stdlib Require Import Floats.
From Stdlib Require Import Reals ZArith List Lia Lra Bool FunctionalExtensionality.
Import ListNotations.

Open Scope Z_scope.

(** ** Arrays and loops *)

(** [real_t] is [double] in the source.  It is the exact real numbers
    here: sums and products are not rounded, and there is no infinity and
    no NaN (a division by zero is the 0 of [R]). *)
Definition real_t := R.
Definition idx_t := Z.

(** [a[i] = v] on a raw array. *)
Definition store {A : Type} (a : Z -> A) (i : Z) (v : A) : Z -> A :=
  fun j => if Z.eqb j i then v else a j.

(** The integers [0, 1, ..., n-1] of a [for(i=0; i<n; ++i)] loop. *)
Definition zrange (n : Z) : list Z := map Z.of_nat (seq 0 (Z.to_nat n)).

(** The macro [FAS_LOOP3_N(i, j, k, nx, ny, nz)]: the sites in loop order. *)
Definition FAS_LOOP3_N (n_x n_y n_z : Z) : list (Z * Z * Z) :=
  flat_map (fun i =>
    flat_map (fun j => map (fun k => (i, j, k)) (zrange n_z)) (zrange n_y))
    (zrange n_x).

(** Modelled from the spec: the grid type [arr_t] is declared in
    cosmo_types.h, which is not part of the sources.  A Grid is a dense array
    of [pts = nx*ny*nz] reals together with its dimensions; [operator[]]
    reads and writes the array at a linear index.  The array is a total
    map: an index that is not below [pts], which leaves the array in the
    source, reads and writes an entry of its own here. *)
Record arr_t : Type := mk_arr {
  _array : Z -> R;
  nx : Z;
  ny : Z;
  nz : Z;
  pts : Z
}.

Definition with_array (g : arr_t) (a : Z -> R) : arr_t :=
  mk_arr a (nx g) (ny g) (nz g) (pts g).

(** Modelled from the spec: the macro [H_INDEX] is defined in cosmo_macros.h,
    which is not part of the sources.  It is the linear index of site
    (i,j,k) of a dense (n_x, n_y, n_z) grid, k running fastest, with periodic
    wrap on the three axes (any integer index is valid). *)
Definition H_INDEX (i j k n_x n_y n_z : Z) : Z :=
  (i mod n_x) * n_y * n_z + (j mod n_y) * n_z + k mod n_z.

(** Modelled from the spec: [arr_t::init] (cosmo_types.h) creates a grid of
    the given dimensions; its fresh storage is taken to hold zeros. *)
Definition arr_init (n_x n_y n_z : Z) : arr_t :=
  mk_arr (fun _ => 0%R) n_x n_y n_z (n_x * n_y * n_z).

(** A hierarchy is an array of grids indexed by depth index
    ([fas_heirarchy_t]); a set of hierarchies is indexed by equation. *)
Definition fas_heirarchy_t := Z -> arr_t.
Definition fas_heirarchy_set_t := Z -> fas_heirarchy_t.

(** The function [pow] of the C library at real arguments: an integral
    exponent is a repeated product (or its inverse), any other exponent is
    [exp (y * ln x)].  It is the [pow] of C where that one is finite and
    its base is positive or its exponent integral.  It is not at the base
    0 with a negative exponent (an infinity in C, 0 here), at the base 0
    with a non integral exponent (0 or an infinity in C, 1 here), and at a
    negative base with a non integral exponent (NaN in C). *)
Definition cpow (x y : R) : R :=
  if Req_dec_T y (IZR (Int_part y)) then powerRZ x (Int_part y)
  else Rpower x y.

(** ** The symbolic equations *)

Record atom : Type := mk_atom {
  type : Z;      (* 0 constant, 1 polynomial, 2-10 derivatives, 11 laplacian *)
  u_id : Z;
  value : R
}.

Record molecule : Type := mk_molecule {
  atoms : Z -> atom;
  atom_n : Z;
  const_coef : R
}.

Definition molecule_init (atom_n_in : Z) (const_coef_in : R) : molecule :=
  mk_molecule (fun _ => mk_atom 0 0 0%R) 0 const_coef_in.

Definition add_atom (m : molecule) (atom_in : atom) : molecule :=
  mk_molecule (store (atoms m) (atom_n m) atom_in) (atom_n m + 1)
              (const_coef m).

Inductive relax_t : Type :=
| inexact_newton
| inexact_newton_constrained
| newton.

(** The lines the solver writes to [std::cout]. *)
Inductive msg : Type :=
| msg_unable (cnt : Z)               (* Unable to achieve a precise enough solution *)
| msg_no_damping                     (* Can't fine suitable damping factor!!! *)
| msg_initial_residual (r : R)
| msg_upward (depth : Z) (r : R)
| msg_final_residual (r : R)
| msg_solution_residual (r : R)
| msg_crosses_zero (eqn_id : Z)      (* Warning! Solution crosses 0 at Eq. *)
| msg_stays_signed (eqn_id : Z)      (* stays positive or negative *)
| msg_stats (eqn_id : Z) (avg mn mx : R).

(** ** The solver object *)

Record FASMultigrid : Type := mk_FAS {
  u_h : fas_heirarchy_set_t;
  tmp_h : fas_heirarchy_set_t;
  coarse_src_h : fas_heirarchy_set_t;
  jac_rhs_h : fas_heirarchy_set_t;
  damping_v_h : fas_heirarchy_set_t;
  rho_h : Z -> fas_heirarchy_set_t;
  u_n : Z;
  molecule_n : Z -> Z;
  nx_h : Z -> Z;
  ny_h : Z -> Z;
  nz_h : Z -> Z;
  relaxation_tolerance : R;
  max_depth : Z;
  max_depth_idx : Z;
  min_depth : Z;
  min_depth_idx : Z;
  total_depths : Z;
  max_relax_iters : Z;
  der_type : Z -> Z -> Z;
  double_der_coef : Z -> R;
  relax_scheme : relax_t;
  eqns : Z -> Z -> molecule;
  cout : list msg    (* what has been written to std::cout so far *)
}.

Definition set_u_h (st : FASMultigrid) (h : fas_heirarchy_set_t) :=
  mk_FAS h (tmp_h st) (coarse_src_h st) (jac_rhs_h st) (damping_v_h st)
    (rho_h st) (u_n st) (molecule_n st) (nx_h st) (ny_h st) (nz_h st)
    (relaxation_tolerance st) (max_depth st) (max_depth_idx st)
    (min_depth st) (min_depth_idx st) (total_depths st) (max_relax_iters st)
    (der_type st) (double_der_coef st) (relax_scheme st) (eqns st) (cout st).

Definition set_tmp_h (st : FASMultigrid) (h : fas_heirarchy_set_t) :=
  mk_FAS (u_h st) h (coarse_src_h st) (jac_rhs_h st) (damping_v_h st)
    (rho_h st) (u_n st) (molecule_n st) (nx_h st) (ny_h st) (nz_h st)
    (relaxation_tolerance st) (max_depth st) (max_depth_idx st)
    (min_depth st) (min_depth_idx st) (total_depths st) (max_relax_iters st)
    (der_type st) (double_der_coef st) (relax_scheme st) (eqns st) (cout st).

Definition set_coarse_src_h (st : FASMultigrid) (h : fas_heirarchy_set_t) :=
  mk_FAS (u_h st) (tmp_h st) h (jac_rhs_h st) (damping_v_h st)
    (rho_h st) (u_n st) (molecule_n st) (nx_h st) (ny_h st) (nz_h st)
    (relaxation_tolerance st) (max_depth st) (max_depth_idx st)
    (min_depth st) (min_depth_idx st) (total_depths st) (max_relax_iters st)
    (der_type st) (double_der_coef st) (relax_scheme st) (eqns st) (cout st).

Definition set_jac_rhs_h (st : FASMultigrid) (h : fas_heirarchy_set_t) :=
  mk_FAS (u_h st) (tmp_h st) (coarse_src_h st) h (damping_v_h st)
    (rho_h st) (u_n st) (molecule_n st) (nx_h st) (ny_h st) (nz_h st)
    (relaxation_tolerance st) (max_depth st) (max_depth_idx st)
    (min_depth st) (min_depth_idx st) (total_depths st) (max_relax_iters st)
    (der_type st) (double_der_coef st) (relax_scheme st) (eqns st) (cout st).

Definition set_damping_v_h (st : FASMultigrid) (h : fas_heirarchy_set_t) :=
  mk_FAS (u_h st) (tmp_h st) (coarse_src_h st) (jac_rhs_h st) h
    (rho_h st) (u_n st) (molecule_n st) (nx_h st) (ny_h st) (nz_h st)
    (relaxation_tolerance st) (max_depth st) (max_depth_idx st)
    (min_depth st) (min_depth_idx st) (total_depths st) (max_relax_iters st)
    (der_type st) (double_der_coef st) (relax_scheme st) (eqns st) (cout st).

Definition set_rho_h (st : FASMultigrid) (h : Z -> fas_heirarchy_set_t) :=
  mk_FAS (u_h st) (tmp_h st) (coarse_src_h st) (jac_rhs_h st) (damping_v_h st)
    h (u_n st) (molecule_n st) (nx_h st) (ny_h st) (nz_h st)
    (relaxation_tolerance st) (max_depth st) (max_depth_idx st)
    (min_depth st) (min_depth_idx st) (total_depths st) (max_relax_iters st)
    (der_type st) (double_der_coef st) (relax_scheme st) (eqns st) (cout st).

Definition set_dims (st : FASMultigrid) (hx hy hz : Z -> Z) :=
  mk_FAS (u_h st) (tmp_h st) (coarse_src_h st) (jac_rhs_h st) (damping_v_h st)
    (rho_h st) (u_n st) (molecule_n st) hx hy hz
    (relaxation_tolerance st) (max_depth st) (max_depth_idx st)
    (min_depth st) (min_depth_idx st) (total_depths st) (max_relax_iters st)
    (der_type st) (double_der_coef st) (relax_scheme st) (eqns st) (cout st).

Definition set_eqns (st : FASMultigrid) (q : Z -> Z -> molecule) :=
  mk_FAS (u_h st) (tmp_h st) (coarse_src_h st) (jac_rhs_h st) (damping_v_h st)
    (rho_h st) (u_n st) (molecule_n st) (nx_h st) (ny_h st) (nz_h st)
    (relaxation_tolerance st) (max_depth st) (max_depth_idx st)
    (min_depth st) (min_depth_idx st) (total_depths st) (max_relax_iters st)
    (der_type st) (double_der_coef st) (relax_scheme st) q (cout st).

Definition set_relax_scheme (st : FASMultigrid) (r : relax_t) :=
  mk_FAS (u_h st) (tmp_h st) (coarse_src_h st) (jac_rhs_h st) (damping_v_h st)
    (rho_h st) (u_n st) (molecule_n st) (nx_h st) (ny_h st) (nz_h st)
    (relaxation_tolerance st) (max_depth st) (max_depth_idx st)
    (min_depth st) (min_depth_idx st) (total_depths st) (max_relax_iters st)
    (der_type st) (double_der_coef st) r (eqns st) (cout st).

(** [std::cout << m]. *)
Definition print (st : FASMultigrid) (m : msg) :=
  mk_FAS (u_h st) (tmp_h st) (coarse_src_h st) (jac_rhs_h st) (damping_v_h st)
    (rho_h st) (u_n st) (molecule_n st) (nx_h st) (ny_h st) (nz_h st)
    (relaxation_tolerance st) (max_depth st) (max_depth_idx st)
    (min_depth st) (min_depth_idx st) (total_depths st) (max_relax_iters st)
    (der_type st) (double_der_coef st) (relax_scheme st) (eqns st)
    (cout st ++ [m]).

(** Write one grid of a set of hierarchies. *)
Definition store_grid (h : fas_heirarchy_set_t) (eqn_id depth_idx : Z)
    (g : arr_t) : fas_heirarchy_set_t :=
  store h eqn_id (store (h eqn_id) depth_idx g).

Definition _dIdx (st : FASMultigrid) (depth : Z) : Z := depth - min_depth st.

Definition _sign (x : R) : Z :=
  if Rlt_dec 0 x then 1 else if Rlt_dec x 0 then -1 else 0.

(** Comparisons of reals as booleans. *)
Definition Rltb (x y : R) : bool := if Rlt_dec x y then true else false.
Definition Rleb (x y : R) : bool := if Rle_dec x y then true else false.

(** ** What the solver takes from its host *)

(** The macros [NX], [NY], [NZ], [H_LEN_FRAC] and [STENCIL_ORDER]
    (cosmo_macros.h) and the finite-difference stencils of utils/math.h are
    not part of the sources: they are parameters of the development. *)
Class Host : Type := {
  NX : Z;
  NY : Z;
  NZ : Z;
  H_LEN_FRAC : R;
  STENCIL_ORDER : Z;
  derivative : Z -> Z -> Z -> Z -> Z -> Z -> Z -> arr_t -> R;
  double_derivative : Z -> Z -> Z -> Z -> Z -> Z -> Z -> Z -> arr_t -> R;
  laplacian : Z -> Z -> Z -> Z -> Z -> Z -> arr_t -> R
}.

(** The result of a method that may throw, or whose loop may not end. *)
Inductive outcome (A : Type) : Type :=
| Returned (a : A) (st : FASMultigrid)
| Thrown (code : Z) (st : FASMultigrid)
| OutOfFuel.

Arguments Returned {A} a st.
Arguments Thrown {A} code st.
Arguments OutOfFuel {A}.

Definition bind {A B : Type} (m : outcome A)
    (f : A -> FASMultigrid -> outcome B) : outcome B :=
  match m with
  | Returned a st => f a st
  | Thrown c st => Thrown c st
  | OutOfFuel => OutOfFuel
  end.

Notation "'do' st <- m ; k" := (bind m (fun _ st => k))
  (at level 10, st name, m at level 100, k at level 200).

(** A [for] loop over [l] whose body may throw. *)
Fixpoint for_each {T : Type} (l : list T)
    (body : T -> FASMultigrid -> outcome unit) (st : FASMultigrid)
    : outcome unit :=
  match l with
  | [] => Returned tt st
  | x :: l' => do st' <- body x st; for_each l' body st'
  end.

Section Solver.

Context {host : Host}.

(** *** Constructor *)

Definition null_arr : arr_t := mk_arr (fun _ => 0%R) 0 0 0 0.

(** The fields of a grid as the constructor leaves them: storage [a] and
    the dimensions of depth index [depth_idx]. *)
Definition sized (a : Z -> R) (st : FASMultigrid) (depth_idx : Z) : arr_t :=
  mk_arr a (nx_h st depth_idx) (ny_h st depth_idx) (nz_h st depth_idx)
    (nx_h st depth_idx * ny_h st depth_idx * nz_h st depth_idx).

(** The body of the loop over [depth] of the constructor. *)
Definition ctor_depth (u_in : Z -> arr_t) (eqn_id : Z) (st : FASMultigrid)
    (depth : Z) : FASMultigrid :=
  let depth_idx := _dIdx st depth in
  let st :=
    if depth_idx =? _dIdx st (max_depth st) then
      let st := set_dims st (store (nx_h st) depth_idx NX)
                  (store (ny_h st) depth_idx NY) (store (nz_h st) depth_idx NZ) in
      set_u_h st (store_grid (u_h st) eqn_id depth_idx
                    (sized (_array (u_in eqn_id)) st depth_idx))
    else
      let st := set_dims st
        (store (nx_h st) depth_idx
           (Z.quot (nx_h st (depth_idx + 1)) 2 + Z.rem (nx_h st (depth_idx + 1)) 2))
        (store (ny_h st) depth_idx
           (Z.quot (ny_h st (depth_idx + 1)) 2 + Z.rem (ny_h st (depth_idx + 1)) 2))
        (store (nz_h st) depth_idx
           (Z.quot (nz_h st (depth_idx + 1)) 2 + Z.rem (nz_h st (depth_idx + 1)) 2)) in
      set_u_h st (store_grid (u_h st) eqn_id depth_idx
        (sized (_array (arr_init (nx_h st depth_idx) (ny_h st depth_idx)
                          (nz_h st depth_idx))) st depth_idx)) in
  let fresh := _array (arr_init (nx_h st depth_idx) (ny_h st depth_idx)
                         (nz_h st depth_idx)) in
  let st := set_coarse_src_h st
    (store_grid (coarse_src_h st) eqn_id depth_idx (sized fresh st depth_idx)) in
  let st := set_damping_v_h st
    (store_grid (damping_v_h st) eqn_id depth_idx (sized fresh st depth_idx)) in
  let st := set_jac_rhs_h st
    (store_grid (jac_rhs_h st) eqn_id depth_idx (sized fresh st depth_idx)) in
  set_tmp_h st
    (store_grid (tmp_h st) eqn_id depth_idx (sized fresh st depth_idx)).

(** The depths [max_depth, max_depth - 1, ..., min_depth]. *)
Definition depths_down (st : FASMultigrid) : list Z :=
  map (fun t => max_depth st - t) (zrange (max_depth st - min_depth st + 1)).

(** The body of the loop over [mol_id] of the constructor. *)
Definition ctor_rho (eqn_id : Z) (st : FASMultigrid) (mol_id : Z)
    : FASMultigrid :=
  fold_left (fun st depth =>
    let depth_idx := _dIdx st depth in
    set_rho_h st (store (rho_h st) eqn_id
      (store_grid (rho_h st eqn_id) mol_id depth_idx
         (sized (_array (arr_init (nx_h st depth_idx) (ny_h st depth_idx)
                           (nz_h st depth_idx))) st depth_idx))))
    (depths_down st) st.

(** The body of the loop over [eqn_id] of the constructor. *)
Definition ctor_eqn (u_in : Z -> arr_t) (st : FASMultigrid) (eqn_id : Z)
    : FASMultigrid :=
  let st := set_dims st (fun _ => 0) (fun _ => 0) (fun _ => 0) in
  let st := set_eqns st
    (store (eqns st) eqn_id (fun _ => mk_molecule (fun _ => mk_atom 0 0 0%R) 0 0%R)) in
  let st := fold_left (ctor_depth u_in eqn_id) (depths_down st) st in
  fold_left (ctor_rho eqn_id) (zrange (molecule_n st eqn_id)) st.

(** The tables [der_type] and [double_der_coef] the constructor fills. *)
Definition der_type_table (a b : Z) : Z :=
  match a, b with
  | 0, 0 => 1 | 1, 0 => 2 | 2, 0 => 3
  | 3, 0 => 1 | 3, 1 => 1
  | 4, 0 => 2 | 4, 1 => 2
  | 5, 0 => 3 | 5, 1 => 3
  | 6, 0 => 1 | 6, 1 => 2
  | 7, 0 => 1 | 7, 1 => 3
  | 8, 0 => 2 | 8, 1 => 3
  | _, _ => 0
  end.

Definition double_der_coef_table (order : Z) : R :=
  match order with
  | 2 => 2.0
  | 4 => 2.5
  | 6 => 49.0 / 18.0
  | 8 => 205.0 / 72.0
  | _ => 0
  end%R.

(** [FASMultigrid::FASMultigrid]. *)
Definition FASMultigrid_new (u_in : Z -> arr_t) (u_n_in : Z)
    (molecule_n_in : Z -> Z) (max_depth_in max_relax_iters_in : Z)
    (relaxation_tolerance_in : R) : FASMultigrid :=
  let min_depth := 1 in
  let st := mk_FAS
    (fun _ _ => null_arr) (fun _ _ => null_arr) (fun _ _ => null_arr)
    (fun _ _ => null_arr) (fun _ _ => null_arr) (fun _ _ _ => null_arr)
    u_n_in molecule_n_in (fun _ => 0) (fun _ => 0) (fun _ => 0)
    relaxation_tolerance_in
    max_depth_in (max_depth_in - min_depth)
    min_depth (min_depth - min_depth)
    (max_depth_in - min_depth + 1) max_relax_iters_in
    der_type_table double_der_coef_table
    inexact_newton
    (fun _ _ => mk_molecule (fun _ => mk_atom 0 0 0%R) 0 0%R)
    [] in
  fold_left (ctor_eqn u_in) (zrange (u_n st)) st.

(** [molecule::init] on [eqns[eqn_id][molecule_id]] (the field is public). *)
Definition init_molecule (st : FASMultigrid) (eqn_id molecule_id : Z)
    (atom_n_in : Z) (const_coef_in : R) : FASMultigrid :=
  set_eqns st (store (eqns st) eqn_id
    (store (eqns st eqn_id) molecule_id (molecule_init atom_n_in const_coef_in))).

Definition add_atom_to_eqn (st : FASMultigrid) (atom_in : atom)
    (molecule_id eqn_id : Z) : FASMultigrid :=
  set_eqns st (store (eqns st) eqn_id
    (store (eqns st eqn_id) molecule_id
       (add_atom (eqns st eqn_id molecule_id) atom_in))).

(** *** The pointwise evaluators *)

Definition _evaluateEllipticEquationPt (st : FASMultigrid)
    (eqn_id depth_idx i j k : Z) : R :=
  fold_left (fun res mol_id =>
    let val :=
      fold_left (fun val atom_id =>
        let ad := atoms (eqns st eqn_id mol_id) atom_id in
        let pos_idx := H_INDEX i j k (nx_h st depth_idx) (ny_h st depth_idx)
                         (nz_h st depth_idx) in
        if type ad =? 0 then
          val * _array (rho_h st eqn_id mol_id depth_idx) pos_idx
        else if type ad =? 1 then
          let vd := u_h st (u_id ad) depth_idx in
          val * cpow (_array vd pos_idx) (value ad)
        else if type ad <=? 4 then
          let vd := u_h st (u_id ad) depth_idx in
          val * derivative i j k (nx vd) (ny vd) (nz vd)
                  (der_type st (type ad - 2) 0) vd
        else if type ad <=? 10 then
          let vd := u_h st (u_id ad) depth_idx in
          val * double_derivative i j k (nx vd) (ny vd) (nz vd)
                  (der_type st (type ad - 2) 0) (der_type st (type ad - 2) 1) vd
        else
          let vd := u_h st (u_id ad) depth_idx in
          val * laplacian i j k (nx vd) (ny vd) (nz vd) vd)%R
        (zrange (atom_n (eqns st eqn_id mol_id))) 1%R in
    (res + val)%R)
    (zrange (molecule_n st eqn_id)) 0%R.

(** The four accumulators of a molecule in the Jacobi coefficients. *)
Record jac_acc : Type := mk_acc {
  mol_to_a : R;
  mol_to_b : R;
  non_der_val : R;
  der_val : R
}.

(** [(ad.type <= 7)] used as a number. *)
Definition b2r (b : bool) : R := if b then 1%R else 0%R.

(** One atom of [_evaluateIterationForJacEquation]. *)
Definition jac_atom (st : FASMultigrid) (eqn_id mol_id depth_idx i j k uid : Z)
    (acc : jac_acc) (ad : atom) : jac_acc :=
  let dx := (H_LEN_FRAC / IZR (nx_h st depth_idx))%R in
  let pos_idx := H_INDEX i j k (nx_h st depth_idx) (ny_h st depth_idx)
                   (nz_h st depth_idx) in
  let vd := u_h st (u_id ad) depth_idx in
  let jac_vd := damping_v_h st uid depth_idx in
  let a := mol_to_a acc in
  let b := mol_to_b acc in
  let n := non_der_val acc in
  let d := der_val acc in
  (if type ad =? 0 then
    let rho := _array (rho_h st eqn_id mol_id depth_idx) pos_idx in
    mk_acc (a * rho) (b * rho) (n * rho) (d * rho)
  else if type ad =? 1 then
    let p := cpow (_array vd pos_idx) (value ad) in
    if uid =? u_id ad then
      mk_acc (a * p)
        (b * p + n * value ad * cpow (_array vd pos_idx) (value ad - 1.0))
        (n * p)
        (n * value ad * cpow (_array vd pos_idx) (value ad - 1.0)
           * _array jac_vd pos_idx + d * p)
    else mk_acc (a * p) (b * p) (n * p) (d * p)
  else if type ad <=? 4 then
    let D := derivative i j k (nx vd) (ny vd) (nz vd)
               (der_type st (type ad - 2) 0) vd in
    let Dv := derivative i j k (nx jac_vd) (ny jac_vd) (nz jac_vd)
                (der_type st (type ad - 2) 0) jac_vd in
    if uid =? u_id ad then
      mk_acc (a * D + n * Dv) (b * D) (n * D) (n * Dv + d * D)
    else mk_acc (a * D) (b * D) (n * D) (d * D)
  else if type ad <=? 10 then
    let D := double_derivative i j k (nx vd) (ny vd) (nz vd)
               (der_type st (type ad - 2) 0) (der_type st (type ad - 2) 1) vd in
    let Dv := double_derivative i j k (nx jac_vd) (ny jac_vd) (nz jac_vd)
                (der_type st (type ad - 2) 0) (der_type st (type ad - 2) 1)
                jac_vd in
    if uid =? u_id ad then
      mk_acc
        (a * D + n * (Dv + b2r (type ad <=? 7)
                             * double_der_coef st STENCIL_ORDER
                             * _array jac_vd pos_idx / (dx * dx)))
        (b * D - b2r (type ad <=? 7) * n
                   * double_der_coef st STENCIL_ORDER / (dx * dx))
        (n * D)
        (n * Dv + d * D)
    else mk_acc (a * D) (b * D) (n * D) (d * D)
  else
    if uid =? u_id ad then
      let L := laplacian i j k (nx jac_vd) (ny jac_vd) (nz jac_vd) vd in
      mk_acc
        (a * L + n * (laplacian i j k (nx jac_vd) (ny jac_vd) (nz jac_vd) jac_vd
                        + 3.0 * double_der_coef st STENCIL_ORDER
                            * _array jac_vd pos_idx / (dx * dx)))
        (b * L - n * 3.0 * double_der_coef st STENCIL_ORDER / (dx * dx))
        (n * L)
        (n * laplacian i j k (nx vd) (ny vd) (nz vd) jac_vd + d * L)
    else
      let L := laplacian i j k (nx vd) (ny vd) (nz vd) vd in
      mk_acc (a * L) (b * L) (n * L) (d * L))%R.

(** [_evaluateIterationForJacEquation]: the references [coef_a] and
    [coef_b] are passed in and returned. *)
Definition _evaluateIterationForJacEquation (st : FASMultigrid)
    (eqn_id depth_idx : Z) (coef_a coef_b : R) (i j k uid : Z) : R * R :=
  fold_left (fun (ab : R * R) mol_id =>
    let acc :=
      fold_left (fun acc atom_id =>
        jac_atom st eqn_id mol_id depth_idx i j k uid acc
          (atoms (eqns st eqn_id mol_id) atom_id))
        (zrange (atom_n (eqns st eqn_id mol_id)))
        (mk_acc 0 0 1 0) in
    (fst ab + mol_to_a acc, snd ab + mol_to_b acc)%R)
    (zrange (molecule_n st eqn_id)) (coef_a, coef_b).

(** One atom of [_evaluateDerEllipticEquation]: the pair is
    [(non_der_val, der_val)]. *)
Definition der_atom (st : FASMultigrid) (eqn_id mol_id depth_idx i j k uid : Z)
    (acc : R * R) (ad : atom) : R * R :=
  let pos_idx := H_INDEX i j k (nx_h st depth_idx) (ny_h st depth_idx)
                   (nz_h st depth_idx) in
  let vd := u_h st (u_id ad) depth_idx in
  let jac_vd := damping_v_h st uid depth_idx in
  let n := fst acc in
  let d := snd acc in
  (if type ad =? 0 then
    let rho := _array (rho_h st eqn_id mol_id depth_idx) pos_idx in
    (n * rho, d * rho)
  else if type ad =? 1 then
    let p := cpow (_array vd pos_idx) (value ad) in
    if uid =? u_id ad then
      (n * p,
       n * value ad * cpow (_array vd pos_idx) (value ad - 1.0)
         * _array jac_vd pos_idx + d * p)
    else (n * p, d * p)
  else if type ad <=? 4 then
    let D := derivative i j k (nx vd) (ny vd) (nz vd)
               (der_type st (type ad - 2) 0) vd in
    if uid =? u_id ad then
      (n * D,
       n * derivative i j k (nx jac_vd) (ny jac_vd) (nz jac_vd)
             (der_type st (type ad - 2) 0) jac_vd + d * D)
    else (n * D, d * D)
  else if type ad <=? 10 then
    let D := double_derivative i j k (nx vd) (ny vd) (nz vd)
               (der_type st (type ad - 2) 0) (der_type st (type ad - 2) 1) vd in
    if uid =? u_id ad then
      (n * D,
       n * double_derivative i j k (nx jac_vd) (ny jac_vd) (nz jac_vd)
             (der_type st (type ad - 2) 0) (der_type st (type ad - 2) 1) jac_vd
         + d * D)
    else (n * D, d * D)
  else
    if eqn_id =? u_id ad then
      let L := laplacian i j k (nx jac_vd) (ny jac_vd) (nz jac_vd) vd in
      (n * L, n * laplacian i j k (nx vd) (ny vd) (nz vd) jac_vd + d * L)
    else
      let L := laplacian i j k (nx vd) (ny vd) (nz vd) vd in
      (n * L, d * L))%R.

Definition _evaluateDerEllipticEquation (st : FASMultigrid)
    (eqn_id depth_idx i j k uid : Z) : R :=
  fold_left (fun res mol_id =>
    let acc :=
      fold_left (fun acc atom_id =>
        der_atom st eqn_id mol_id depth_idx i j k uid acc
          (atoms (eqns st eqn_id mol_id) atom_id))
        (zrange (atom_n (eqns st eqn_id mol_id)))
        (1%R, 0%R) in
    (res + snd acc)%R)
    (zrange (molecule_n st eqn_id)) 0%R.

(** *** Whole-grid operations *)

Definition _zeroGrid (grid : arr_t) : arr_t :=
  with_array grid
    (fold_left (fun a i => store a i 0%R) (zrange (pts grid)) (_array grid)).

Definition _totalGrid (grid : arr_t) : R :=
  fold_left (fun total i => (total + _array grid i)%R) (zrange (pts grid)) 0%R.

Definition _averageGrid (grid : arr_t) : R :=
  (_totalGrid grid / IZR (pts grid))%R.

Definition _maxGrid (grid : arr_t) : R :=
  fold_left (fun max i => if Rltb max (_array grid i) then _array grid i else max)
    (zrange (pts grid)) (- 1e100)%R.

Definition _minGrid (grid : arr_t) : R :=
  fold_left (fun min i => if Rltb (_array grid i) min then _array grid i else min)
    (zrange (pts grid)) 1e100%R.

(** *** Transfer between depths *)

(** The value restriction gives the coarse cell (i,j,k). *)
Definition restrict_kernel (fine_grid : arr_t) (n_fine_x n_fine_y n_fine_z : Z)
    (i j k : Z) : R :=
  let fi := i * 2 in
  let fj := j * 2 in
  let fk := k * 2 in
  let f := fun a b c => _array fine_grid (H_INDEX a b c n_fine_x n_fine_y n_fine_z) in
  (0.125 * f fi fj fk
   + 0.0625 * (
       f (fi + 1)%Z fj fk +
       f fi (fj + 1)%Z fk +
       f fi fj (fk + 1)%Z +
       f (fi - 1)%Z fj fk +
       f fi (fj - 1)%Z fk +
       f fi fj (fk - 1)%Z)
   + 0.03125 * (
       f (fi + 1)%Z (fj + 1)%Z fk +
       f (fi + 1)%Z (fj - 1)%Z fk +
       f (fi - 1)%Z (fj + 1)%Z fk +
       f (fi - 1)%Z (fj - 1)%Z fk +
       f (fi + 1)%Z fj (fk + 1)%Z +
       f (fi + 1)%Z fj (fk - 1)%Z +
       f (fi - 1)%Z fj (fk + 1)%Z +
       f (fi - 1)%Z fj (fk - 1)%Z +
       f fi (fj + 1)%Z (fk + 1)%Z +
       f fi (fj + 1)%Z (fk - 1)%Z +
       f fi (fj - 1)%Z (fk + 1)%Z +
       f fi (fj - 1)%Z (fk - 1)%Z)
   + 0.015625 * (
       f (fi + 1)%Z (fj + 1)%Z (fk + 1)%Z +
       f (fi + 1)%Z (fj + 1)%Z (fk - 1)%Z +
       f (fi + 1)%Z (fj - 1)%Z (fk + 1)%Z +
       f (fi - 1)%Z (fj + 1)%Z (fk + 1)%Z +
       f (fi + 1)%Z (fj - 1)%Z (fk - 1)%Z +
       f (fi - 1)%Z (fj + 1)%Z (fk - 1)%Z +
       f (fi - 1)%Z (fj - 1)%Z (fk + 1)%Z +
       f (fi - 1)%Z (fj - 1)%Z (fk - 1)%Z))%R.

Definition _restrictFine2coarse (st : FASMultigrid)
    (grid_heirarchy : fas_heirarchy_t) (fine_depth : Z) : fas_heirarchy_t :=
  let fine_idx := _dIdx st fine_depth in
  let coarse_idx := fine_idx - 1 in
  let n_fine_x := nx (grid_heirarchy fine_idx) in
  let n_fine_y := ny (grid_heirarchy fine_idx) in
  let n_fine_z := nz (grid_heirarchy fine_idx) in
  let n_coarse_x := Z.quot n_fine_x 2 in
  let n_coarse_y := Z.quot n_fine_y 2 in
  let n_coarse_z := Z.quot n_fine_z 2 in
  let fine_grid := grid_heirarchy fine_idx in
  let coarse_grid := grid_heirarchy coarse_idx in
  store grid_heirarchy coarse_idx
    (with_array coarse_grid
       (fold_left (fun a '(i, j, k) =>
          store a (H_INDEX i j k n_coarse_x n_coarse_y n_coarse_z)
            (restrict_kernel fine_grid n_fine_x n_fine_y n_fine_z i j k))
          (FAS_LOOP3_N n_coarse_x n_coarse_y n_coarse_z)
          (_array coarse_grid))).

(** The 27 offsets of the three loops over [i_adj], [j_adj], [k_adj]. *)
Definition adjacent : list (Z * Z * Z) :=
  flat_map (fun i_adj =>
    flat_map (fun j_adj => map (fun k_adj => (i_adj, j_adj, k_adj)) [-1; 0; 1])
      [-1; 0; 1])
    [-1; 0; 1].

(** What the coarse cell (i,j,k) adds to the fine grid. *)
Definition interpolate_cell (n_coarse_x n_coarse_y n_coarse_z : Z)
    (n_fine_x n_fine_y n_fine_z : Z) (coarse_grid : arr_t)
    (fine : Z -> R) (site : Z * Z * Z) : Z -> R :=
  let '(i, j, k) := site in
  let fi := i * 2 in
  let fj := j * 2 in
  let fk := k * 2 in
  let coarse_grid_val :=
    _array coarse_grid (H_INDEX i j k n_coarse_x n_coarse_y n_coarse_z) in
  fold_left (fun fine '(i_adj, j_adj, k_adj) =>
    let fine_grid_loc :=
      H_INDEX (fi + i_adj) (fj + j_adj) (fk + k_adj) n_fine_x n_fine_y n_fine_z in
    let coarse_grid_loc :=
      H_INDEX (fi + i_adj) (fj + j_adj) (fk + k_adj)
        (n_coarse_x * 2) (n_coarse_y * 2) (n_coarse_z * 2) in
    if (i_adj =? 0) && (j_adj =? 0) && (k_adj =? 0) then
      store fine fine_grid_loc (fine fine_grid_loc + coarse_grid_val)%R
    else if fine_grid_loc =? coarse_grid_loc then
      let divisor :=
        cpow 2.0 (IZR (Z.abs i_adj + Z.abs j_adj + Z.abs k_adj)) in
      store fine fine_grid_loc (fine fine_grid_loc + coarse_grid_val / divisor)%R
    else fine)
    adjacent fine.

Definition _interpolateCoarse2fine (st : FASMultigrid)
    (grid_heirarchy : fas_heirarchy_t) (coarse_depth : Z) : fas_heirarchy_t :=
  let fine_idx := _dIdx st (coarse_depth + 1) in
  let coarse_idx := _dIdx st coarse_depth in
  let n_coarse_x := nx_h st coarse_idx in
  let n_coarse_y := ny_h st coarse_idx in
  let n_coarse_z := nz_h st coarse_idx in
  let n_fine_x := n_coarse_x * 2 in
  let n_fine_y := n_coarse_y * 2 in
  let n_fine_z := n_coarse_z * 2 in
  let coarse_grid := grid_heirarchy coarse_idx in
  let fine_grid := _zeroGrid (grid_heirarchy fine_idx) in
  store grid_heirarchy fine_idx
    (with_array fine_grid
       (fold_left
          (interpolate_cell n_coarse_x n_coarse_y n_coarse_z
             n_fine_x n_fine_y n_fine_z coarse_grid)
          (FAS_LOOP3_N n_coarse_x n_coarse_y n_coarse_z)
          (_array fine_grid))).

(** *** Residuals *)

(** The hierarchy argument of the next methods is, at every call, a
    hierarchy of [tmp_h] or [coarse_src_h], which the evaluator does not
    read: the new hierarchy is computed from the solver and returned. *)
Definition _evaluateEllipticEquation (st : FASMultigrid)
    (result_h : fas_heirarchy_t) (eqn_id depth : Z) : fas_heirarchy_t :=
  let depth_idx := _dIdx st depth in
  let n_x := nx_h st depth_idx in
  let n_y := ny_h st depth_idx in
  let n_z := nz_h st depth_idx in
  let result := result_h depth_idx in
  store result_h depth_idx
    (with_array result
       (fold_left (fun a '(i, j, k) =>
          store a (H_INDEX i j k n_x n_y n_z)
            (_evaluateEllipticEquationPt st eqn_id depth_idx i j k))
          (FAS_LOOP3_N n_x n_y n_z) (_array result))).

Definition _computeResidual (st : FASMultigrid) (residual_h : fas_heirarchy_t)
    (eqn_id depth : Z) : fas_heirarchy_t :=
  let depth_idx := _dIdx st depth in
  let n_x := nx (residual_h depth_idx) in
  let n_y := ny (residual_h depth_idx) in
  let n_z := nz (residual_h depth_idx) in
  let coarse_src := coarse_src_h st eqn_id depth_idx in
  let residual_h := _evaluateEllipticEquation st residual_h eqn_id depth in
  let residual := residual_h depth_idx in
  store residual_h depth_idx
    (with_array residual
       (fold_left (fun a '(i, j, k) =>
          let idx := H_INDEX i j k n_x n_y n_z in
          store a idx (_array coarse_src idx - a idx)%R)
          (FAS_LOOP3_N n_x n_y n_z) (_array residual))).

Definition _getMaxResidual (st : FASMultigrid) (eqn_id depth : Z) : R :=
  let depth_idx := _dIdx st depth in
  let n_x := nx_h st depth_idx in
  let n_y := ny_h st depth_idx in
  let n_z := nz_h st depth_idx in
  let coarse_src := coarse_src_h st eqn_id depth_idx in
  fold_left (fun max_residual '(i, j, k) =>
    let idx := H_INDEX i j k n_x n_y n_z in
    let current_residual :=
      Rabs (_array coarse_src idx
            - _evaluateEllipticEquationPt st eqn_id depth_idx i j k) in
    if Rltb max_residual current_residual then current_residual
    else max_residual)
    (FAS_LOOP3_N n_x n_y n_z) 0%R.

Definition _getMaxResidualAllEqs (st : FASMultigrid) (depth : Z) : R :=
  fold_left (fun max_for_all eqn_id =>
    Rmax max_for_all (_getMaxResidual st eqn_id depth))
    (zrange (u_n st)) 0%R.

Definition _computeCoarseRestrictions (st : FASMultigrid)
    (eqn_id fine_depth : Z) : FASMultigrid :=
  let st := set_u_h st (store (u_h st) eqn_id
              (_restrictFine2coarse st (u_h st eqn_id) fine_depth)) in
  let st := set_tmp_h st (store (tmp_h st) eqn_id
              (_computeResidual st (tmp_h st eqn_id) eqn_id fine_depth)) in
  let st := set_tmp_h st (store (tmp_h st) eqn_id
              (_restrictFine2coarse st (tmp_h st eqn_id) fine_depth)) in
  let st := set_coarse_src_h st (store (coarse_src_h st) eqn_id
              (_evaluateEllipticEquation st (coarse_src_h st eqn_id) eqn_id
                 (fine_depth - 1))) in
  let coarse_idx := _dIdx st (fine_depth - 1) in
  let n_x := nx_h st coarse_idx in
  let n_y := ny_h st coarse_idx in
  let n_z := nz_h st coarse_idx in
  let coarse_src := coarse_src_h st eqn_id coarse_idx in
  let tmp := tmp_h st eqn_id coarse_idx in
  set_coarse_src_h st (store_grid (coarse_src_h st) eqn_id coarse_idx
    (with_array coarse_src
       (fold_left (fun a '(i, j, k) =>
          let idx := H_INDEX i j k n_x n_y n_z in
          store a idx (a idx + _array tmp idx)%R)
          (FAS_LOOP3_N n_x n_y n_z) (_array coarse_src)))).

(** Returns the new [appx_to_err_h]; [exact_soln_h] is only read. *)
Definition _changeApproximateSolutionToError (st : FASMultigrid)
    (appx_to_err_h exact_soln_h : fas_heirarchy_t) (depth : Z)
    : fas_heirarchy_t :=
  let depth_idx := _dIdx st depth in
  let n_x := nx_h st depth_idx in
  let n_y := ny_h st depth_idx in
  let n_z := nz_h st depth_idx in
  let appx_to_err := appx_to_err_h depth_idx in
  let exact_soln := exact_soln_h depth_idx in
  store appx_to_err_h depth_idx
    (with_array appx_to_err
       (fold_left (fun a '(i, j, k) =>
          let idx := H_INDEX i j k n_x n_y n_z in
          store a idx (_array exact_soln idx - a idx)%R)
          (FAS_LOOP3_N n_x n_y n_z) (_array appx_to_err))).

(** Returns the new [(err2appx_h, appx_soln_h)]. *)
Definition _correctFineFromCoarseErr_Err2Appx (st : FASMultigrid)
    (err2appx_h appx_soln_h : fas_heirarchy_t) (fine_depth : Z)
    : fas_heirarchy_t * fas_heirarchy_t :=
  let coarse_depth := fine_depth - 1 in
  let fine_depth_idx := _dIdx st fine_depth in
  let n_fine_x := nx_h st fine_depth_idx in
  let n_fine_y := ny_h st fine_depth_idx in
  let n_fine_z := nz_h st fine_depth_idx in
  let err2appx_h := _interpolateCoarse2fine st err2appx_h coarse_depth in
  let err2appx := err2appx_h fine_depth_idx in
  let appx_soln := appx_soln_h fine_depth_idx in
  let '(e, s) :=
    fold_left (fun (es : (Z -> R) * (Z -> R)) '(i, j, k) =>
      let idx := H_INDEX i j k n_fine_x n_fine_y n_fine_z in
      let appx_val := snd es idx in
      (store (fst es) idx appx_val,
       store (snd es) idx (snd es idx + fst es idx)%R))
      (FAS_LOOP3_N n_fine_x n_fine_y n_fine_z)
      (_array err2appx, _array appx_soln) in
  (store err2appx_h fine_depth_idx (with_array err2appx e),
   store appx_soln_h fine_depth_idx (with_array appx_soln s)).

(** Modelled from the spec: the assignment of [arr_t] (cosmo_types.h) is not
    part of the sources; [to = from] snapshots the values of [from]. *)
Definition _copyGrid (from_h to_h : fas_heirarchy_set_t) (eqn_id depth : Z)
    (st : FASMultigrid) : fas_heirarchy_set_t :=
  let depth_idx := _dIdx st depth in
  let from := from_h eqn_id depth_idx in
  let to := to_h eqn_id depth_idx in
  store_grid to_h eqn_id depth_idx (with_array to (_array from)).

(** *** The smoother *)

(** The sum over equations and sites of [(F_e - coarse_src_e)^2]. *)
Definition residual_norm (st : FASMultigrid) (depth_idx : Z) : R :=
  let n_x := nx_h st depth_idx in
  let n_y := ny_h st depth_idx in
  let n_z := nz_h st depth_idx in
  fold_left (fun sum eqn_id =>
    let coarse_src := coarse_src_h st eqn_id depth_idx in
    fold_left (fun sum '(i, j, k) =>
      let idx := H_INDEX i j k n_x n_y n_z in
      let temp := (_evaluateEllipticEquationPt st eqn_id depth_idx i j k
                   - _array coarse_src idx)%R in
      (sum + temp * temp)%R)
      (FAS_LOOP3_N n_x n_y n_z) sum)
    (zrange (u_n st)) 0%R.

(** The first loop of [_getLambda]: [u += 1.0 * damping_v]. *)
Definition lambda_unit_step (st : FASMultigrid) (depth_idx : Z)
    : FASMultigrid :=
  let n_x := nx_h st depth_idx in
  let n_y := ny_h st depth_idx in
  let n_z := nz_h st depth_idx in
  fold_left (fun st eqn_id =>
    let u := u_h st eqn_id depth_idx in
    let damping_v := damping_v_h st eqn_id depth_idx in
    set_u_h st (store_grid (u_h st) eqn_id depth_idx
      (with_array u
         (fold_left (fun a '(i, j, k) =>
            let idx := H_INDEX i j k n_x n_y n_z in
            store a idx (a idx + 1.0 * _array damping_v idx)%R)
            (FAS_LOOP3_N n_x n_y n_z) (_array u)))))
    (zrange (u_n st)) st.

(** The last loop of the body of [_getLambda]: [u -= 0.01 * damping_v]. *)
Definition lambda_roll_back (st : FASMultigrid) (depth_idx : Z)
    : FASMultigrid :=
  let n_x := nx_h st depth_idx in
  let n_y := ny_h st depth_idx in
  let n_z := nz_h st depth_idx in
  fold_left (fun st eqn_id =>
    let u := u_h st eqn_id depth_idx in
    let damping_v := damping_v_h st eqn_id depth_idx in
    set_u_h st (store_grid (u_h st) eqn_id depth_idx
      (with_array u
         (fold_left (fun a '(i, j, k) =>
            let idx := H_INDEX i j k n_x n_y n_z in
            store a idx (a idx - 0.01 * _array damping_v idx)%R)
            (FAS_LOOP3_N n_x n_y n_z) (_array u)))))
    (zrange (u_n st)) st.

(** The loop [for(s = 0; s < 100; s++)] of [_getLambda], [s] trials left. *)
Fixpoint lambda_trials (s : nat) (st : FASMultigrid) (depth_idx : Z)
    (norm : R) : bool * FASMultigrid :=
  match s with
  | O => (false, st)
  | S s' =>
    let sum := residual_norm st depth_idx in
    if Rle_dec sum norm then (true, st)
    else lambda_trials s' (lambda_roll_back st depth_idx) depth_idx norm
  end.

Definition _getLambda (st : FASMultigrid) (depth : Z) (norm : R)
    : bool * FASMultigrid :=
  let depth_idx := _dIdx st depth in
  lambda_trials 100 (lambda_unit_step st depth_idx) depth_idx norm.

(** The first loop of [_jacobianRelax]: [damping_v = 0]. *)
Definition jacobian_zero (st : FASMultigrid) (depth_idx : Z) : FASMultigrid :=
  let n_x := nx_h st depth_idx in
  let n_y := ny_h st depth_idx in
  let n_z := nz_h st depth_idx in
  fold_left (fun st '(i, j, k) =>
    fold_left (fun st eqn_id =>
      let g := damping_v_h st eqn_id depth_idx in
      set_damping_v_h st (store_grid (damping_v_h st) eqn_id depth_idx
        (with_array g (store (_array g) (H_INDEX i j k n_x n_y n_z) 0.0%R))))
      (zrange (u_n st)) st)
    (FAS_LOOP3_N n_x n_y n_z) st.

(** One sweep of [_jacobianRelax] over the equations and the sites; the
    correction is updated in place.  The division by [- coef_b] is the one
    of [R]: at a coefficient [coef_b = 0] the source stores an infinity or
    a NaN, and the sweep here stores 0.  What is stated of the sweeps is
    stated for solvers whose coefficients [coef_b] are not zero
    ([diagonal_nonzero] below). *)
Definition jacobian_sweep (st : FASMultigrid) (depth_idx : Z) : FASMultigrid :=
  let n_x := nx_h st depth_idx in
  let n_y := ny_h st depth_idx in
  let n_z := nz_h st depth_idx in
  fold_left (fun st eqn_id =>
    fold_left (fun st '(i, j, k) =>
      let damping_v := damping_v_h st eqn_id depth_idx in
      let jac_rhs := jac_rhs_h st eqn_id depth_idx in
      let idx := H_INDEX i j k n_x n_y n_z in
      let '(coef_a, coef_b) :=
        _evaluateIterationForJacEquation st eqn_id depth_idx 0 0 i j k eqn_id in
      let temp :=
        fold_left (fun temp uid =>
          if negb (uid =? eqn_id) then
            (temp + _evaluateDerEllipticEquation st eqn_id depth_idx i j k uid)%R
          else temp)
          (zrange (u_n st)) 0%R in
      set_damping_v_h st (store_grid (damping_v_h st) eqn_id depth_idx
        (with_array damping_v
           (store (_array damping_v) idx
              ((coef_a - _array jac_rhs idx + temp) / (- coef_b))%R))))
      (FAS_LOOP3_N n_x n_y n_z) st)
    (zrange (u_n st)) st.

(** The norm [norm_r] of the linearized residual after a sweep. *)
Definition jacobian_norm (st : FASMultigrid) (depth_idx : Z) : R :=
  let n_x := nx_h st depth_idx in
  let n_y := ny_h st depth_idx in
  let n_z := nz_h st depth_idx in
  fold_left (fun norm_r '(i, j, k) =>
    let idx := H_INDEX i j k n_x n_y n_z in
    fold_left (fun norm_r eqn_id =>
      let jac_rhs := jac_rhs_h st eqn_id depth_idx in
      let temp :=
        fold_left (fun temp uid =>
          (temp + _evaluateDerEllipticEquation st eqn_id depth_idx i j k uid)%R)
          (zrange (u_n st)) 0%R in
      let temp := (temp - _array jac_rhs idx)%R in
      (norm_r + temp * temp)%R)
      (zrange (u_n st)) norm_r)
    (FAS_LOOP3_N n_x n_y n_z) 0%R.

(** The [while] loop of [_jacobianRelax]; [fuel] bounds the number of
    tests of its condition. *)
Fixpoint jacobian_loop (fuel : nat) (st : FASMultigrid) (depth_idx : Z)
    (norm C : R) (p : Z) (cnt : Z) (norm_r : R) : outcome bool :=
  match fuel with
  | O => OutOfFuel
  | S fuel' =>
    if Rge_dec norm_r (Rmin (cpow norm (IZR (p + 1)) * C) norm) then
      let norm_pre := 0.0%R in
      let st := jacobian_sweep st depth_idx in
      let norm_r := jacobian_norm st depth_idx in
      let cnt := cnt + 1 in
      if (500 <? cnt) && Rltb norm_pre norm_r then
        Returned false (print st (msg_unable cnt))
      else jacobian_loop fuel' st depth_idx norm C p cnt norm_r
    else Returned true st
  end.

Definition _jacobianRelax (fuel : nat) (st : FASMultigrid) (depth : Z)
    (norm C : R) (p : Z) : outcome bool :=
  let depth_idx := _dIdx st depth in
  jacobian_loop fuel (jacobian_zero st depth_idx) depth_idx norm C p 0 1e100%R.

Definition _singularityExists (st : FASMultigrid) (eqn_id depth : Z) : bool :=
  let depth_idx := _dIdx st depth in
  let n_x := nx_h st depth_idx in
  let n_y := ny_h st depth_idx in
  let n_z := nz_h st depth_idx in
  let u := u_h st eqn_id depth_idx in
  existsb (fun i => _sign (_array u i) * _sign (_array u 0) <? 0)
    (map (fun t => t + 1) (zrange (n_x * n_y * n_z - 1))).

(** The norm and the right-hand side [jac_rhs = -(F - coarse_src)] the
    smoother computes before the inner solve. *)
Definition relax_norm_rhs (st : FASMultigrid) (depth_idx : Z)
    : R * FASMultigrid :=
  let n_x := nx_h st depth_idx in
  let n_y := ny_h st depth_idx in
  let n_z := nz_h st depth_idx in
  fold_left (fun (ns : R * FASMultigrid) eqn_id =>
    fold_left (fun (ns : R * FASMultigrid) '(i, j, k) =>
      let '(norm, st) := ns in
      let jac_rhs := jac_rhs_h st eqn_id depth_idx in
      let coarse_src := coarse_src_h st eqn_id depth_idx in
      let idx := H_INDEX i j k n_x n_y n_z in
      let temp := (_evaluateEllipticEquationPt st eqn_id depth_idx i j k
                   - _array coarse_src idx)%R in
      ((norm + temp * temp)%R,
       set_jac_rhs_h st (store_grid (jac_rhs_h st) eqn_id depth_idx
         (with_array jac_rhs (store (_array jac_rhs) idx (- temp)%R)))))
      (FAS_LOOP3_N n_x n_y n_z) ns)
    (zrange (u_n st)) (0%R, st).

(** The loop of [_relaxSolution_GaussSeidel], [iters] iterations left. *)
Fixpoint relax_loop (fuel : nat) (iters : nat) (st : FASMultigrid)
    (depth : Z) : outcome unit :=
  match iters with
  | O => Returned tt st
  | S iters' =>
    if Rltb (_getMaxResidualAllEqs st depth) (relaxation_tolerance st) then
      Returned tt st
    else
      match relax_scheme st with
      | newton => relax_loop fuel iters' st depth
      | _ =>
        let '(norm, st) := relax_norm_rhs st (_dIdx st depth) in
        match _jacobianRelax fuel st depth norm 1 0 with
        | Returned false st => Returned tt st
        | Returned true st =>
          match _getLambda st depth norm with
          | (false, st) => Thrown (-1) (print st msg_no_damping)
          | (true, st) => relax_loop fuel iters' st depth
          end
        | Thrown c st => Thrown c st
        | OutOfFuel => OutOfFuel
        end
      end
  end.

Definition _relaxSolution_GaussSeidel (fuel : nat) (st : FASMultigrid)
    (depth max_iterations : Z) : outcome unit :=
  relax_loop fuel (Z.to_nat max_iterations) st depth.

(** *** The cycles *)

Definition setPolySrcAtPt (st : FASMultigrid) (eqn_id mol_id i j k : Z)
    (v : R) : FASMultigrid :=
  let idx := H_INDEX i j k (nx_h st (max_depth_idx st))
               (ny_h st (max_depth_idx st)) (nz_h st (max_depth_idx st)) in
  let g := rho_h st eqn_id mol_id (max_depth_idx st) in
  set_rho_h st (store (rho_h st) eqn_id
    (store_grid (rho_h st eqn_id) mol_id (max_depth_idx st)
       (with_array g (store (_array g) idx v)))).

(** The depths [max_depth, ..., min_depth + 1]. *)
Definition fine_depths (st : FASMultigrid) : list Z :=
  map (fun t => max_depth st - t) (zrange (max_depth st - min_depth st)).

Definition initializeRhoHeirarchy (st : FASMultigrid) : FASMultigrid :=
  fold_left (fun st eqn_id =>
    fold_left (fun st mol_id =>
      fold_left (fun st depth =>
        set_rho_h st (store (rho_h st) eqn_id
          (store (rho_h st eqn_id) mol_id
             (_restrictFine2coarse st (rho_h st eqn_id mol_id) depth))))
        (fine_depths st) st)
      (zrange (molecule_n st eqn_id)) st)
    (zrange (u_n st)) st.

Definition VCycle (fuel : nat) (st : FASMultigrid) : outcome unit :=
  do st <- _relaxSolution_GaussSeidel fuel st (max_depth st) (max_relax_iters st);
  let st := print st (msg_initial_residual (_getMaxResidualAllEqs st (max_depth st))) in
  let st :=
    fold_left (fun st eqn_id =>
      let st := fold_left (fun st depth => _computeCoarseRestrictions st eqn_id depth)
                  (fine_depths st) st in
      set_tmp_h st (_copyGrid (u_h st) (tmp_h st) eqn_id (min_depth st) st))
      (zrange (u_n st)) st in
  do st <- for_each
      (map (fun t => min_depth st + t) (zrange (max_depth st - min_depth st)))
      (fun coarse_depth st =>
        do st <- _relaxSolution_GaussSeidel fuel st coarse_depth (max_relax_iters st);
        let st := print st
          (msg_upward coarse_depth (_getMaxResidualAllEqs st coarse_depth)) in
        let st :=
          fold_left (fun st eqn_id =>
            set_tmp_h st (store (tmp_h st) eqn_id
              (_changeApproximateSolutionToError st (tmp_h st eqn_id)
                 (u_h st eqn_id) coarse_depth)))
            (zrange (u_n st)) st in
        let st :=
          fold_left (fun st eqn_id =>
            let '(t, u) :=
              _correctFineFromCoarseErr_Err2Appx st (tmp_h st eqn_id)
                (u_h st eqn_id) (coarse_depth + 1) in
            set_u_h (set_tmp_h st (store (tmp_h st) eqn_id t))
              (store (u_h st) eqn_id u))
            (zrange (u_n st)) st in
        Returned tt st)
      st;
  do st <- _relaxSolution_GaussSeidel fuel st (max_depth st) (max_relax_iters st);
  Returned tt
    (print st (msg_final_residual (_getMaxResidualAllEqs st (max_depth st)))).

(** The lines [VCycles] prints for variable [eqn_id].  Modelled from the
    spec: the methods [avg], [min] and [max] of [arr_t] (cosmo_types.h) are
    not part of the sources; they are the reductions of the grid. *)
Definition summary_lines (st : FASMultigrid) (eqn_id : Z) : list msg :=
  [ if _singularityExists st eqn_id (max_depth st)
    then msg_crosses_zero eqn_id else msg_stays_signed eqn_id;
    msg_stats eqn_id
      (_averageGrid (u_h st eqn_id (max_depth_idx st)))
      (_minGrid (u_h st eqn_id (max_depth_idx st)))
      (_maxGrid (u_h st eqn_id (max_depth_idx st))) ].

Definition VCycles (fuel : nat) (st : FASMultigrid) (num_cycles : Z)
    : outcome unit :=
  do st <- for_each (zrange num_cycles) (fun _ st => VCycle fuel st) st;
  do st <- _relaxSolution_GaussSeidel fuel st (max_depth st) 10;
  let st := print st
    (msg_solution_residual (_getMaxResidualAllEqs st (max_depth st))) in
  Returned tt
    (fold_left (fun st eqn_id =>
       fold_left print (summary_lines st eqn_id) st)
       (zrange (u_n st)) st).

End Solver.

(** The ceiling of [n / 2]. *)
Definition ceil_half (n : Z) : Z := (n + 1) / 2.

(** ** Notions used in the statements and proofs *)

(** How many sites of the loop over a (n_x, n_y, n_z) grid have the linear
    index [idx]. *)
Definition site_index (n_x n_y n_z : Z) (site : Z * Z * Z) : Z :=
  let '(i, j, k) := site in H_INDEX i j k n_x n_y n_z.

Definition hits (n_x n_y n_z idx : Z) : nat :=
  length (filter (fun site => site_index n_x n_y n_z site =? idx)
            (FAS_LOOP3_N n_x n_y n_z)).

(** How many times [e] occurs in [l]. *)
Definition occurrences (e : Z) (l : list Z) : nat :=
  length (filter (fun x => x =? e) l).

(** [u += w * damping_v] on the grid of equation [eqn_id], the sites being
    those of a (n_x, n_y, n_z) grid: the body of the loops over the
    equations in [_getLambda], for [w = 1.0] and [w = - 0.01]. *)
Definition axpy_step (w : R) (depth_idx n_x n_y n_z : Z) (st : FASMultigrid)
    (eqn_id : Z) : FASMultigrid :=
  let u := u_h st eqn_id depth_idx in
  let damping_v := damping_v_h st eqn_id depth_idx in
  set_u_h st (store_grid (u_h st) eqn_id depth_idx
    (with_array u
       (fold_left (fun a '(i, j, k) =>
          let idx := H_INDEX i j k n_x n_y n_z in
          store a idx (a idx + w * _array damping_v idx)%R)
          (FAS_LOOP3_N n_x n_y n_z) (_array u)))).

(** The dimension the constructor computes for depth index [depth_idx]
    when the finest dimension is [n] and [m] is the maximal depth: [n]
    halved [m - 1 - depth_idx] times by [n / 2 + n % 2]. *)
Definition level_dim (n m depth_idx : Z) : Z :=
  Nat.iter (Z.to_nat (m - 1 - depth_idx)) (fun n => Z.quot n 2 + Z.rem n 2) n.

(** The five grids of equation [eqn_id] at depth index [depth_idx]. *)
Definition grids_of (st : FASMultigrid) (eqn_id depth_idx : Z) : list arr_t :=
  [ u_h st eqn_id depth_idx; coarse_src_h st eqn_id depth_idx;
    damping_v_h st eqn_id depth_idx; jac_rhs_h st eqn_id depth_idx;
    tmp_h st eqn_id depth_idx ].

(** The grid [g] has the dimensions (n_x, n_y, n_z) and as many points. *)
Definition has_dims (n_x n_y n_z : Z) (g : arr_t) : Prop :=
  nx g = n_x /\ ny g = n_y /\ nz g = n_z /\ pts g = nx g * ny g * nz g.

(** The dimensions of the hierarchy, and those of the five grids of
    equation [eqn_id], are the constructor's at the depth indices above
    [lo]. *)
Definition levels_done {host : Host} (m lo eqn_id : Z) (st : FASMultigrid)
    : Prop :=
  forall idx, lo < idx <= m - 1 ->
    nx_h st idx = level_dim NX m idx /\
    ny_h st idx = level_dim NY m idx /\
    nz_h st idx = level_dim NZ m idx /\
    Forall (has_dims (level_dim NX m idx) (level_dim NY m idx)
              (level_dim NZ m idx)) (grids_of st eqn_id idx).

(** The sum of a list of reals. *)
Definition Rsum (l : list R) : R := fold_right Rplus 0%R l.

(** The share of its value a coarse cell gives to a fine neighbour at
    offset [a] on one axis. *)
Definition adj_weight (a : Z) : R := if a =? 0 then 1%R else (/ 2)%R.

(** The share the coarse cell [i] gives to the fine cell [x] on an axis of
    [n] coarse cells. *)
Definition axis_share (n x i : Z) : R :=
  Rsum (map (fun a => b2r ((i * 2 + a) mod (n * 2) =? x) * adj_weight a)%R
          [-1; 0; 1]).

(** [reaches fuel depth s st sz]: the loop of the smoother, started on
    [st], begins its iteration number [s] on the solver [sz] (the [s]
    iterations before it ended without [break] and without [throw]). *)
Inductive reaches {host : Host} (fuel : nat) (depth : Z)
    : nat -> FASMultigrid -> FASMultigrid -> Prop :=
| reaches_first (st : FASMultigrid) : reaches fuel depth 0 st st
| reaches_idle (s : nat) (st sz : FASMultigrid) :
    Rltb (_getMaxResidualAllEqs st depth) (relaxation_tolerance st) = false ->
    relax_scheme st = newton ->
    reaches fuel depth s st sz ->
    reaches fuel depth (S s) st sz
| reaches_step (s : nat) (st sb sc sd sz : FASMultigrid) (norm : R) :
    Rltb (_getMaxResidualAllEqs st depth) (relaxation_tolerance st) = false ->
    relax_scheme st <> newton ->
    relax_norm_rhs st (_dIdx st depth) = (norm, sb) ->
    _jacobianRelax fuel sb depth norm 1 0 = Returned true sc ->
    _getLambda sc depth norm = (true, sd) ->
    reaches fuel depth s sd sz ->
    reaches fuel depth (S s) st sz.

(** An iteration of the smoother that begins on [st] passes the tolerance
    test and runs the inner solve on [sb] with the norm [norm]. *)
Definition inner_solve_on {host : Host} (depth : Z) (st sb : FASMultigrid)
    (norm : R) : Prop :=
  Rltb (_getMaxResidualAllEqs st depth) (relaxation_tolerance st) = false /\
  relax_scheme st <> newton /\
  relax_norm_rhs st (_dIdx st depth) = (norm, sb).

(** The line search of an iteration that begins on [st] fails, leaving
    the solver [sd]. *)
Definition line_search_fails {host : Host} (fuel : nat) (depth : Z)
    (st sd : FASMultigrid) : Prop :=
  exists sb sc norm,
    inner_solve_on depth st sb norm /\
    _jacobianRelax fuel sb depth norm 1 0 = Returned true sc /\
    _getLambda sc depth norm = (false, sd).

(** The inner solve of an iteration that begins on [st] fails, leaving
    the solver [sc]. *)
Definition inner_solve_fails {host : Host} (fuel : nat) (depth : Z)
    (st sc : FASMultigrid) : Prop :=
  exists sb norm,
    inner_solve_on depth st sb norm /\
    _jacobianRelax fuel sb depth norm 1 0 = Returned false sc.

(** The solver after [n] sweeps of the inner relaxation. *)
Fixpoint sweeps {host : Host} (n : nat) (st : FASMultigrid) (depth_idx : Z)
    : FASMultigrid :=
  match n with
  | O => st
  | S n' => jacobian_sweep (sweeps n' st depth_idx) depth_idx
  end.

(** The norm the test of the loop of [_jacobianRelax] sees after [n]
    sweeps, [norm_r] being its value before the first one. *)
Definition norm_from {host : Host} (norm_r : R) (st : FASMultigrid)
    (depth_idx : Z) (n : nat) : R :=
  match n with
  | O => norm_r
  | S _ => jacobian_norm (sweeps n st depth_idx) depth_idx
  end.


(** Modelled from the spec: the dependence test of [eval_der] as the spec
    states it, "a depends on u_j (u_id == j)" for every atom type.  It is
    [der_atom] with the test of the Laplacian branch, [eqn_id == ad.u_id]
    in the source, replaced by [u_id == ad.u_id]. *)
Definition der_atom_uniform {host : Host} (st : FASMultigrid)
    (eqn_id mol_id depth_idx i j k uid : Z) (acc : R * R) (ad : atom) : R * R :=
  if type ad <=? 10 then der_atom st eqn_id mol_id depth_idx i j k uid acc ad
  else
    let vd := u_h st (u_id ad) depth_idx in
    let jac_vd := damping_v_h st uid depth_idx in
    let n := fst acc in
    let d := snd acc in
    (if uid =? u_id ad then
      let L := laplacian i j k (nx jac_vd) (ny jac_vd) (nz jac_vd) vd in
      (n * L, n * laplacian i j k (nx vd) (ny vd) (nz vd) jac_vd + d * L)
    else
      let L := laplacian i j k (nx vd) (ny vd) (nz vd) vd in
      (n * L, d * L))%R.

Definition eval_der_uniform {host : Host} (st : FASMultigrid)
    (eqn_id depth_idx i j k uid : Z) : R :=
  fold_left (fun res mol_id =>
    let acc :=
      fold_left (fun acc atom_id =>
        der_atom_uniform st eqn_id mol_id depth_idx i j k uid acc
          (atoms (eqns st eqn_id mol_id) atom_id))
        (zrange (atom_n (eqns st eqn_id mol_id)))
        (1%R, 0%R) in
    (res + snd acc)%R)
    (zrange (molecule_n st eqn_id)) 0%R.

(** ** The transfer operators on binary64 numbers

    [real_t] is [double].  The embedding above computes with exact reals.
    The two transfer operators are given here once more on binary64
    numbers, with the operations of IEEE 754 rounded to nearest, operation
    for operation and in the order of the source: they tell which
    properties of the operators rest on exact arithmetic. *)

(** A grid of binary64 numbers: [arr_t] with [real_t = double]. *)
Record arr64 : Type := mk_arr64 {
  _array64 : Z -> float;
  nx64 : Z;
  ny64 : Z;
  nz64 : Z;
  pts64 : Z
}.

Definition with_array64 (g : arr64) (a : Z -> float) : arr64 :=
  mk_arr64 a (nx64 g) (ny64 g) (nz64 g) (pts64 g).

(** [restrict_kernel] on binary64 numbers: the right-hand side of the
    assignment in [_restrictFine2coarse]. *)
Definition restrict_kernel64 (fine_grid : arr64)
    (n_fine_x n_fine_y n_fine_z : Z) (i j k : Z) : float :=
  let fi := i * 2 in
  let fj := j * 2 in
  let fk := k * 2 in
  let f := fun a b c =>
    _array64 fine_grid (H_INDEX a b c n_fine_x n_fine_y n_fine_z) in
  (0.125 * f fi fj fk
   + 0.0625 * (
       f (fi + 1)%Z fj fk +
       f fi (fj + 1)%Z fk +
       f fi fj (fk + 1)%Z +
       f (fi - 1)%Z fj fk +
       f fi (fj - 1)%Z fk +
       f fi fj (fk - 1)%Z)
   + 0.03125 * (
       f (fi + 1)%Z (fj + 1)%Z fk +
       f (fi + 1)%Z (fj - 1)%Z fk +
       f (fi - 1)%Z (fj + 1)%Z fk +
       f (fi - 1)%Z (fj - 1)%Z fk +
       f (fi + 1)%Z fj (fk + 1)%Z +
       f (fi + 1)%Z fj (fk - 1)%Z +
       f (fi - 1)%Z fj (fk + 1)%Z +
       f (fi - 1)%Z fj (fk - 1)%Z +
       f fi (fj + 1)%Z (fk + 1)%Z +
       f fi (fj + 1)%Z (fk - 1)%Z +
       f fi (fj - 1)%Z (fk + 1)%Z +
       f fi (fj - 1)%Z (fk - 1)%Z)
   + 0.015625 * (
       f (fi + 1)%Z (fj + 1)%Z (fk + 1)%Z +
       f (fi + 1)%Z (fj + 1)%Z (fk - 1)%Z +
       f (fi + 1)%Z (fj - 1)%Z (fk + 1)%Z +
       f (fi - 1)%Z (fj + 1)%Z (fk + 1)%Z +
       f (fi + 1)%Z (fj - 1)%Z (fk - 1)%Z +
       f (fi - 1)%Z (fj + 1)%Z (fk - 1)%Z +
       f (fi - 1)%Z (fj - 1)%Z (fk + 1)%Z +
       f (fi - 1)%Z (fj - 1)%Z (fk - 1)%Z))%float.

(** [_restrictFine2coarse] on a hierarchy of binary64 grids. *)
Definition _restrictFine2coarse64 (st : FASMultigrid)
    (grid_heirarchy : Z -> arr64) (fine_depth : Z) : Z -> arr64 :=
  let fine_idx := _dIdx st fine_depth in
  let coarse_idx := fine_idx - 1 in
  let n_fine_x := nx64 (grid_heirarchy fine_idx) in
  let n_fine_y := ny64 (grid_heirarchy fine_idx) in
  let n_fine_z := nz64 (grid_heirarchy fine_idx) in
  let n_coarse_x := Z.quot n_fine_x 2 in
  let n_coarse_y := Z.quot n_fine_y 2 in
  let n_coarse_z := Z.quot n_fine_z 2 in
  let fine_grid := grid_heirarchy fine_idx in
  let coarse_grid := grid_heirarchy coarse_idx in
  store grid_heirarchy coarse_idx
    (with_array64 coarse_grid
       (fold_left (fun a '(i, j, k) =>
          store a (H_INDEX i j k n_coarse_x n_coarse_y n_coarse_z)
            (restrict_kernel64 fine_grid n_fine_x n_fine_y n_fine_z i j k))
          (FAS_LOOP3_N n_coarse_x n_coarse_y n_coarse_z)
          (_array64 coarse_grid))).

Definition _zeroGrid64 (grid : arr64) : arr64 :=
  with_array64 grid
    (fold_left (fun a i => store a i 0%float) (zrange (pts64 grid))
       (_array64 grid)).

(** [std::pow] of the C++ library at the base 2.0 and an integral
    exponent: the power of two, which binary64 holds exactly (the loop of
    [_interpolateCoarse2fine] takes the exponents 1, 2 and 3). *)
Definition pow2_64 (n : Z) : float := Z.ldexp 1%float n.

(** [interpolate_cell] on binary64 numbers. *)
Definition interpolate_cell64 (n_coarse_x n_coarse_y n_coarse_z : Z)
    (n_fine_x n_fine_y n_fine_z : Z) (coarse_grid : arr64)
    (fine : Z -> float) (site : Z * Z * Z) : Z -> float :=
  let '(i, j, k) := site in
  let fi := i * 2 in
  let fj := j * 2 in
  let fk := k * 2 in
  let coarse_grid_val :=
    _array64 coarse_grid (H_INDEX i j k n_coarse_x n_coarse_y n_coarse_z) in
  fold_left (fun fine '(i_adj, j_adj, k_adj) =>
    let fine_grid_loc :=
      H_INDEX (fi + i_adj) (fj + j_adj) (fk + k_adj) n_fine_x n_fine_y n_fine_z in
    let coarse_grid_loc :=
      H_INDEX (fi + i_adj) (fj + j_adj) (fk + k_adj)
        (n_coarse_x * 2) (n_coarse_y * 2) (n_coarse_z * 2) in
    if (i_adj =? 0) && (j_adj =? 0) && (k_adj =? 0) then
      store fine fine_grid_loc (fine fine_grid_loc + coarse_grid_val)%float
    else if fine_grid_loc =? coarse_grid_loc then
      let divisor := pow2_64 (Z.abs i_adj + Z.abs j_adj + Z.abs k_adj) in
      store fine fine_grid_loc
        (fine fine_grid_loc + coarse_grid_val / divisor)%float
    else fine)
    adjacent fine.

(** [_interpolateCoarse2fine] on a hierarchy of binary64 grids. *)
Definition _interpolateCoarse2fine64 (st : FASMultigrid)
    (grid_heirarchy : Z -> arr64) (coarse_depth : Z) : Z -> arr64 :=
  let fine_idx := _dIdx st (coarse_depth + 1) in
  let coarse_idx := _dIdx st coarse_depth in
  let n_coarse_x := nx_h st coarse_idx in
  let n_coarse_y := ny_h st coarse_idx in
  let n_coarse_z := nz_h st coarse_idx in
  let n_fine_x := n_coarse_x * 2 in
  let n_fine_y := n_coarse_y * 2 in
  let n_fine_z := n_coarse_z * 2 in
  let coarse_grid := grid_heirarchy coarse_idx in
  let fine_grid := _zeroGrid64 (grid_heirarchy fine_idx) in
  store grid_heirarchy fine_idx
    (with_array64 fine_grid
       (fold_left
          (interpolate_cell64 n_coarse_x n_coarse_y n_coarse_z
             n_fine_x n_fine_y n_fine_z coarse_grid)
          (FAS_LOOP3_N n_coarse_x n_coarse_y n_coarse_z)
          (_array64 fine_grid))).

(** * Concrete solvers used in the examples *)

(** Modelled from the spec: the stencils of utils/math.h are not part of the
    sources; this host uses the central differences of order 2 on a
    periodic grid (the coefficient of the centre in the second derivative
    is 2, as [double_der_coef[2]] requires). *)
Definition axis_shift (axis : Z) (s : Z) (ijk : Z * Z * Z) : Z * Z * Z :=
  let '(i, j, k) := ijk in
  if axis =? 1 then (i + s, j, k)
  else if axis =? 2 then (i, j + s, k)
  else (i, j, k + s).

Definition at_site (g : arr_t) (n_x n_y n_z : Z) (ijk : Z * Z * Z) : R :=
  let '(i, j, k) := ijk in _array g (H_INDEX i j k n_x n_y n_z).

Definition derivative2 (len : R) (i j k n_x n_y n_z d : Z) (g : arr_t) : R :=
  let dx := (len / IZR n_x)%R in
  ((at_site g n_x n_y n_z (axis_shift d 1 (i, j, k))
    - at_site g n_x n_y n_z (axis_shift d (-1) (i, j, k))) / (2 * dx))%R.

Definition double_derivative2 (len : R) (i j k n_x n_y n_z d1 d2 : Z)
    (g : arr_t) : R :=
  let dx := (len / IZR n_x)%R in
  if d1 =? d2 then
    ((at_site g n_x n_y n_z (axis_shift d1 1 (i, j, k))
      - 2 * at_site g n_x n_y n_z (i, j, k)
      + at_site g n_x n_y n_z (axis_shift d1 (-1) (i, j, k))) / (dx * dx))%R
  else
    ((at_site g n_x n_y n_z (axis_shift d1 1 (axis_shift d2 1 (i, j, k)))
      - at_site g n_x n_y n_z (axis_shift d1 1 (axis_shift d2 (-1) (i, j, k)))
      - at_site g n_x n_y n_z (axis_shift d1 (-1) (axis_shift d2 1 (i, j, k)))
      + at_site g n_x n_y n_z (axis_shift d1 (-1) (axis_shift d2 (-1) (i, j, k))))
     / (4 * dx * dx))%R.

Definition laplacian2 (len : R) (i j k n_x n_y n_z : Z) (g : arr_t) : R :=
  (double_derivative2 len i j k n_x n_y n_z 1 1 g
   + double_derivative2 len i j k n_x n_y n_z 2 2 g
   + double_derivative2 len i j k n_x n_y n_z 3 3 g)%R.

(** A host with finest grid (n_x, n_y, n_z), unit length and order 2. *)
Definition host_of (n_x n_y n_z : Z) : Host :=
  {| NX := n_x; NY := n_y; NZ := n_z;
     H_LEN_FRAC := 1%R;
     STENCIL_ORDER := 2;
     derivative := derivative2 1%R;
     double_derivative := double_derivative2 1%R;
     laplacian := laplacian2 1%R |}.

(** A caller's finest grid holding [c] everywhere. *)
Definition const_grid (c : R) : arr_t := mk_arr (fun _ => c) 0 0 0 0.

(** One unknown on a finest grid of (n_x, n_y, n_z) sites holding [c],
    two depths, no molecule yet. *)
Definition two_level (n_x n_y n_z : Z) (c : R) : FASMultigrid :=
  FASMultigrid_new (host := host_of n_x n_y n_z) (fun _ => const_grid c)
    1 (fun _ => 0) 2 10 1e-8%R.

(** A solver of one depth and one unknown with the equation u = 0, whose
    grids have (n_x, n_y, n_z) sites: [u] holds [c] and the correction
    [damping_v] holds [v] everywhere, the other grids hold zeros. *)
Definition flat_solver (n_x n_y n_z : Z) (c v : R) : FASMultigrid :=
  let grid := fun x : R => mk_arr (fun _ => x) n_x n_y n_z (n_x * n_y * n_z) in
  mk_FAS (fun _ _ => grid c) (fun _ _ => grid 0%R) (fun _ _ => grid 0%R)
    (fun _ _ => grid 0%R) (fun _ _ => grid v) (fun _ _ _ => grid 0%R)
    1 (fun _ => 1) (fun _ => n_x) (fun _ => n_y) (fun _ => n_z)
    1e-8%R 1 0 1 0 1 10 der_type_table double_der_coef_table inexact_newton
    (fun _ _ => mk_molecule (fun _ => mk_atom 1 0 1%R) 1 1%R) [].

(** A converged solver of one depth for the equation u + rho = 0 on a
    grid of 3 x 1 x 1 sites: the solution u = (0, 1, -1) is zero at the
    first site and changes sign between the two others. *)
Definition crossing_solver : FASMultigrid :=
  let grid := fun a : Z -> R => mk_arr a 3 1 1 3 in
  let zero := grid (fun _ => 0%R) in
  mk_FAS
    (fun _ _ => grid (fun i => if i =? 1 then 1%R else if i =? 2 then (-1)%R else 0%R))
    (fun _ _ => zero) (fun _ _ => zero) (fun _ _ => zero) (fun _ _ => zero)
    (fun _ _ _ => grid (fun i => if i =? 1 then (-1)%R else if i =? 2 then 1%R else 0%R))
    1 (fun _ => 2) (fun _ => 3) (fun _ => 1) (fun _ => 1)
    1e-8%R 1 0 1 0 1 10 der_type_table double_der_coef_table inexact_newton
    (fun _ mol_id =>
       if mol_id =? 0 then mk_molecule (fun _ => mk_atom 1 0 1%R) 1 1%R
       else mk_molecule (fun _ => mk_atom 0 0 0%R) 1 1%R)
    [].

(** A solver of two depths whose grids have a single site, for two
    unknowns and the operators F_0 = F_1 = u_0 + u_1, seen at the coarse
    depth 1 where the coarse sources are 0 and 1 and u = 0: the right-hand
    sides of the Jacobian system are 0 and 1, the squared norm of the
    residual is 1, and the corrections hold [v0] and [v1]. *)
Definition coupled_pair (v0 v1 : R) : FASMultigrid :=
  let grid := fun x : R => mk_arr (fun i => if i =? 0 then x else 0%R) 1 1 1 1 in
  let pair := fun (x0 x1 : R) (e d : Z) =>
    if (e =? 0) && (d =? 0) then grid x0
    else if (e =? 1) && (d =? 0) then grid x1
    else grid 0%R in
  mk_FAS
    (fun _ _ => grid 0%R) (fun _ _ => grid 0%R) (pair 0%R 1%R)
    (pair 0%R 1%R) (pair v0 v1) (fun _ _ _ => grid 0%R)
    2 (fun _ => 2) (fun _ => 1) (fun _ => 1) (fun _ => 1)
    1e-8%R 2 1 1 0 2 10 der_type_table double_der_coef_table inexact_newton
    (fun _ mol_id => mk_molecule (fun _ => mk_atom 1 mol_id 1%R) 1 1%R)
    [].

(** The coupled system of the spec's third scenario, E1 = Lap(u_0) + u_1
    and E2 = Lap(u_1) + rho, with one depth on a grid of 3 x 1 x 1 sites,
    at u = 0, with the corrections v_0 = 0 and v_1 = (1, 0, 0). *)
Definition laplace_pair : FASMultigrid :=
  let grid := fun a : Z -> R => mk_arr a 3 1 1 3 in
  let zero := grid (fun _ => 0%R) in
  mk_FAS
    (fun _ _ => zero) (fun _ _ => zero) (fun _ _ => zero) (fun _ _ => zero)
    (fun e _ => grid (fun i => if (e =? 1) && (i =? 0) then 1%R else 0%R))
    (fun _ _ _ => zero)
    2 (fun _ => 2) (fun _ => 3) (fun _ => 1) (fun _ => 1)
    1e-8%R 1 0 1 0 1 10 der_type_table double_der_coef_table inexact_newton
    (fun eqn_id mol_id =>
       if mol_id =? 0 then mk_molecule (fun _ => mk_atom 11 eqn_id 0%R) 1 1%R
       else if eqn_id =? 0 then mk_molecule (fun _ => mk_atom 1 1 1%R) 1 (-1)%R
       else mk_molecule (fun _ => mk_atom 0 0 0%R) 1 (-1)%R)
    [].

(** The binary64 number nearest to 0.1. *)
Definition tenth : float := 0x1.999999999999ap-4%float.

(** A hierarchy of two binary64 grids, of 1 x 1 x 1 and 2 x 2 x 2 sites,
    that hold [c] everywhere. *)
Definition const_pair64 (c : float) : Z -> arr64 :=
  fun d => if d =? 1 then mk_arr64 (fun _ => c) 2 2 2 8
           else mk_arr64 (fun _ => c) 1 1 1 1.

(** * Further methods and notions *)

(** [_shiftGridVals]. *)
Definition _shiftGridVals (grid : arr_t) (shift : R) : arr_t :=
  with_array grid
    (fold_left (fun a i => store a i (a i + shift)%R) (zrange (pts grid))
       (_array grid)).

(** The solver [st] with the constant coefficient [c e m] in the molecule
    [m] of the equation [e], the atoms being kept. *)
Definition with_const_coefs (st : FASMultigrid) (c : Z -> Z -> R)
    : FASMultigrid :=
  set_eqns st (fun e m =>
    mk_molecule (atoms (eqns st e m)) (atom_n (eqns st e m)) (c e m)).

(** The accumulators of a molecule in [_evaluateIterationForJacEquation]
    and in [_evaluateDerEllipticEquation], both asked for the unknown of
    the equation: the products agree, and the split [mol_to_a + mol_to_b *
    v] is the derivative. *)
Definition split_agrees (v : R) (acc : jac_acc) (nd : R * R) : Prop :=
  non_der_val acc = fst nd /\ der_val acc = snd nd /\
  (mol_to_a acc + mol_to_b acc * v)%R = snd nd.

(** The weights of the linear interpolation on one axis at the fine
    coordinate [x]: the weight of the coarse cell [x / 2] (for [a = 0]) and
    of the next coarse cell (for [a = 1]). *)
Definition axis_weight (x a : Z) : R :=
  if x mod 2 =? 0 then (if a =? 0 then 1%R else 0%R) else (/ 2)%R.

(** The offsets to the eight coarse cells around a fine cell. *)
Definition corners : list (Z * Z * Z) :=
  [(0, 0, 0); (0, 0, 1); (0, 1, 0); (0, 1, 1);
   (1, 0, 0); (1, 0, 1); (1, 1, 0); (1, 1, 1)].


(** The solver [s] is [st] but for its corrections at the depth index
    [d]. *)
Definition correction_changed (d : Z) (st s : FASMultigrid) : Prop :=
  s = set_damping_v_h st (damping_v_h s) /\
  forall e d', d' <> d -> damping_v_h s e d' = damping_v_h st e d'.

(** An outcome that is an exception is the exception -1 of the smoother,
    thrown after its message. *)
Definition throws_the_damping_failure {A} (o : outcome A) : Prop :=
  forall c st', o = Thrown c st' ->
    c = -1 /\ exists pre, cout st' = pre ++ [msg_no_damping].

(** A solver of one depth for one unknown on a single site, with the
    equation eps + u + m u^2 = 0 of three molecules (a source, the unknown,
    and a source times the square of the unknown): the unknown holds [c],
    its correction [v], the right-hand side of the Jacobian system [r], and
    the coarse source 0. *)
Definition quadratic_site (eps m c v r : R) : FASMultigrid :=
  let grid := fun x : R => mk_arr (fun i => if i =? 0 then x else 0%R) 1 1 1 1 in
  let one := fun (x : R) (e d : Z) =>
    if (e =? 0) && (d =? 0) then grid x else grid 0%R in
  mk_FAS
    (one c) (fun _ _ => grid 0%R) (fun _ _ => grid 0%R) (one r) (one v)
    (fun _ mol_id _ => if mol_id =? 0 then grid eps else grid m)
    1 (fun _ => 3) (fun _ => 1) (fun _ => 1) (fun _ => 1)
    1e-8%R 1 0 1 0 1 10 der_type_table double_der_coef_table inexact_newton
    (fun _ mol_id =>
       if mol_id =? 0 then mk_molecule (fun _ => mk_atom 0 0 0%R) 1 1%R
       else if mol_id =? 1 then mk_molecule (fun _ => mk_atom 1 0 1%R) 1 1%R
       else mk_molecule
              (fun a => if a =? 0 then mk_atom 0 0 0%R else mk_atom 1 0 2%R) 2 1%R)
    [].

(** [build_rho].  The hierarchies of [rho_h] are allocated anew; [fresh]
    is the grid an allocation [new fas_grid_t[total_depths]] creates (the
    default constructor of [arr_t] is in cosmo_types.h). *)
Definition build_rho (fresh : arr_t) (st : FASMultigrid) : FASMultigrid :=
  let st := set_rho_h st (fun _ _ _ => fresh) in
  fold_left (fun st eqn_id =>
    let st := set_rho_h st (store (rho_h st) eqn_id (fun _ _ => fresh)) in
    fold_left (fun st i =>
      let st := set_rho_h st
        (store (rho_h st) eqn_id (store (rho_h st eqn_id) i (fun _ => fresh))) in
      fold_left (fun st depth =>
        let depth_idx := _dIdx st (max_depth st) in
        set_rho_h st (store (rho_h st) eqn_id
          (store_grid (rho_h st eqn_id) i depth_idx
             (sized (_array (arr_init (nx_h st depth_idx) (ny_h st depth_idx)
                               (nz_h st depth_idx))) st depth_idx))))
        (depths_down st) st)
      (zrange (molecule_n st eqn_id)) st)
    (zrange (u_n st)) st.

(** The solver [s] is [base] but for its sources. *)
Definition sources_changed (base s : FASMultigrid) : Prop :=
  s = set_rho_h base (rho_h s).

(** The grid [g] holds [c] at every point. *)
Definition holds (c : R) (g : arr_t) : Prop :=
  forall i, 0 <= i < pts g -> _array g i = c.

(** A solver of two depths for one unknown with one source, whose finest
    source grid, of 2 x 2 x 2 sites, holds [c]; the coarse grids have one
    site. *)
Definition two_level_source (c : R) : FASMultigrid :=
  let fine := fun x : R => mk_arr (fun _ => x) 2 2 2 8 in
  let coarse := mk_arr (fun _ => 0%R) 1 1 1 1 in
  let h := fun (x : R) (d : Z) => if d =? 1 then fine x else coarse in
  mk_FAS (fun _ => h 0%R) (fun _ => h 0%R) (fun _ => h 0%R) (fun _ => h 0%R)
    (fun _ => h 0%R) (fun _ _ => h c)
    1 (fun _ => 1) (fun d => if d =? 1 then 2 else 1)
    (fun d => if d =? 1 then 2 else 1) (fun d => if d =? 1 then 2 else 1)
    1e-8%R 2 1 1 0 2 10 der_type_table double_der_coef_table inexact_newton
    (fun _ _ => mk_molecule (fun _ => mk_atom 0 0 0%R) 1 1%R) [].

(** The restrictions of one hierarchy, from the finest depth down. *)
Definition restrict_down (st : FASMultigrid) (h : fas_heirarchy_t)
    : fas_heirarchy_t :=
  fold_left (fun h depth => _restrictFine2coarse st h depth) (fine_depths st) h.

(** The settings of the solver [s] are those of [st]: the two differ at
    most in the grids of the unknowns, of their corrections, of the
    intermediate results and of the coarse sources and right-hand sides,
    and in what has been written. *)
Definition same_setting (st s : FASMultigrid) : Prop :=
  rho_h s = rho_h st /\ u_n s = u_n st /\ molecule_n s = molecule_n st /\
  nx_h s = nx_h st /\ ny_h s = ny_h st /\ nz_h s = nz_h st /\
  relaxation_tolerance s = relaxation_tolerance st /\
  max_depth s = max_depth st /\ min_depth s = min_depth st /\
  max_relax_iters s = max_relax_iters st /\ der_type s = der_type st /\
  eqns s = eqns st.

(** The equation [e] is solved exactly at the depth index [t]: the
    operator is the source at every site. *)
Definition solved {host : Host} (s : FASMultigrid) (e t : Z) : Prop :=
  forall i j k,
    0 <= i < nx_h s t -> 0 <= j < ny_h s t -> 0 <= k < nz_h s t ->
    _evaluateEllipticEquationPt s e t i j k
    = _array (coarse_src_h s e t)
        (H_INDEX i j k (nx_h s t) (ny_h s t) (nz_h s t)).

(** A solver of two depths for one unknown and the equation u + rho = 0,
    on a finest grid of 2 x 2 x 2 sites where the source holds [c] and the
    unknown [- c]; the coarse grids have one site. *)
Definition two_level_solved (c : R) : FASMultigrid :=
  let fine := fun x : R => mk_arr (fun _ => x) 2 2 2 8 in
  let coarse := mk_arr (fun _ => 0%R) 1 1 1 1 in
  let h := fun (x : R) (d : Z) => if d =? 1 then fine x else coarse in
  mk_FAS (fun _ => h (- c)%R) (fun _ => h 0%R) (fun _ => h 0%R)
    (fun _ => h 0%R) (fun _ => h 0%R) (fun _ _ => h c)
    1 (fun _ => 2) (fun d => if d =? 1 then 2 else 1)
    (fun d => if d =? 1 then 2 else 1) (fun d => if d =? 1 then 2 else 1)
    1e-8%R 2 1 1 0 2 10 der_type_table double_der_coef_table inexact_newton
    (fun _ mol_id =>
       if mol_id =? 0 then mk_molecule (fun _ => mk_atom 1 0 1%R) 1 1%R
       else mk_molecule (fun _ => mk_atom 0 0 0%R) 1 1%R) [].

(** * Properties *)

(** ** Loops and stores *)

Lemma In_zrange (n x : Z) : In x (zrange n) <-> 0 <= x < n.
Proof.
  unfold zrange. rewrite in_map_iff. split.
  - intros [m [<- Hm]]. apply in_seq in Hm. lia.
  - intros H. exists (Z.to_nat x). split; [lia|]. apply in_seq. lia.
Qed.

Lemma In_FAS_LOOP3_N (n_x n_y n_z i j k : Z) :
  In (i, j, k) (FAS_LOOP3_N n_x n_y n_z) <->
  0 <= i < n_x /\ 0 <= j < n_y /\ 0 <= k < n_z.
Proof.
  unfold FAS_LOOP3_N. rewrite in_flat_map. split.
  - intros [i' [Hi H]]. apply in_flat_map in H. destruct H as [j' [Hj H]].
    apply in_map_iff in H. destruct H as [k' [E Hk]]. inversion E; subst.
    rewrite In_zrange in Hi, Hj, Hk. auto.
  - intros (Hi & Hj & Hk). exists i. split; [now apply In_zrange|].
    apply in_flat_map. exists j. split; [now apply In_zrange|].
    apply in_map_iff. exists k. split; [reflexivity|now apply In_zrange].
Qed.

Lemma store_same {A} (a : Z -> A) i v : store a i v i = v.
Proof. unfold store. now rewrite Z.eqb_refl. Qed.

Lemma store_other {A} (a : Z -> A) i j v : j <> i -> store a i v j = a j.
Proof. unfold store. intros H. apply Z.eqb_neq in H. now rewrite H. Qed.

(** A loop none of whose iterations changes the entry [idx] leaves it. *)
Lemma fold_frame {T} (g : (Z -> R) -> T -> Z -> R) (l : list T) (idx : Z) :
  (forall a t, In t l -> g a t idx = a idx) ->
  forall a, fold_left g l a idx = a idx.
Proof.
  induction l as [|t l IH]; intros H a; simpl; [reflexivity|].
  rewrite IH by (intros; apply H; now right). apply H. now left.
Qed.

(** A loop whose iterations write [c] or nothing at [idx], and one of
    which writes, ends with [c] at [idx]. *)
Lemma fold_writes_const {T} (g : (Z -> R) -> T -> Z -> R) (l : list T)
    (idx : Z) (c : R) :
  (forall a t, In t l -> g a t idx = c \/ g a t idx = a idx) ->
  forall a, (a idx = c \/ exists t, In t l /\ forall a', g a' t idx = c) ->
  fold_left g l a idx = c.
Proof.
  induction l as [|t l IH]; intros H a Hw; simpl.
  - destruct Hw as [Hw|[t [[] _]]]. exact Hw.
  - apply IH; [intros; apply H; now right|].
    destruct Hw as [Hw|[t' [[<-|Hin] Ht']]].
    + left. destruct (H a t (or_introl eq_refl)) as [E|E]; congruence.
    + left. apply Ht'.
    + right. exists t'. auto.
Qed.

Lemma H_INDEX_range (i j k n_x n_y n_z : Z) :
  0 < n_x -> 0 < n_y -> 0 < n_z ->
  0 <= H_INDEX i j k n_x n_y n_z < n_x * n_y * n_z.
Proof.
  intros Hx Hy Hz. unfold H_INDEX.
  pose proof (Z.mod_pos_bound i n_x Hx).
  pose proof (Z.mod_pos_bound j n_y Hy).
  pose proof (Z.mod_pos_bound k n_z Hz).
  assert (0 <= (i mod n_x) * (n_y * n_z) <= (n_x - 1) * (n_y * n_z))
    by (split; [apply Z.mul_nonneg_nonneg|apply Z.mul_le_mono_nonneg_r]; nia).
  assert (0 <= (j mod n_y) * n_z <= (n_y - 1) * n_z)
    by (split; [apply Z.mul_nonneg_nonneg|apply Z.mul_le_mono_nonneg_r]; lia).
  rewrite <- (Z.mul_assoc (i mod n_x)). nia.
Qed.

Lemma H_INDEX_in_range (i j k n_x n_y n_z : Z) :
  0 <= i < n_x -> 0 <= j < n_y -> 0 <= k < n_z ->
  H_INDEX i j k n_x n_y n_z = i * n_y * n_z + j * n_z + k.
Proof.
  intros Hi Hj Hk. unfold H_INDEX.
  now rewrite !Z.mod_small by lia.
Qed.

(** ** Restriction *)

Lemma restrict_kernel_const (fine_grid : arr_t) (n_x n_y n_z i j k : Z) (c : R) :
  0 < n_x -> 0 < n_y -> 0 < n_z ->
  (forall idx, 0 <= idx < n_x * n_y * n_z -> _array fine_grid idx = c) ->
  restrict_kernel fine_grid n_x n_y n_z i j k = c.
Proof.
  intros Hx Hy Hz Hc. unfold restrict_kernel.
  rewrite !Hc by (apply H_INDEX_range; assumption). lra.
Qed.

Lemma quot2_pos (n i : Z) : 0 <= i < Z.quot n 2 -> 0 < n.
Proof.
  intros H. destruct (Z_lt_le_dec 0 n); [assumption|].
  assert (Z.quot n 2 <= 0) by (apply Z.quot_le_upper_bound; lia). lia.
Qed.

(** Every coarse cell restriction computes from a constant fine grid
    receives the constant. *)
Lemma restrict_writes_constant (st : FASMultigrid)
    (grid_heirarchy : fas_heirarchy_t) (fine_depth : Z) (c : R) (i j k : Z) :
  let fine := grid_heirarchy (_dIdx st fine_depth) in
  (forall idx, 0 <= idx < nx fine * ny fine * nz fine -> _array fine idx = c) ->
  0 <= i < Z.quot (nx fine) 2 ->
  0 <= j < Z.quot (ny fine) 2 ->
  0 <= k < Z.quot (nz fine) 2 ->
  _array (_restrictFine2coarse st grid_heirarchy fine_depth
            (_dIdx st fine_depth - 1))
    (H_INDEX i j k (Z.quot (nx fine) 2) (Z.quot (ny fine) 2)
       (Z.quot (nz fine) 2)) = c.
Proof.
  intros fine Hc Hi Hj Hk. unfold _restrictFine2coarse.
  rewrite store_same. simpl. fold fine.
  pose proof (quot2_pos _ _ Hi) as Hx.
  pose proof (quot2_pos _ _ Hj) as Hy.
  pose proof (quot2_pos _ _ Hk) as Hz.
  apply fold_writes_const.
  - intros a [[i' j'] k'] _.
    destruct (Z.eq_dec
      (H_INDEX i j k (Z.quot (nx fine) 2) (Z.quot (ny fine) 2) (Z.quot (nz fine) 2))
      (H_INDEX i' j' k' (Z.quot (nx fine) 2) (Z.quot (ny fine) 2) (Z.quot (nz fine) 2)))
      as [E|E].
    + left. rewrite E, store_same. now apply restrict_kernel_const.
    + right. now apply store_other.
  - intros. right. exists (i, j, k). split; [now apply In_FAS_LOOP3_N|].
    intros a'. rewrite store_same. now apply restrict_kernel_const.
Qed.

(** Restriction leaves every entry of the coarse array that is not among
    the first (nx/2)*(ny/2)*(nz/2). *)
Lemma restrict_frame (st : FASMultigrid) (grid_heirarchy : fas_heirarchy_t)
    (fine_depth idx : Z) :
  let fine := grid_heirarchy (_dIdx st fine_depth) in
  ~ 0 <= idx < Z.quot (nx fine) 2 * Z.quot (ny fine) 2 * Z.quot (nz fine) 2 ->
  _array (_restrictFine2coarse st grid_heirarchy fine_depth
            (_dIdx st fine_depth - 1)) idx
  = _array (grid_heirarchy (_dIdx st fine_depth - 1)) idx.
Proof.
  intros fine Hout. unfold _restrictFine2coarse.
  rewrite store_same. simpl. fold fine.
  apply fold_frame. intros a [[i j] k] Hin.
  apply In_FAS_LOOP3_N in Hin. destruct Hin as (Hi & Hj & Hk).
  apply store_other. intros ->. apply Hout.
  apply H_INDEX_range; lia.
Qed.

Lemma ceil_half_spec (n c : Z) : c = ceil_half n <-> 2 * c - 2 < n <= 2 * c.
Proof.
  unfold ceil_half. split.
  - intros ->. pose proof (Z.div_mod (n + 1) 2 ltac:(lia)).
    pose proof (Z.mod_pos_bound (n + 1) 2 ltac:(lia)). lia.
  - intros H. apply Z.div_unique with (r := n + 1 - 2 * c); lia.
Qed.

(** C4, as stated, fails: the claim puts no condition on the arithmetic,
    and in binary64 the weighted sums are rounded.  On a fine grid of
    2 x 2 x 2 sites that holds the number nearest to 0.1 everywhere, the
    coarse cell receives the number just below it. *)
Lemma restriction_of_constant_rounds :
  let st := two_level 2 2 2 0%R in
  let fine := const_pair64 tenth (_dIdx st 2) in
  let coarse := _restrictFine2coarse64 st (const_pair64 tenth) 2 (_dIdx st 2 - 1) in
  (nx64 fine, ny64 fine, nz64 fine) = (2, 2, 2) /\
  _array64 fine = (fun _ => tenth) /\
  _array64 coarse (H_INDEX 0 0 0 1 1 1) = 0x1.9999999999999p-4%float /\
  PrimFloat.ltb (_array64 coarse (H_INDEX 0 0 0 1 1 1)) tenth = true.
Proof. repeat split. Qed.

(** C4, amended.  In exact arithmetic, restriction of a fine grid that holds
    the constant [c] gives [c] to every coarse cell it computes: the cells
    (i,j,k) below the halved fine dimensions, the 27 weights summing to 1. *)
Theorem restriction_of_constant (st : FASMultigrid)
    (grid_heirarchy : fas_heirarchy_t) (fine_depth : Z) (c : R) (i j k : Z) :
  let fine := grid_heirarchy (_dIdx st fine_depth) in
  (forall idx, 0 <= idx < nx fine * ny fine * nz fine -> _array fine idx = c) ->
  0 <= i < Z.quot (nx fine) 2 ->
  0 <= j < Z.quot (ny fine) 2 ->
  0 <= k < Z.quot (nz fine) 2 ->
  _array (_restrictFine2coarse st grid_heirarchy fine_depth
            (_dIdx st fine_depth - 1))
    (H_INDEX i j k (Z.quot (nx fine) 2) (Z.quot (ny fine) 2)
       (Z.quot (nz fine) 2)) = c.
Proof. exact (restrict_writes_constant st grid_heirarchy fine_depth c i j k). Qed.

Lemma restriction_of_constant_witness :
  let st := two_level 2 2 2 7%R in
  _array (_restrictFine2coarse st (u_h st 0) 2 0) 0 = 7%R.
Proof.
  intros st.
  apply (restriction_of_constant st (u_h st 0) 2 7%R 0 0 0).
  - intros idx _. reflexivity.
  - change (0 <= 0 < 1). lia.
  - change (0 <= 0 < 1). lia.
  - change (0 <= 0 < 1). lia.
Defined.

(** C10, as stated, fails on the y and z axes.  With fine dimensions
    (2, 4, 3) the coarse grid of the hierarchy is (1, 2, 2); restriction
    loops over (1, 2, 1) cells with these numbers as strides, and its
    second write lands on the coarse cell (0, 0, 1), the one with the
    maximal index on the odd z axis.  With fine dimensions (4, 3, 2) the
    coarse grid is (2, 2, 1); restriction loops over (2, 1, 1) cells, and
    its second write lands on the coarse cell (0, 1, 0), the one with the
    maximal index on the odd y axis. *)
Lemma restriction_overwrites_last_cell :
  (let st := two_level 2 4 3 1%R in
   let h := u_h st 0 in
   let h' := _restrictFine2coarse st h 2 in
   nz (h 1) = 3 /\
   (nx (h 0), ny (h 0), nz (h 0)) = (1, 2, ceil_half 3) /\
   _array (h 0) (H_INDEX 0 0 (nz (h 0) - 1) (nx (h 0)) (ny (h 0)) (nz (h 0))) = 0%R /\
   _array (h' 0) (H_INDEX 0 0 (nz (h 0) - 1) (nx (h 0)) (ny (h 0)) (nz (h 0))) = 1%R) /\
  (let st := two_level 4 3 2 1%R in
   let h := u_h st 0 in
   let h' := _restrictFine2coarse st h 2 in
   ny (h 1) = 3 /\
   (nx (h 0), ny (h 0), nz (h 0)) = (2, ceil_half 3, 1) /\
   _array (h 0) (H_INDEX 0 (ny (h 0) - 1) 0 (nx (h 0)) (ny (h 0)) (nz (h 0))) = 0%R /\
   _array (h' 0) (H_INDEX 0 (ny (h 0) - 1) 0 (nx (h 0)) (ny (h 0)) (nz (h 0))) = 1%R).
Proof.
  split.
  - intros st h h'. repeat split.
    apply (restrict_writes_constant st h 2 1%R 0 1 0).
    + intros idx _. reflexivity.
    + change (0 <= 0 < 1). lia.
    + change (0 <= 1 < 2). lia.
    + change (0 <= 0 < 1). lia.
  - intros st h h'. repeat split.
    apply (restrict_writes_constant st h 2 1%R 1 0 0).
    + intros idx _. reflexivity.
    + change (0 <= 1 < 2). lia.
    + change (0 <= 0 < 1). lia.
    + change (0 <= 0 < 1). lia.
Qed.

(** C10, amended.  Restriction writes only the first
    (nx/2)*(ny/2)*(nz/2) entries of the coarse array (the halved fine
    dimensions, rounded down, are its loop bounds and its strides) and
    leaves every other entry.  When the fine x dimension is odd, the
    coarse grid of the hierarchy has one more cell on x than restriction
    counts, and every cell with the maximal x index is left unchanged,
    whatever the parities of the y and z dimensions. *)
Theorem restriction_leaves_last_x_plane (st : FASMultigrid)
    (grid_heirarchy : fas_heirarchy_t) (fine_depth : Z) :
  let fine := grid_heirarchy (_dIdx st fine_depth) in
  let coarse := grid_heirarchy (_dIdx st fine_depth - 1) in
  let coarse' := _restrictFine2coarse st grid_heirarchy fine_depth
                   (_dIdx st fine_depth - 1) in
  (forall idx,
     ~ 0 <= idx < Z.quot (nx fine) 2 * Z.quot (ny fine) 2 * Z.quot (nz fine) 2 ->
     _array coarse' idx = _array coarse idx) /\
  (0 < nx fine -> 0 < ny fine -> 0 < nz fine ->
   Z.odd (nx fine) = true ->
   nx coarse = ceil_half (nx fine) ->
   ny coarse = ceil_half (ny fine) ->
   nz coarse = ceil_half (nz fine) ->
   forall j k, 0 <= j < ny coarse -> 0 <= k < nz coarse ->
     _array coarse'
       (H_INDEX (nx coarse - 1) j k (nx coarse) (ny coarse) (nz coarse))
     = _array coarse
         (H_INDEX (nx coarse - 1) j k (nx coarse) (ny coarse) (nz coarse))).
Proof.
  intros fine coarse coarse'.
  split; [intros idx; apply restrict_frame|].
  intros Hx Hy Hz Ox Cx Cy Cz j k Hj Hk.
  apply restrict_frame. fold fine.
  apply Z.odd_spec in Ox. destruct Ox as [a Ha].
  assert (Qx : Z.quot (nx fine) 2 = a)
    by (rewrite Z.quot_div_nonneg by lia; symmetry;
        apply Z.div_unique with (r := 1); lia).
  assert (Cx' : nx coarse = a + 1) by (rewrite Cx; symmetry; apply ceil_half_spec; lia).
  pose proof (proj1 (ceil_half_spec (ny fine) (ny coarse)) Cy) as By.
  pose proof (proj1 (ceil_half_spec (nz fine) (nz coarse)) Cz) as Bz.
  assert (Qy : 0 <= Z.quot (ny fine) 2 <= ny coarse).
  { rewrite Z.quot_div_nonneg by lia. split; [apply Z.div_pos; lia|].
    apply Z.div_le_upper_bound; lia. }
  assert (Qz : 0 <= Z.quot (nz fine) 2 <= nz coarse).
  { rewrite Z.quot_div_nonneg by lia. split; [apply Z.div_pos; lia|].
    apply Z.div_le_upper_bound; lia. }
  rewrite Qx, Cx'. replace (a + 1 - 1) with a by lia.
  rewrite H_INDEX_in_range by lia.
  set (qy := Z.quot (ny fine) 2) in *. set (qz := Z.quot (nz fine) 2) in *.
  assert (M : qy * qz <= ny coarse * nz coarse)
    by (apply Z.mul_le_mono_nonneg; lia).
  assert (A : a * (qy * qz) <= a * (ny coarse * nz coarse))
    by (apply Z.mul_le_mono_nonneg_l; lia).
  assert (0 <= j * nz coarse) by (apply Z.mul_nonneg_nonneg; lia).
  lia.
Qed.

Lemma restriction_leaves_last_x_plane_witness :
  let st := two_level 3 3 2 1%R in
  let h := u_h st 0 in
  _array (_restrictFine2coarse st h 2 0) (H_INDEX 1 1 0 2 2 1)
  = _array (h 0) (H_INDEX 1 1 0 2 2 1).
Proof.
  intros st h.
  refine (proj2 (restriction_leaves_last_x_plane st h 2) _ _ _ _ _ _ _ 1 0 _ _);
    try reflexivity; change (0 <= 1 < 2) || change (0 <= 0 < 1); lia.
Defined.

(** ** The evaluator does not read the correction *)

(** C7. The pointwise evaluator is a function of the solver that reads the
    u and rho hierarchies, the equations and the dimensions only: two
    solvers that agree on these return the same F_e at every depth and
    site, whatever their [damping_v] (and [jac_rhs], [tmp], [coarse_src])
    hold. *)
Theorem evaluator_independent_of_damping_v {host : Host}
    (st1 st2 : FASMultigrid) (eqn_id depth_idx i j k : Z) :
  u_h st1 = u_h st2 ->
  rho_h st1 = rho_h st2 ->
  eqns st1 = eqns st2 ->
  molecule_n st1 = molecule_n st2 ->
  nx_h st1 = nx_h st2 -> ny_h st1 = ny_h st2 -> nz_h st1 = nz_h st2 ->
  der_type st1 = der_type st2 ->
  _evaluateEllipticEquationPt st1 eqn_id depth_idx i j k
  = _evaluateEllipticEquationPt st2 eqn_id depth_idx i j k.
Proof.
  intros Hu Hr He Hm Hx Hy Hz Hd. unfold _evaluateEllipticEquationPt.
  now rewrite Hu, Hr, He, Hm, Hx, Hy, Hz, Hd.
Qed.

Lemma evaluator_independent_of_damping_v_witness :
  _evaluateEllipticEquationPt (host := host_of 2 2 2) (flat_solver 2 2 2 3 0) 0 0 0 0 0
  = _evaluateEllipticEquationPt (host := host_of 2 2 2) (flat_solver 2 2 2 3 5) 0 0 0 0 0.
Proof.
  apply (evaluator_independent_of_damping_v (host := host_of 2 2 2)
           (flat_solver 2 2 2 3 0) (flat_solver 2 2 2 3 5));
    reflexivity.
Defined.
(** ** The line search *)

Lemma fold_left_ext {A B} (f g : A -> B -> A) (l : list B) :
  (forall a t, f a t = g a t) -> forall a, fold_left f l a = fold_left g l a.
Proof.
  intros H. induction l as [|t l IH]; intros a; simpl; [reflexivity|].
  now rewrite H, IH.
Qed.

(** A loop of [a[p t] += w * v[p t]] adds [w * v[idx]] to the entry [idx]
    once for every element the map [p] sends to [idx]. *)
Lemma fold_axpy {T} (p : T -> Z) (w : R) (v : Z -> R) (l : list T) (idx : Z) :
  forall a,
    fold_left (fun a t => store a (p t) (a (p t) + w * v (p t))%R) l a idx
    = (a idx + INR (length (filter (fun t => p t =? idx) l)) * (w * v idx))%R.
Proof.
  induction l as [|t l IH]; intros a.
  - simpl. lra.
  - cbn [fold_left filter]. rewrite IH.
    destruct (Z.eqb_spec (p t) idx) as [E|E].
    + rewrite <- E at 1. rewrite store_same. cbn [length]. rewrite S_INR, E. lra.
    + rewrite store_other by congruence. lra.
Qed.

Lemma axpy_step_u (w : R) (depth_idx n_x n_y n_z : Z) (st : FASMultigrid)
    (x e idx : Z) :
  _array (u_h (axpy_step w depth_idx n_x n_y n_z st x) e depth_idx) idx
  = (_array (u_h st e depth_idx) idx
     + (if x =? e then 1 else 0)
       * (INR (hits n_x n_y n_z idx)
          * (w * _array (damping_v_h st e depth_idx) idx)))%R.
Proof.
  unfold axpy_step, store_grid. cbn [u_h set_u_h].
  destruct (Z.eqb_spec x e) as [E|E].
  - subst x. rewrite !store_same. cbn [_array with_array].
    rewrite (fold_left_ext _
      (fun a t => store a (site_index n_x n_y n_z t)
         (a (site_index n_x n_y n_z t)
          + w * _array (damping_v_h st e depth_idx) (site_index n_x n_y n_z t))%R))
      by (intros a [[i j] k]; reflexivity).
    rewrite fold_axpy. unfold hits. lra.
  - rewrite store_other by congruence. lra.
Qed.

(** The fields a loop of [axpy_step] keeps, and what it does to [u]. *)
Lemma axpy_steps (w : R) (depth_idx n_x n_y n_z : Z) (l : list Z)
    (st : FASMultigrid) :
  let st' := fold_left (axpy_step w depth_idx n_x n_y n_z) l st in
  damping_v_h st' = damping_v_h st /\
  nx_h st' = nx_h st /\ ny_h st' = ny_h st /\ nz_h st' = nz_h st /\
  u_n st' = u_n st /\
  (forall e d, d <> depth_idx -> u_h st' e d = u_h st e d) /\
  (forall e idx,
     _array (u_h st' e depth_idx) idx
     = (_array (u_h st e depth_idx) idx
        + INR (occurrences e l)
          * (INR (hits n_x n_y n_z idx)
             * (w * _array (damping_v_h st e depth_idx) idx)))%R).
Proof.
  revert st. induction l as [|x l IH]; intros st; cbn [fold_left].
  - repeat split; intros; try reflexivity. unfold occurrences. simpl. lra.
  - specialize (IH (axpy_step w depth_idx n_x n_y n_z st x)).
    cbv zeta in IH |- *.
    destruct IH as (Hv & Hx & Hy & Hz & Hn & Hd & Hu).
    repeat split; try assumption.
    + intros e d Hne. rewrite Hd by assumption.
      unfold axpy_step, store_grid, store. cbn [u_h set_u_h].
      destruct (Z.eqb_spec e x) as [->|]; [|reflexivity].
      apply Z.eqb_neq in Hne. now rewrite Hne.
    + intros e idx. rewrite Hu, axpy_step_u.
      change (damping_v_h (axpy_step w depth_idx n_x n_y n_z st x))
        with (damping_v_h st).
      unfold occurrences. cbn [filter].
      destruct (x =? e); cbn [length]; rewrite ?S_INR; lra.
Qed.

Section LineSearch.

Context {host : Host}.

Lemma lambda_unit_step_axpy (st : FASMultigrid) (depth_idx : Z) :
  lambda_unit_step st depth_idx
  = fold_left (axpy_step 1.0 depth_idx (nx_h st depth_idx) (ny_h st depth_idx)
                 (nz_h st depth_idx)) (zrange (u_n st)) st.
Proof. reflexivity. Qed.

Lemma lambda_roll_back_axpy (st : FASMultigrid) (depth_idx : Z) :
  lambda_roll_back st depth_idx
  = fold_left (axpy_step (- 0.01) depth_idx (nx_h st depth_idx)
                 (ny_h st depth_idx) (nz_h st depth_idx)) (zrange (u_n st)) st.
Proof.
  unfold lambda_roll_back. apply fold_left_ext. intros s e.
  unfold axpy_step. do 3 f_equal. apply fold_left_ext.
  intros a [[i j] k]. cbv zeta. f_equal. lra.
Qed.

(** After [s] trials that all fail, [u] has moved by [s] roll backs. *)
Lemma lambda_trials_fail (s : nat) (depth_idx : Z) (norm : R) :
  forall st st',
    lambda_trials s st depth_idx norm = (false, st') ->
    damping_v_h st' = damping_v_h st /\
    nx_h st' = nx_h st /\ ny_h st' = ny_h st /\ nz_h st' = nz_h st /\
    u_n st' = u_n st /\
    (forall e d, d <> depth_idx -> u_h st' e d = u_h st e d) /\
    (forall e idx,
       _array (u_h st' e depth_idx) idx
       = (_array (u_h st e depth_idx) idx
          + INR s
            * (INR (occurrences e (zrange (u_n st)))
               * (INR (hits (nx_h st depth_idx) (ny_h st depth_idx)
                         (nz_h st depth_idx) idx)
                  * (- 0.01 * _array (damping_v_h st e depth_idx) idx))))%R).
Proof.
  induction s as [|s IH]; intros st st' H.
  - simpl in H. inversion H; subst.
    repeat split; intros; try reflexivity. simpl. lra.
  - cbn [lambda_trials] in H.
    destruct (Rle_dec (residual_norm st depth_idx) norm); [discriminate|].
    apply IH in H. rewrite lambda_roll_back_axpy in H.
    destruct (axpy_steps (- 0.01) depth_idx (nx_h st depth_idx)
                (ny_h st depth_idx) (nz_h st depth_idx) (zrange (u_n st)) st)
      as (Hv & Hx & Hy & Hz & Hn & Hd & Hu).
    destruct H as (Hv' & Hx' & Hy' & Hz' & Hn' & Hd' & Hu').
    rewrite Hv, Hx, Hy, Hz, Hn in *.
    repeat split; try assumption.
    + intros e d Hne. now rewrite Hd', Hd.
    + intros e idx. rewrite Hu', Hu, S_INR. lra.
Qed.

(** C9. A failed line search is atomic on u: when [_getLambda] returns
    false, every entry of every u grid holds the value it had on entry (in
    exact arithmetic the unit step and the hundred roll backs of one
    hundredth cancel). *)
Theorem line_search_failure_restores_u (st st' : FASMultigrid)
    (depth : Z) (norm : R) :
  _getLambda st depth norm = (false, st') ->
  forall eqn_id depth_idx idx,
    _array (u_h st' eqn_id depth_idx) idx = _array (u_h st eqn_id depth_idx) idx.
Proof.
  unfold _getLambda. intros H e d idx.
  apply lambda_trials_fail in H. rewrite lambda_unit_step_axpy in H.
  destruct (axpy_steps 1.0 (_dIdx st depth) (nx_h st (_dIdx st depth))
              (ny_h st (_dIdx st depth)) (nz_h st (_dIdx st depth))
              (zrange (u_n st)) st)
    as (Hv & Hx & Hy & Hz & Hn & Hd & Hu).
  destruct H as (_ & _ & _ & _ & _ & Hd' & Hu').
  rewrite Hv, Hx, Hy, Hz, Hn in *.
  destruct (Z.eq_dec d (_dIdx st depth)) as [->|Hne].
  - rewrite Hu', Hu. rewrite (INR_IZR_INZ 100).
    change (Z.of_nat 100) with 100. lra.
  - now rewrite Hd', Hd.
Qed.

Lemma residual_norm_nonneg (st : FASMultigrid) (depth_idx : Z) :
  (0 <= residual_norm st depth_idx)%R.
Proof.
  unfold residual_norm.
  assert (G : forall (l : list Z) (f : R -> Z -> R) a,
             (forall x y, 0 <= x -> 0 <= f x y)%R -> (0 <= a)%R ->
             (0 <= fold_left f l a)%R).
  { induction l; intros; simpl; auto. }
  apply G; [|lra]. intros x e Hx.
  assert (G3 : forall (l : list (Z * Z * Z)) (f : R -> Z * Z * Z -> R) a,
             (forall x y, 0 <= x -> 0 <= f x y)%R -> (0 <= a)%R ->
             (0 <= fold_left f l a)%R).
  { induction l; intros; simpl; auto. }
  apply G3; [|assumption]. intros y [[i j] k] Hy. cbv zeta.
  apply Rplus_le_le_0_compat; [assumption|]. exact (Rle_0_sqr _).
Qed.

(** A line search asked for a negative norm fails. *)
Lemma lambda_trials_negative (s : nat) (depth_idx : Z) (norm : R) :
  (norm < 0)%R ->
  forall st, fst (lambda_trials s st depth_idx norm) = false.
Proof.
  intros Hn. induction s as [|s IH]; intros st; [reflexivity|].
  cbn [lambda_trials].
  destruct (Rle_dec (residual_norm st depth_idx) norm) as [H|H].
  - pose proof (residual_norm_nonneg st depth_idx). lra.
  - apply IH.
Qed.

End LineSearch.

Lemma line_search_failure_restores_u_witness :
  let st := flat_solver 2 2 2 3 5 in
  _array (u_h (snd (_getLambda (host := host_of 2 2 2) st 1 (-1))) 0 0) 7
  = _array (u_h st 0 0) 7.
Proof.
  intros st.
  apply (line_search_failure_restores_u (host := host_of 2 2 2) st
           (snd (_getLambda (host := host_of 2 2 2) st 1 (-1))) 1 (-1)).
  rewrite (surjective_pairing (_getLambda st 1 (-1))) at 1.
  f_equal. unfold _getLambda. apply lambda_trials_negative. lra.
Defined.
(** ** The constructor *)

Lemma fold_left_map {A B C} (f : A -> B -> A) (h : C -> B) (l : list C) :
  forall a, fold_left f (map h l) a = fold_left (fun a t => f a (h t)) l a.
Proof. induction l; intros; simpl; auto. Qed.

Lemma zrange_succ (n : Z) : 0 <= n -> zrange (n + 1) = zrange n ++ [n].
Proof.
  intros H. unfold zrange.
  replace (Z.to_nat (n + 1)) with (S (Z.to_nat n)) by lia.
  rewrite seq_S, map_app. simpl. now rewrite Z2Nat.id.
Qed.

(** Induction over a counting loop. *)
Lemma fold_zrange_ind {St} (f : St -> Z -> St) (P : Z -> St -> Prop) (n : Z)
    (s0 : St) :
  0 <= n -> P 0 s0 ->
  (forall t s, 0 <= t < n -> P t s -> P (t + 1) (f s t)) ->
  P n (fold_left f (zrange n) s0).
Proof.
  intros Hn H0 Hstep.
  assert (G : forall m : nat, (Z.of_nat m <= n) ->
            P (Z.of_nat m) (fold_left f (zrange (Z.of_nat m)) s0)).
  { induction m as [|m IH]; intros Hm.
    - exact H0.
    - replace (Z.of_nat (S m)) with (Z.of_nat m + 1) by lia.
      rewrite zrange_succ by lia. rewrite fold_left_app. simpl.
      apply Hstep; [lia|]. apply IH. lia. }
  specialize (G (Z.to_nat n)). rewrite Z2Nat.id in G by assumption.
  apply G. lia.
Qed.

Lemma half_up_ceil (n : Z) : 0 <= n -> Z.quot n 2 + Z.rem n 2 = ceil_half n.
Proof.
  intros H. rewrite Z.quot_div_nonneg, Z.rem_mod_nonneg by lia.
  apply ceil_half_spec.
  pose proof (Z.div_mod n 2 ltac:(lia)).
  pose proof (Z.mod_pos_bound n 2 ltac:(lia)). lia.
Qed.

Lemma level_dim_top (n m : Z) : level_dim n m (m - 1) = n.
Proof. unfold level_dim. replace (m - 1 - (m - 1)) with 0 by lia. reflexivity. Qed.

Lemma level_dim_step (n m idx : Z) :
  idx < m - 1 ->
  level_dim n m idx
  = Z.quot (level_dim n m (idx + 1)) 2 + Z.rem (level_dim n m (idx + 1)) 2.
Proof.
  intros H. unfold level_dim.
  replace (Z.to_nat (m - 1 - idx)) with (S (Z.to_nat (m - 1 - (idx + 1)))) by lia.
  reflexivity.
Qed.

Lemma level_dim_nonneg (n m idx : Z) : 0 <= n -> 0 <= level_dim n m idx.
Proof.
  intros H. unfold level_dim.
  induction (Z.to_nat (m - 1 - idx)) as [|k IH]; simpl; [assumption|].
  rewrite half_up_ceil by assumption.
  unfold ceil_half. apply Z.div_pos; lia.
Qed.

Ltac splits := repeat match goal with |- _ /\ _ => split end.

Section Constructor.

Context {host : Host}.

(** One iteration of the loop over the depths. *)
Lemma ctor_depth_spec (u_in : Z -> arr_t) (e : Z) (st : FASMultigrid)
    (depth m : Z) :
  min_depth st = 1 -> max_depth st = m ->
  let st' := ctor_depth u_in e st depth in
  let idx := depth - 1 in
  let X := if idx =? m - 1 then NX
           else Z.quot (nx_h st (idx + 1)) 2 + Z.rem (nx_h st (idx + 1)) 2 in
  let Y := if idx =? m - 1 then NY
           else Z.quot (ny_h st (idx + 1)) 2 + Z.rem (ny_h st (idx + 1)) 2 in
  let Z' := if idx =? m - 1 then NZ
           else Z.quot (nz_h st (idx + 1)) 2 + Z.rem (nz_h st (idx + 1)) 2 in
  min_depth st' = 1 /\ max_depth st' = m /\ u_n st' = u_n st /\
  molecule_n st' = molecule_n st /\ rho_h st' = rho_h st /\
  nx_h st' = store (nx_h st) idx X /\
  ny_h st' = store (ny_h st) idx Y /\
  nz_h st' = store (nz_h st) idx Z' /\
  Forall (has_dims X Y Z') (grids_of st' e idx) /\
  (forall e' idx', (e', idx') <> (e, idx) ->
     grids_of st' e' idx' = grids_of st e' idx').
Proof.
  intros Hmin Hmax. cbv zeta.
  assert (Hframe : forall (h : fas_heirarchy_set_t) g e' idx',
            (e', idx') <> (e, depth - 1) ->
            store_grid h e (depth - 1) g e' idx' = h e' idx').
  { intros h g e' idx' Hne. unfold store_grid, store.
    destruct (Z.eqb_spec e' e) as [->|]; [|reflexivity].
    destruct (Z.eqb_spec idx' (depth - 1)) as [->|]; [|reflexivity].
    congruence. }
  unfold ctor_depth, _dIdx. rewrite Hmin, Hmax.
  destruct (depth - 1 =? m - 1);
    cbn -[Z.quot Z.rem Z.mul Z.sub Z.add Z.eqb store store_grid];
    (repeat split; try assumption; try reflexivity;
     [ unfold grids_of, has_dims, sized, store_grid;
       cbn -[Z.quot Z.rem Z.mul Z.sub Z.add Z.eqb store];
       rewrite ?store_same; cbn -[Z.quot Z.rem Z.mul Z.sub Z.add Z.eqb store];
       rewrite ?store_same; repeat constructor
     | intros e' idx' Hne; unfold grids_of;
       cbn -[Z.quot Z.rem Z.mul Z.sub Z.add Z.eqb store store_grid];
       now rewrite !Hframe by assumption ]).
Qed.

(** The loop over the depths, for equation [e]. *)
Lemma ctor_depths_spec (u_in : Z -> arr_t) (e : Z) (st0 : FASMultigrid) (m : Z) :
  min_depth st0 = 1 -> max_depth st0 = m -> 1 <= m ->
  let st1 := fold_left (ctor_depth u_in e) (depths_down st0) st0 in
  min_depth st1 = 1 /\ max_depth st1 = m /\ u_n st1 = u_n st0 /\
  molecule_n st1 = molecule_n st0 /\ rho_h st1 = rho_h st0 /\
  levels_done m (-1) e st1 /\
  (forall e' idx, e' <> e -> grids_of st1 e' idx = grids_of st0 e' idx).
Proof.
  intros Hmin Hmax Hm. cbv zeta. unfold depths_down.
  rewrite Hmin, Hmax, fold_left_map.
  replace (-1) with (m - 1 - (m - 1 + 1)) by lia.
  apply (fold_zrange_ind
    (fun s t => ctor_depth u_in e s (m - t))
    (fun t s =>
       min_depth s = 1 /\ max_depth s = m /\ u_n s = u_n st0 /\
       molecule_n s = molecule_n st0 /\ rho_h s = rho_h st0 /\
       levels_done m (m - 1 - t) e s /\
       (forall e' idx, e' <> e -> grids_of s e' idx = grids_of st0 e' idx))).
  - lia.
  - splits; try assumption; try reflexivity; [intros idx Hidx; lia].
  - intros t s Ht (Smin & Smax & Sn & Smol & Srho & Slev & Sfr).
    destruct (ctor_depth_spec u_in e s (m - t) m Smin Smax)
      as (Tmin & Tmax & Tn & Tmol & Trho & Tx & Ty & Tz & Tg & Tfr).
    splits; try congruence.
    + intros idx Hidx. rewrite Tx, Ty, Tz.
      destruct (Z.eq_dec idx (m - t - 1)) as [->|Hne].
      * rewrite !store_same. rewrite (and_comm (_ = _)).
        assert (E : (if m - t - 1 =? m - 1 then NX
                     else Z.quot (nx_h s (m - t - 1 + 1)) 2
                          + Z.rem (nx_h s (m - t - 1 + 1)) 2)
                    = level_dim NX m (m - t - 1) /\
                    (if m - t - 1 =? m - 1 then NY
                     else Z.quot (ny_h s (m - t - 1 + 1)) 2
                          + Z.rem (ny_h s (m - t - 1 + 1)) 2)
                    = level_dim NY m (m - t - 1) /\
                    (if m - t - 1 =? m - 1 then NZ
                     else Z.quot (nz_h s (m - t - 1 + 1)) 2
                          + Z.rem (nz_h s (m - t - 1 + 1)) 2)
                    = level_dim NZ m (m - t - 1)).
        { destruct (Z.eqb_spec (m - t - 1) (m - 1)) as [E|E].
          - rewrite E, !level_dim_top. auto.
          - destruct (Slev (m - t - 1 + 1) ltac:(lia)) as (Ex & Ey & Ez & _).
            rewrite Ex, Ey, Ez, <- !level_dim_step by lia. auto. }
        destruct E as (Ex & Ey & Ez). rewrite Ex, Ey, Ez in *.
        splits; try reflexivity. exact Tg.
      * rewrite !store_other by assumption.
        destruct (Slev idx ltac:(lia)) as (Ex & Ey & Ez & Eg).
        splits; try assumption.
        rewrite Tfr by congruence. exact Eg.
    + intros e' idx Hne. rewrite Tfr by congruence. now apply Sfr.
Qed.

(** The loop over the depths that sizes the grids of a molecule. *)
Lemma ctor_rho_spec (e mol : Z) (st0 : FASMultigrid) (m : Z) :
  min_depth st0 = 1 -> max_depth st0 = m -> 1 <= m ->
  let st1 := ctor_rho e st0 mol in
  min_depth st1 = 1 /\ max_depth st1 = m /\ u_n st1 = u_n st0 /\
  molecule_n st1 = molecule_n st0 /\
  nx_h st1 = nx_h st0 /\ ny_h st1 = ny_h st0 /\ nz_h st1 = nz_h st0 /\
  (forall e' idx, grids_of st1 e' idx = grids_of st0 e' idx) /\
  (forall idx, 0 <= idx <= m - 1 ->
     has_dims (nx_h st0 idx) (ny_h st0 idx) (nz_h st0 idx) (rho_h st1 e mol idx)) /\
  (forall e' mol' idx, (e', mol') <> (e, mol) ->
     rho_h st1 e' mol' idx = rho_h st0 e' mol' idx).
Proof.
  intros Hmin Hmax Hm. cbv zeta. unfold ctor_rho, depths_down.
  rewrite Hmin, Hmax, fold_left_map.
  assert (G :
    (fun s =>
       min_depth s = 1 /\ max_depth s = m /\ u_n s = u_n st0 /\
       molecule_n s = molecule_n st0 /\
       nx_h s = nx_h st0 /\ ny_h s = ny_h st0 /\ nz_h s = nz_h st0 /\
       (forall e' idx, grids_of s e' idx = grids_of st0 e' idx) /\
       (forall idx, m - 1 - (m - 1 + 1) < idx <= m - 1 ->
          has_dims (nx_h st0 idx) (ny_h st0 idx) (nz_h st0 idx) (rho_h s e mol idx)) /\
       (forall e' mol' idx, (e', mol') <> (e, mol) ->
          rho_h s e' mol' idx = rho_h st0 e' mol' idx))
    (fold_left
       (fun (a : FASMultigrid) (t : Z) =>
          set_rho_h a
            (store (rho_h a) e
               (store_grid (rho_h a e) mol (_dIdx a (m - t))
                  (sized
                     (_array (arr_init (nx_h a (_dIdx a (m - t)))
                                (ny_h a (_dIdx a (m - t)))
                                (nz_h a (_dIdx a (m - t)))))
                     a (_dIdx a (m - t))))))
       (zrange (m - 1 + 1)) st0)).
  { apply (fold_zrange_ind _
      (fun t s =>
         min_depth s = 1 /\ max_depth s = m /\ u_n s = u_n st0 /\
         molecule_n s = molecule_n st0 /\
         nx_h s = nx_h st0 /\ ny_h s = ny_h st0 /\ nz_h s = nz_h st0 /\
         (forall e' idx, grids_of s e' idx = grids_of st0 e' idx) /\
         (forall idx, m - 1 - t < idx <= m - 1 ->
            has_dims (nx_h st0 idx) (ny_h st0 idx) (nz_h st0 idx) (rho_h s e mol idx)) /\
         (forall e' mol' idx, (e', mol') <> (e, mol) ->
            rho_h s e' mol' idx = rho_h st0 e' mol' idx))).
    - lia.
    - splits; try assumption; try reflexivity; intros; lia.
    - intros t s Ht (Smin & Smax & Sn & Smol & Sx & Sy & Sz & Sg & Sr & Sfr).
      unfold _dIdx. rewrite Smin.
      cbn -[Z.mul Z.sub Z.add Z.eqb store store_grid].
      splits; try assumption.
      + intros idx Hidx. unfold store_grid. rewrite store_same.
        destruct (Z.eq_dec idx (m - t - 1)) as [->|Hne].
        * rewrite !store_same. unfold sized, has_dims. rewrite Sx, Sy, Sz.
          cbn [nx ny nz pts]. splits; reflexivity.
        * rewrite store_same, store_other by assumption. apply Sr. lia.
      + intros e' mol' idx Hne. rewrite <- Sfr by assumption.
        unfold store_grid, store.
        destruct (Z.eqb_spec e' e) as [->|]; [|reflexivity].
        destruct (Z.eqb_spec mol' mol) as [->|]; [congruence|reflexivity]. }
  cbv beta in G.
  destruct G as (Smin & Smax & Sn & Smol & Sx & Sy & Sz & Sg & Sr & Sfr).
  splits; try assumption. intros idx Hidx. apply Sr. lia.
Qed.

Lemma fold_zrange_inv {St} (f : St -> Z -> St) (P : Z -> St -> Prop) (n : Z)
    (s0 : St) :
  P 0 s0 ->
  (forall t s, 0 <= t < n -> P t s -> P (t + 1) (f s t)) ->
  P (Z.max 0 n) (fold_left f (zrange n) s0).
Proof.
  intros H0 Hstep. destruct (Z_le_gt_dec 0 n) as [Hn|Hn].
  - rewrite Z.max_r by assumption. now apply fold_zrange_ind.
  - rewrite Z.max_l by lia. unfold zrange.
    replace (Z.to_nat n) with 0%nat by lia. exact H0.
Qed.

(** One iteration of the loop over the equations. *)
Lemma ctor_eqn_spec (u_in : Z -> arr_t) (e : Z) (st : FASMultigrid) (m : Z) :
  min_depth st = 1 -> max_depth st = m -> 1 <= m ->
  let st' := ctor_eqn u_in st e in
  min_depth st' = 1 /\ max_depth st' = m /\ u_n st' = u_n st /\
  molecule_n st' = molecule_n st /\
  levels_done m (-1) e st' /\
  (forall e' idx, e' <> e -> grids_of st' e' idx = grids_of st e' idx) /\
  (forall mol idx, 0 <= mol < molecule_n st e -> 0 <= idx <= m - 1 ->
     has_dims (level_dim NX m idx) (level_dim NY m idx) (level_dim NZ m idx)
       (rho_h st' e mol idx)) /\
  (forall e' mol idx, e' <> e -> rho_h st' e' mol idx = rho_h st e' mol idx).
Proof.
  intros Hmin Hmax Hm. cbv zeta. unfold ctor_eqn.
  set (stb := set_eqns _ _).
  destruct (ctor_depths_spec u_in e stb m Hmin Hmax Hm)
    as (Cmin & Cmax & Cn & Cmol & Crho & Clev & Cfr).
  set (stc := fold_left (ctor_depth u_in e) (depths_down stb) stb) in *.
  assert (G :
    (fun t s =>
       min_depth s = 1 /\ max_depth s = m /\ u_n s = u_n stc /\
       molecule_n s = molecule_n stc /\
       nx_h s = nx_h stc /\ ny_h s = ny_h stc /\ nz_h s = nz_h stc /\
       (forall e' idx, grids_of s e' idx = grids_of stc e' idx) /\
       (forall mol idx, 0 <= mol < t -> 0 <= idx <= m - 1 ->
          has_dims (nx_h stc idx) (ny_h stc idx) (nz_h stc idx) (rho_h s e mol idx)) /\
       (forall e' mol idx, e' <> e -> rho_h s e' mol idx = rho_h stc e' mol idx))
    (Z.max 0 (molecule_n stc e))
    (fold_left (ctor_rho e) (zrange (molecule_n stc e)) stc)).
  { apply fold_zrange_inv.
    - splits; try assumption; try reflexivity; intros; lia.
    - intros t s Ht (Smin & Smax & Sn & Smol & Sx & Sy & Sz & Sg & Sr & Sfr).
      destruct (ctor_rho_spec e t s m Smin Smax Hm)
        as (Tmin & Tmax & Tn & Tmol & Tx & Ty & Tz & Tg & Tr & Tfr).
      splits; try congruence.
      + intros mol idx Hmol Hidx. destruct (Z.eq_dec mol t) as [->|Hne].
        * rewrite <- Sx, <- Sy, <- Sz. now apply Tr.
        * rewrite Tfr by congruence. apply Sr; lia.
      + intros e' mol idx Hne. rewrite Tfr by congruence. now apply Sfr. }
  cbv beta in G.
  destruct G as (Smin & Smax & Sn & Smol & Sx & Sy & Sz & Sg & Sr & Sfr).
  splits; try congruence.
  - rewrite Sn, Cn. reflexivity.
  - rewrite Smol, Cmol. reflexivity.
  - intros idx Hidx. rewrite Sx, Sy, Sz, Sg. now apply Clev.
  - intros e' idx Hne. rewrite Sg. now apply Cfr.
  - intros mol idx Hmol Hidx.
    destruct (Clev idx ltac:(lia)) as (Ex & Ey & Ez & _).
    rewrite <- Ex, <- Ey, <- Ez. apply Sr; [|assumption].
    rewrite Cmol. change (molecule_n stb) with (molecule_n st). lia.
  - intros e' mol idx Hne. rewrite Sfr, Crho by assumption. reflexivity.
Qed.

(** What the constructor establishes. *)
Lemma constructor_spec (u_in : Z -> arr_t) (u_n_in : Z)
    (molecule_n_in : Z -> Z) (m max_relax_iters_in : Z) (tol : R) :
  1 <= u_n_in -> 1 <= m ->
  let st := FASMultigrid_new u_in u_n_in molecule_n_in m max_relax_iters_in tol in
  min_depth st = 1 /\ max_depth st = m /\ u_n st = u_n_in /\
  molecule_n st = molecule_n_in /\
  (forall idx, 0 <= idx <= m - 1 ->
     nx_h st idx = level_dim NX m idx /\
     ny_h st idx = level_dim NY m idx /\
     nz_h st idx = level_dim NZ m idx) /\
  (forall e idx, 0 <= e < u_n_in -> 0 <= idx <= m - 1 ->
     Forall (has_dims (level_dim NX m idx) (level_dim NY m idx)
               (level_dim NZ m idx)) (grids_of st e idx)) /\
  (forall e mol idx, 0 <= e < u_n_in -> 0 <= mol < molecule_n_in e ->
     0 <= idx <= m - 1 ->
     has_dims (level_dim NX m idx) (level_dim NY m idx) (level_dim NZ m idx)
       (rho_h st e mol idx)).
Proof.
  intros Hn Hm. cbv zeta. unfold FASMultigrid_new.
  set (st0 := mk_FAS _ _ _ _ _ _ _ _ _ _ _ _ _ _ _ _ _ _ _ _ _ _ _).
  change (u_n st0) with u_n_in.
  pose (P := fun (t : Z) (s : FASMultigrid) =>
       min_depth s = 1 /\ max_depth s = m /\ u_n s = u_n_in /\
       molecule_n s = molecule_n_in /\
       (1 <= t -> forall idx, 0 <= idx <= m - 1 ->
          nx_h s idx = level_dim NX m idx /\
          ny_h s idx = level_dim NY m idx /\
          nz_h s idx = level_dim NZ m idx) /\
       (forall e idx, 0 <= e < t -> 0 <= idx <= m - 1 ->
          Forall (has_dims (level_dim NX m idx) (level_dim NY m idx)
                    (level_dim NZ m idx)) (grids_of s e idx)) /\
       (forall e mol idx, 0 <= e < t -> 0 <= mol < molecule_n_in e ->
          0 <= idx <= m - 1 ->
          has_dims (level_dim NX m idx) (level_dim NY m idx) (level_dim NZ m idx)
            (rho_h s e mol idx))).
  assert (G : P u_n_in (fold_left (ctor_eqn u_in) (zrange u_n_in) st0)).
  { apply (fold_zrange_ind (ctor_eqn u_in) P); unfold P.
    - lia.
    - splits; try reflexivity; intros; lia.
    - intros t s Ht (Smin & Smax & Sn & Smol & Sd & Sg & Sr).
      destruct (ctor_eqn_spec u_in t s m Smin Smax Hm)
        as (Tmin & Tmax & Tn & Tmol & Tlev & Tfr & Tr & Trf).
      splits; try congruence.
      + intros _ idx Hidx. destruct (Tlev idx ltac:(lia)) as (Ex & Ey & Ez & _).
        auto.
      + intros e idx He Hidx. destruct (Z.eq_dec e t) as [->|Hne].
        * now destruct (Tlev idx ltac:(lia)) as (_ & _ & _ & Eg).
        * rewrite Tfr by assumption. apply Sg; lia.
      + intros e mol idx He Hmol Hidx. destruct (Z.eq_dec e t) as [->|Hne].
        * apply Tr; [|assumption]. now rewrite Smol.
        * rewrite Trf by assumption. apply Sr; lia. }
  unfold P in G. destruct G as (Smin & Smax & Sn & Smol & Sd & Sg & Sr).
  splits; try assumption. apply Sd. lia.
Qed.

(** C6. After construction (of at least one unknown, with a maximal depth
    of at least 1 and host dimensions that are not negative) the depths
    are 1, ..., [max_depth_in] and the unknowns and their molecules are as
    many as asked for; the finest depth has the dimensions (NX, NY, NZ) of
    the host, every coarser depth has on each axis the ceiling of half the
    dimension of the next finer one, and every grid of every hierarchy has
    the dimensions of its depth and [pts = nx * ny * nz]. *)
Theorem constructor_dimension_hierarchy (u_in : Z -> arr_t) (u_n_in : Z)
    (molecule_n_in : Z -> Z) (max_depth_in max_relax_iters_in : Z) (tol : R) :
  1 <= u_n_in -> 1 <= max_depth_in -> 0 <= NX -> 0 <= NY -> 0 <= NZ ->
  let st := FASMultigrid_new u_in u_n_in molecule_n_in max_depth_in
              max_relax_iters_in tol in
  (min_depth st = 1 /\ max_depth st = max_depth_in /\ u_n st = u_n_in /\
   molecule_n st = molecule_n_in) /\
  (nx_h st (_dIdx st (max_depth st)) = NX /\
   ny_h st (_dIdx st (max_depth st)) = NY /\
   nz_h st (_dIdx st (max_depth st)) = NZ) /\
  (forall d, min_depth st < d <= max_depth st ->
     nx_h st (_dIdx st (d - 1)) = ceil_half (nx_h st (_dIdx st d)) /\
     ny_h st (_dIdx st (d - 1)) = ceil_half (ny_h st (_dIdx st d)) /\
     nz_h st (_dIdx st (d - 1)) = ceil_half (nz_h st (_dIdx st d))) /\
  (forall e d, 0 <= e < u_n st -> min_depth st <= d <= max_depth st ->
     Forall (has_dims (nx_h st (_dIdx st d)) (ny_h st (_dIdx st d))
               (nz_h st (_dIdx st d))) (grids_of st e (_dIdx st d))) /\
  (forall e mol d, 0 <= e < u_n st -> 0 <= mol < molecule_n st e ->
     min_depth st <= d <= max_depth st ->
     has_dims (nx_h st (_dIdx st d)) (ny_h st (_dIdx st d))
       (nz_h st (_dIdx st d)) (rho_h st e mol (_dIdx st d))).
Proof.
  intros Hn Hm Hx Hy Hz st.
  destruct (constructor_spec u_in u_n_in molecule_n_in max_depth_in
              max_relax_iters_in tol Hn Hm)
    as (Smin & Smax & Sn & Smol & Sd & Sg & Sr).
  fold st in Smin, Smax, Sn, Smol, Sd, Sg, Sr.
  unfold _dIdx. rewrite Smin, Smax, Sn, Smol. splits; try reflexivity.
  - destruct (Sd (max_depth_in - 1) ltac:(lia)) as (E & _ & _).
    now rewrite E, level_dim_top.
  - destruct (Sd (max_depth_in - 1) ltac:(lia)) as (_ & E & _).
    now rewrite E, level_dim_top.
  - destruct (Sd (max_depth_in - 1) ltac:(lia)) as (_ & _ & E).
    now rewrite E, level_dim_top.
  - intros d Hd.
    destruct (Sd (d - 1 - 1) ltac:(lia)) as (Ex & Ey & Ez).
    destruct (Sd (d - 1) ltac:(lia)) as (Fx & Fy & Fz).
    rewrite Ex, Ey, Ez, Fx, Fy, Fz.
    rewrite !(level_dim_step _ _ (d - 1 - 1)) by lia.
    replace (d - 1 - 1 + 1) with (d - 1) by lia.
    rewrite !half_up_ceil by (apply level_dim_nonneg; assumption). auto.
  - intros e d He Hd. destruct (Sd (d - 1) ltac:(lia)) as (Ex & Ey & Ez).
    rewrite Ex, Ey, Ez. apply Sg; lia.
  - intros e mol d He Hmol Hd. destruct (Sd (d - 1) ltac:(lia)) as (Ex & Ey & Ez).
    rewrite Ex, Ey, Ez. apply Sr; lia.
Qed.

End Constructor.

Lemma constructor_dimension_hierarchy_witness :
  let st := FASMultigrid_new (host := host_of 5 4 3) (fun _ => const_grid 0%R)
              1 (fun _ => 1) 3 10 1e-8%R in
  (min_depth st = 1 /\ max_depth st = 3 /\ u_n st = 1 /\
   molecule_n st = (fun _ => 1)) /\
  (nx_h st (_dIdx st (max_depth st)) = 5 /\
   ny_h st (_dIdx st (max_depth st)) = 4 /\
   nz_h st (_dIdx st (max_depth st)) = 3) /\
  (nx_h st (_dIdx st (3 - 1)) = ceil_half (nx_h st (_dIdx st 3)) /\
   ny_h st (_dIdx st (3 - 1)) = ceil_half (ny_h st (_dIdx st 3)) /\
   nz_h st (_dIdx st (3 - 1)) = ceil_half (nz_h st (_dIdx st 3))) /\
  (nx_h st (_dIdx st (2 - 1)) = ceil_half (nx_h st (_dIdx st 2)) /\
   ny_h st (_dIdx st (2 - 1)) = ceil_half (ny_h st (_dIdx st 2)) /\
   nz_h st (_dIdx st (2 - 1)) = ceil_half (nz_h st (_dIdx st 2))) /\
  Forall (has_dims (nx_h st (_dIdx st 1)) (ny_h st (_dIdx st 1))
            (nz_h st (_dIdx st 1))) (grids_of st 0 (_dIdx st 1)) /\
  has_dims (nx_h st (_dIdx st 1)) (ny_h st (_dIdx st 1))
    (nz_h st (_dIdx st 1)) (rho_h st 0 0 (_dIdx st 1)).
Proof.
  intros st.
  destruct (constructor_dimension_hierarchy (host := host_of 5 4 3)
              (fun _ => const_grid 0%R) 1 (fun _ => 1) 3 10 1e-8%R
              ltac:(lia) ltac:(lia) ltac:(simpl; lia) ltac:(simpl; lia)
              ltac:(simpl; lia)) as (A & B & C & D & E).
  fold st in A, B, C, D, E. destruct A as (A1 & A2 & A3 & A4).
  split; [auto|]. split; [exact B|].
  split; [apply C; rewrite A1, A2; lia|].
  split; [apply C; rewrite A1, A2; lia|].
  split.
  - apply D; rewrite ?A1, ?A2, ?A3; lia.
  - apply E; rewrite ?A1, ?A2, ?A3, ?A4; lia.
Defined.
(** ** Prolongation *)

Lemma cpow_int (x : R) (n : Z) : cpow x (IZR n) = powerRZ x n.
Proof.
  unfold cpow.
  assert (E : Int_part (IZR n) = n).
  { symmetry. apply Int_part_spec. lra. }
  rewrite E. destruct (Req_dec_T (IZR n) (IZR n)); [reflexivity|congruence].
Qed.

Lemma Rsum_app (l1 l2 : list R) : Rsum (l1 ++ l2) = (Rsum l1 + Rsum l2)%R.
Proof. induction l1; simpl; [lra|]. rewrite IHl1. lra. Qed.

Lemma Rsum_flat_map {A B} (f : B -> R) (g : A -> list B) (l : list A) :
  Rsum (map f (flat_map g l)) = Rsum (map (fun x => Rsum (map f (g x))) l).
Proof.
  induction l; simpl; [reflexivity|].
  now rewrite map_app, Rsum_app, IHl.
Qed.

Lemma Rsum_scale {A} (c : R) (f : A -> R) (l : list A) :
  Rsum (map (fun x => c * f x)%R l) = (c * Rsum (map f l))%R.
Proof. induction l; simpl; [lra|]. rewrite IHl. lra. Qed.

Lemma Rsum_plus {A} (f g : A -> R) (l : list A) :
  Rsum (map (fun x => f x + g x)%R l) = (Rsum (map f l) + Rsum (map g l))%R.
Proof. induction l; simpl; [lra|]. rewrite IHl. lra. Qed.

Lemma Rsum_ext_in {A} (f g : A -> R) (l : list A) :
  (forall x, In x l -> f x = g x) -> Rsum (map f l) = Rsum (map g l).
Proof. intros H. now rewrite (map_ext_in f g l H). Qed.

Lemma Rsum_zero {A} (l : list A) : Rsum (map (fun _ => 0%R) l) = 0%R.
Proof. induction l; simpl; [reflexivity|]. rewrite IHl. lra. Qed.

(** The sum over a counting loop of the indicator of one of its indices. *)
Lemma Rsum_indicator (n m : Z) :
  0 <= m < n -> Rsum (map (fun i => b2r (i =? m)) (zrange n)) = 1%R.
Proof.
  intros Hm.
  assert (G : forall k : nat,
            Rsum (map (fun i => b2r (i =? m)) (zrange (Z.of_nat k)))
            = b2r (m <? Z.of_nat k)).
  { induction k as [|k IH].
    - simpl. destruct (Z.ltb_spec m 0); [lia|reflexivity].
    - replace (Z.of_nat (S k)) with (Z.of_nat k + 1) by lia.
      rewrite zrange_succ by lia. rewrite map_app, Rsum_app, IH. simpl.
      destruct (Z.ltb_spec m (Z.of_nat k)), (Z.ltb_spec m (Z.of_nat k + 1)),
        (Z.eqb_spec (Z.of_nat k) m); simpl; try lia; lra. }
  specialize (G (Z.to_nat n)). rewrite Z2Nat.id in G by lia. rewrite G.
  destruct (Z.ltb_spec m n); [reflexivity|lia].
Qed.

(** A loop that adds [W t] to the entry [idx] at the iteration [t]. *)
Lemma fold_additive {T} (g : (Z -> R) -> T -> Z -> R) (W : T -> R)
    (l : list T) (idx : Z) :
  (forall a t, In t l -> g a t idx = (a idx + W t)%R) ->
  forall a, fold_left g l a idx = (a idx + Rsum (map W l))%R.
Proof.
  induction l as [|t l IH]; intros H a; simpl; [lra|].
  rewrite IH by (intros; apply H; now right).
  rewrite H by now left. lra.
Qed.

Lemma b2r_andb (x y : bool) : b2r (x && y) = (b2r x * b2r y)%R.
Proof. destruct x, y; simpl; lra. Qed.

(** The linear index of a site determines the site. *)
Lemma H_INDEX_eqb (x y z n_x n_y n_z X Y Z' : Z) :
  0 < n_x -> 0 < n_y -> 0 < n_z ->
  0 <= X < n_x -> 0 <= Y < n_y -> 0 <= Z' < n_z ->
  (H_INDEX x y z n_x n_y n_z =? X * n_y * n_z + Y * n_z + Z')
  = (x mod n_x =? X) && (y mod n_y =? Y) && (z mod n_z =? Z').
Proof.
  intros Hx Hy Hz HX HY HZ. unfold H_INDEX.
  pose proof (Z.mod_pos_bound x n_x Hx) as Bx.
  pose proof (Z.mod_pos_bound y n_y Hy) as By.
  pose proof (Z.mod_pos_bound z n_z Hz) as Bz.
  generalize dependent (x mod n_x). generalize dependent (y mod n_y).
  generalize dependent (z mod n_z). intros c Bc b Bb a Ba.
  apply Bool.eq_iff_eq_true. rewrite !andb_true_iff, !Z.eqb_eq. split.
  - intros E.
    assert (E1 : (a * n_y + b) * n_z + c = (X * n_y + Y) * n_z + Z') by lia.
    assert (E2 : (a * n_y + b) = (X * n_y + Y) /\ c = Z')
      by (apply (Z.div_mod_unique n_z); lia).
    destruct E2 as [E2 E3].
    assert (E4 : a = X /\ b = Y) by (apply (Z.div_mod_unique n_y); lia).
    lia.
  - intros [[-> ->] ->]. reflexivity.
Qed.

(** One of the 27 updates of the fine grid by a coarse cell. *)
Lemma interpolate_update (n_fine_x n_fine_y n_fine_z : Z) (v : R)
    (fi fj fk a b c : Z) (fine : Z -> R) :
  (a = -1 \/ a = 0 \/ a = 1) -> (b = -1 \/ b = 0 \/ b = 1) ->
  (c = -1 \/ c = 0 \/ c = 1) ->
  (let fine_grid_loc :=
     H_INDEX (fi + a) (fj + b) (fk + c) n_fine_x n_fine_y n_fine_z in
   if (a =? 0) && (b =? 0) && (c =? 0) then
     store fine fine_grid_loc (fine fine_grid_loc + v)%R
   else if fine_grid_loc =? fine_grid_loc then
     store fine fine_grid_loc
       (fine fine_grid_loc + v / cpow 2.0 (IZR (Z.abs a + Z.abs b + Z.abs c)))%R
   else fine)
  = store fine (H_INDEX (fi + a) (fj + b) (fk + c) n_fine_x n_fine_y n_fine_z)
      (fine (H_INDEX (fi + a) (fj + b) (fk + c) n_fine_x n_fine_y n_fine_z)
       + v * (adj_weight a * adj_weight b * adj_weight c))%R.
Proof.
  intros Ha Hb Hc. cbv zeta. rewrite Z.eqb_refl.
  destruct Ha as [-> | [-> | ->]], Hb as [-> | [-> | ->]], Hc as [-> | [-> | ->]];
    cbn [Z.eqb andb Z.abs Z.add Pos.add Pos.succ adj_weight];
    rewrite ?cpow_int; cbn [powerRZ];
    repeat match goal with
    | |- context [Pos.to_nat ?p] =>
        let n := eval compute in (Pos.to_nat p) in change (Pos.to_nat p) with n
    end;
    f_equal; cbn [pow]; lra.
Qed.

Lemma In_adjacent (a b c : Z) :
  In (a, b, c) adjacent ->
  (a = -1 \/ a = 0 \/ a = 1) /\ (b = -1 \/ b = 0 \/ b = 1) /\
  (c = -1 \/ c = 0 \/ c = 1).
Proof.
  unfold adjacent. cbn [flat_map map app]. intros H.
  repeat (destruct H as [H|H]; [inversion H; subst; lia|]). contradiction.
Qed.

(** What the coarse cell (i,j,k) adds to the fine cell (X,Y,Z). *)
Lemma interpolate_cell_adds (n_x n_y n_z : Z) (coarse_grid : arr_t)
    (fine : Z -> R) (i j k X Y Z' : Z) :
  0 < n_x -> 0 < n_y -> 0 < n_z ->
  0 <= X < n_x * 2 -> 0 <= Y < n_y * 2 -> 0 <= Z' < n_z * 2 ->
  interpolate_cell n_x n_y n_z (n_x * 2) (n_y * 2) (n_z * 2) coarse_grid fine
    (i, j, k) (X * (n_y * 2) * (n_z * 2) + Y * (n_z * 2) + Z')
  = (fine (X * (n_y * 2) * (n_z * 2) + Y * (n_z * 2) + Z')%Z
     + _array coarse_grid (H_INDEX i j k n_x n_y n_z)
       * (axis_share n_x X i * axis_share n_y Y j * axis_share n_z Z' k))%R.
Proof.
  intros Hx Hy Hz HX HY HZ. unfold interpolate_cell.
  set (v := _array coarse_grid (H_INDEX i j k n_x n_y n_z)).
  set (idx := X * (n_y * 2) * (n_z * 2) + Y * (n_z * 2) + Z').
  rewrite (fold_additive _
    (fun t : Z * Z * Z =>
       let '(a, b, c) := t in
       b2r (H_INDEX (i * 2 + a) (j * 2 + b) (k * 2 + c)
              (n_x * 2) (n_y * 2) (n_z * 2) =? idx)
       * (v * (adj_weight a * adj_weight b * adj_weight c)))%R).
  - f_equal. unfold adjacent. cbn [flat_map map app Rsum fold_right].
    unfold idx. rewrite !H_INDEX_eqb by lia. rewrite !b2r_andb.
    unfold axis_share. cbn [map Rsum fold_right].
    cbn [adj_weight Z.eqb]. ring.
  - intros a0 [[a b] c] Hin. apply In_adjacent in Hin.
    destruct Hin as (Ha & Hb & Hc).
    rewrite interpolate_update by assumption.
    unfold store. rewrite Z.eqb_sym.
    destruct (Z.eqb_spec (H_INDEX (i * 2 + a) (j * 2 + b) (k * 2 + c)
                (n_x * 2) (n_y * 2) (n_z * 2)) idx) as [E|E].
    + rewrite E. simpl. lra.
    + simpl. lra.
Qed.

(** On each axis the shares a fine cell receives sum to 1. *)
Lemma axis_share_sum (n x : Z) :
  0 < n -> 0 <= x < n * 2 ->
  Rsum (map (axis_share n x) (zrange n)) = 1%R.
Proof.
  intros Hn Hx.
  pose proof (Z.div_mod x 2 ltac:(lia)) as Dx.
  pose proof (Z.mod_pos_bound x 2 ltac:(lia)) as Bx.
  set (m := x / 2) in *.
  assert (M4 : (m + 1) mod n = if m + 1 =? n then 0 else m + 1).
  { destruct (Z.eqb_spec (m + 1) n) as [E|E].
    - rewrite E. apply Z.mod_same. lia.
    - apply Z.mod_small. lia. }
  assert (P : forall i, In i (zrange n) ->
            axis_share n x i
            = (if x mod 2 =? 0 then b2r (i =? m)
               else / 2 * b2r (i =? (m + 1) mod n) + / 2 * b2r (i =? m))%R).
  { intros i Hi. apply In_zrange in Hi. unfold axis_share.
    cbn [map Rsum fold_right adj_weight Z.eqb].
    assert (M1 : (i * 2 + -1) mod (n * 2) = if i =? 0 then n * 2 - 1 else i * 2 - 1).
    { destruct (Z.eqb_spec i 0) as [E|E].
      - subst i. symmetry. apply Z.mod_unique with (q := -1); lia.
      - apply Z.mod_small. lia. }
    assert (M2 : (i * 2 + 0) mod (n * 2) = i * 2)
      by (rewrite Z.add_0_r; apply Z.mod_small; lia).
    assert (M3 : (i * 2 + 1) mod (n * 2) = i * 2 + 1) by (apply Z.mod_small; lia).
    rewrite M1, M2, M3, M4.
    destruct (Z.eqb_spec (x mod 2) 0), (Z.eqb_spec i 0), (Z.eqb_spec (m + 1) n);
      repeat match goal with
      | |- context [?a =? ?b] => destruct (Z.eqb_spec a b)
      end; simpl; try lia; lra. }
  rewrite (Rsum_ext_in _ _ _ P).
  destruct (x mod 2 =? 0).
  - apply Rsum_indicator. lia.
  - rewrite Rsum_plus, !Rsum_scale, !Rsum_indicator; try lra; try lia.
    rewrite M4. destruct (Z.eqb_spec (m + 1) n); lia.
Qed.

(** The sum of a product over the sites of a grid. *)
Lemma Rsum_loop3 (c : R) (A B C : Z -> R) (n_x n_y n_z : Z) :
  Rsum (map (fun t : Z * Z * Z => let '(i, j, k) := t in
               c * (A i * B j * C k))%R (FAS_LOOP3_N n_x n_y n_z))
  = (c * (Rsum (map A (zrange n_x)) * Rsum (map B (zrange n_y))
          * Rsum (map C (zrange n_z))))%R.
Proof.
  unfold FAS_LOOP3_N. rewrite Rsum_flat_map.
  rewrite (Rsum_ext_in _
    (fun i => (c * Rsum (map B (zrange n_y)) * Rsum (map C (zrange n_z))) * A i)%R).
  - rewrite Rsum_scale. ring.
  - intros i _. rewrite Rsum_flat_map.
    rewrite (Rsum_ext_in _
      (fun j => (c * A i * Rsum (map C (zrange n_z))) * B j)%R).
    + rewrite Rsum_scale. ring.
    + intros j _. rewrite map_map.
      rewrite (Rsum_ext_in _ (fun k => (c * A i * B j) * C k)%R)
        by (intros; ring).
      rewrite Rsum_scale. ring.
Qed.

Lemma zeroGrid_zero (grid : arr_t) (idx : Z) :
  0 <= idx < pts grid -> _array (_zeroGrid grid) idx = 0%R.
Proof.
  intros H. unfold _zeroGrid. cbn [_array with_array].
  apply fold_writes_const.
  - intros a t _. unfold store. destruct (idx =? t); auto.
  - intros. right. exists idx. split; [now apply In_zrange|].
    intros a'. apply store_same.
Qed.

(** The fine cell of linear index [idx] and its coordinates. *)
Lemma linear_index_split (idx n_y n_z : Z) :
  0 < n_y -> 0 < n_z ->
  idx = (idx / (n_y * n_z)) * n_y * n_z + ((idx / n_z) mod n_y) * n_z + idx mod n_z.
Proof.
  intros Hy Hz.
  pose proof (Z.div_mod idx n_z ltac:(lia)).
  pose proof (Z.div_mod (idx / n_z) n_y ltac:(lia)).
  rewrite (Z.mul_comm n_y n_z), <- Z.div_div by lia. nia.
Qed.

(** Prolongation of a constant coarse grid: every entry of the fine array
    below [pts] receives the constant. *)
Lemma interpolate_constant (st : FASMultigrid)
    (grid_heirarchy : fas_heirarchy_t) (coarse_depth : Z) (c : R) (idx : Z) :
  let coarse_idx := _dIdx st coarse_depth in
  let fine_idx := _dIdx st (coarse_depth + 1) in
  let n_x := nx_h st coarse_idx in
  let n_y := ny_h st coarse_idx in
  let n_z := nz_h st coarse_idx in
  0 < n_x -> 0 < n_y -> 0 < n_z ->
  (forall i, 0 <= i < n_x * n_y * n_z ->
     _array (grid_heirarchy coarse_idx) i = c) ->
  0 <= idx < pts (grid_heirarchy fine_idx) ->
  pts (grid_heirarchy fine_idx) <= (n_x * 2) * (n_y * 2) * (n_z * 2) ->
  _array (_interpolateCoarse2fine st grid_heirarchy coarse_depth fine_idx) idx = c.
Proof.
  intros coarse_idx fine_idx n_x n_y n_z Hx Hy Hz Hc Hidx Hpts.
  unfold _interpolateCoarse2fine. fold coarse_idx fine_idx n_x n_y n_z.
  rewrite store_same. cbn [_array with_array].
  pose proof (linear_index_split idx (n_y * 2) (n_z * 2) ltac:(lia) ltac:(lia)) as E.
  set (X := idx / (n_y * 2 * (n_z * 2))) in *.
  set (Y := (idx / (n_z * 2)) mod (n_y * 2)) in *.
  set (Z' := idx mod (n_z * 2)) in *.
  assert (HY : 0 <= Y < n_y * 2) by (apply Z.mod_pos_bound; lia).
  assert (HZ : 0 <= Z' < n_z * 2) by (apply Z.mod_pos_bound; lia).
  assert (HX : 0 <= X < n_x * 2).
  { unfold X. split.
    - apply Z.div_pos; nia.
    - apply Z.div_lt_upper_bound; nia. }
  rewrite (fold_additive _
    (fun t : Z * Z * Z => let '(i, j, k) := t in
       c * (axis_share n_x X i * axis_share n_y Y j * axis_share n_z Z' k))%R).
  - rewrite zeroGrid_zero by lia.
    rewrite Rsum_loop3, !axis_share_sum by lia. lra.
  - intros a [[i j] k] Hin. apply In_FAS_LOOP3_N in Hin.
    rewrite E at 1 2. rewrite interpolate_cell_adds by lia.
    rewrite Hc; [reflexivity|]. apply H_INDEX_range; lia.
Qed.

(** C5, as stated, fails: the claim puts no condition on the arithmetic,
    and in binary64 the accumulated contributions are rounded.  From a
    coarse grid of one site that holds the number nearest to 0.1, the fine
    cell (1,1,1) of the 2 x 2 x 2 grid adds eight times the eighth of it
    and ends at the number just below it. *)
Lemma prolongation_of_constant_rounds :
  let st := two_level 2 2 2 0%R in
  let coarse := const_pair64 tenth (_dIdx st 1) in
  let fine :=
    _interpolateCoarse2fine64 st (const_pair64 tenth) 1 (_dIdx st (1 + 1)) in
  (nx_h st (_dIdx st 1), ny_h st (_dIdx st 1), nz_h st (_dIdx st 1)) = (1, 1, 1) /\
  _array64 coarse = (fun _ => tenth) /\
  _array64 fine (H_INDEX 1 1 1 2 2 2) = 0x1.9999999999999p-4%float /\
  PrimFloat.ltb (_array64 fine (H_INDEX 1 1 1 2 2 2)) tenth = true.
Proof. repeat split. Qed.

(** C5, amended.  In exact arithmetic, prolongation of a coarse grid that
    holds the constant [c] gives a fine grid that holds [c] at every cell:
    the contributions a fine cell accumulates (the value at a collocated
    site, and the value over [2^(|a|+|b|+|c|)] from the neighbouring coarse
    cells) sum to [c].  The fine grid has twice the coarse dimensions on
    each axis, that is the (2 n_x)(2 n_y)(2 n_z) entries the loop indexes:
    for an odd fine dimension the source indexes past the fine array, and
    nothing is stated of it. *)
Theorem prolongation_of_constant (st : FASMultigrid)
    (grid_heirarchy : fas_heirarchy_t) (coarse_depth : Z) (c : R) (idx : Z) :
  let coarse_idx := _dIdx st coarse_depth in
  let fine_idx := _dIdx st (coarse_depth + 1) in
  let n_x := nx_h st coarse_idx in
  let n_y := ny_h st coarse_idx in
  let n_z := nz_h st coarse_idx in
  0 < n_x -> 0 < n_y -> 0 < n_z ->
  (forall i, 0 <= i < n_x * n_y * n_z ->
     _array (grid_heirarchy coarse_idx) i = c) ->
  pts (grid_heirarchy fine_idx) = (n_x * 2) * (n_y * 2) * (n_z * 2) ->
  0 <= idx < pts (grid_heirarchy fine_idx) ->
  _array (_interpolateCoarse2fine st grid_heirarchy coarse_depth fine_idx) idx = c.
Proof.
  intros coarse_idx fine_idx n_x n_y n_z Hx Hy Hz Hc Hp Hidx.
  apply interpolate_constant; try assumption.
  fold coarse_idx fine_idx n_x n_y n_z. lia.
Qed.

Lemma prolongation_of_constant_witness :
  let st := two_level 2 2 2 0%R in
  let h := store (tmp_h st 0) 0 (mk_arr (fun _ => 7%R) 1 1 1 1) in
  _array (_interpolateCoarse2fine st h 1 1) 5 = 7%R.
Proof.
  intros st h.
  apply (prolongation_of_constant st h 1 7%R 5).
  - reflexivity.
  - reflexivity.
  - reflexivity.
  - intros i _. reflexivity.
  - reflexivity.
  - change (0 <= 5 < 8). lia.
Defined.
(** ** The summary of [VCycles] *)

Lemma sign_product_negative (x y : R) :
  (_sign x * _sign y <? 0) = true <-> (x * y < 0)%R.
Proof.
  unfold _sign.
  destruct (Rlt_dec 0 x), (Rlt_dec x 0), (Rlt_dec 0 y), (Rlt_dec y 0);
    cbn; split; intros H; try discriminate; try reflexivity; try nra.
Qed.

Lemma Returned_state {A} (a a' : A) (st st' : FASMultigrid) :
  Returned a st = Returned a' st' -> st = st'.
Proof. congruence. Qed.

Section Summary.

Context {host : Host}.

(** [_singularityExists] holds when some entry after the first has the
    sign opposite to the one of the first entry. *)
Lemma singularityExists_iff (st : FASMultigrid) (eqn_id depth : Z) :
  let depth_idx := _dIdx st depth in
  let u := _array (u_h st eqn_id depth_idx) in
  _singularityExists st eqn_id depth = true <->
  exists k, 0 < k < nx_h st depth_idx * ny_h st depth_idx * nz_h st depth_idx /\
            (u k * u 0%Z < 0)%R.
Proof.
  cbv zeta. unfold _singularityExists. rewrite existsb_exists. split.
  - intros [k [Hin Hk]]. apply in_map_iff in Hin.
    destruct Hin as [t [<- Ht]]. apply In_zrange in Ht.
    exists (t + 1). split; [lia|]. now apply sign_product_negative.
  - intros [k [Hk Hs]]. exists k. split.
    + apply in_map_iff. exists (k - 1). split; [lia|]. apply In_zrange. lia.
    + now apply sign_product_negative.
Qed.

Lemma summary_lines_print (st : FASMultigrid) (m : msg) (e : Z) :
  summary_lines (print st m) e = summary_lines st e.
Proof. reflexivity. Qed.

(** The summary loop appends the lines of every variable and changes
    nothing else. *)
Lemma summary_loop (l : list Z) (st : FASMultigrid) :
  let st' := fold_left (fun st eqn_id =>
                          fold_left print (summary_lines st eqn_id) st) l st in
  cout st' = cout st ++ flat_map (summary_lines st) l /\
  u_h st' = u_h st /\ u_n st' = u_n st /\
  nx_h st' = nx_h st /\ ny_h st' = ny_h st /\ nz_h st' = nz_h st /\
  max_depth st' = max_depth st /\ min_depth st' = min_depth st /\
  max_depth_idx st' = max_depth_idx st.
Proof.
  revert st. induction l as [|e l IH]; intros st; cbn [fold_left flat_map].
  - rewrite app_nil_r. repeat split.
  - specialize (IH (fold_left print (summary_lines st e) st)).
    cbv zeta in IH |- *.
    destruct IH as (Hc & Hu & Hn & Hx & Hy & Hz & Hd & Hm & Hi).
    repeat split; try assumption.
    rewrite Hc. cbn [summary_lines fold_left print cout].
    rewrite <- !app_assoc. reflexivity.
Qed.

Lemma In_summary_crosses (st : FASMultigrid) (l : list Z) (e : Z) :
  In (msg_crosses_zero e) (flat_map (summary_lines st) l) <->
  In e l /\ _singularityExists st e (max_depth st) = true.
Proof.
  rewrite in_flat_map. split.
  - intros [x [Hx Hin]]. unfold summary_lines in Hin.
    destruct (_singularityExists st x (max_depth st)) eqn:E;
      destruct Hin as [H|[H|[]]]; try discriminate.
    inversion H; subst. auto.
  - intros [Hin Hs]. exists e. split; [assumption|].
    unfold summary_lines. rewrite Hs. now left.
Qed.

(** What the summary of [VCycles] tests.  When [VCycles] returns, what it
    printed after the final smoothing pass is the residual followed by the
    lines of the variables; the warning for variable [e] is among them
    exactly when some entry [u_e[k]], k > 0, of the finest grid has the
    sign opposite to the one of [u_e[0]] (the product of the two signs is
    negative). *)
Theorem warning_iff_opposite_to_first (fuel : nat) (st st' : FASMultigrid)
    (num_cycles : Z) :
  VCycles fuel st num_cycles = Returned tt st' ->
  exists cycled smoothed summary,
    for_each (zrange num_cycles) (fun _ st => VCycle fuel st) st
      = Returned tt cycled /\
    _relaxSolution_GaussSeidel fuel cycled (max_depth cycled) 10
      = Returned tt smoothed /\
    cout st'
      = cout smoothed
        ++ msg_solution_residual
             (_getMaxResidualAllEqs smoothed (max_depth smoothed)) :: summary /\
    u_h st' = u_h smoothed /\
    forall e, 0 <= e < u_n st' ->
      let depth_idx := _dIdx st' (max_depth st') in
      let u := _array (u_h st' e depth_idx) in
      (In (msg_crosses_zero e) summary <->
       exists k,
         0 < k < nx_h st' depth_idx * ny_h st' depth_idx * nz_h st' depth_idx /\
         (u k * u 0%Z < 0)%R).
Proof.
  unfold VCycles. intros H.
  destruct (for_each (zrange num_cycles) (fun _ st => VCycle fuel st) st)
    as [[] cycled| |] eqn:Ec; try discriminate.
  cbn [bind] in H.
  destruct (_relaxSolution_GaussSeidel fuel cycled (max_depth cycled) 10)
    as [[] smoothed| |] eqn:Es; try discriminate.
  cbn [bind] in H. apply Returned_state in H. subst st'.
  set (printed := print smoothed _) in *.
  destruct (summary_loop (zrange (u_n smoothed)) printed)
    as (Hc & Hu & Hn & Hx & Hy & Hz & Hd & Hm & Hi).
  exists cycled, smoothed, (flat_map (summary_lines printed) (zrange (u_n smoothed))).
  split; [reflexivity|]. split; [exact Es|]. split.
  - change (u_n printed) with (u_n smoothed). rewrite Hc. unfold printed. cbn [cout print]. now rewrite <- app_assoc.
  - change (u_n printed) with (u_n smoothed).
    split; [exact Hu|]. intros e He. cbv zeta.
    rewrite In_summary_crosses, In_zrange, singularityExists_iff.
    unfold _dIdx. rewrite Hu, Hx, Hy, Hz, Hd, Hm. rewrite Hn in He.
    change (u_n printed) with (u_n smoothed) in He. tauto.
Qed.

End Summary.
Lemma cpow_one (x : R) : cpow x 1 = x.
Proof. rewrite cpow_int. apply powerRZ_1. Qed.

(** ** A converged solution that is zero at the first site *)

(** Unrolls the loops whose bounds are known numbers. *)
Ltac unroll :=
  repeat first
    [ progress cbn -[IZR cpow Rplus Rmult Rminus Ropp Rabs Rdiv Rinv Rmax Rmin
                     Rltb Rleb zrange FAS_LOOP3_N]
    | match goal with
      | |- context [zrange (Zpos ?p)] =>
          let l := eval vm_compute in (zrange (Zpos p)) in
          change (zrange (Zpos p)) with l
      | |- context [zrange 0] => change (zrange 0) with (@nil Z)
      | |- context [FAS_LOOP3_N (Zpos ?p) (Zpos ?q) (Zpos ?r)] =>
          let l := eval vm_compute in (FAS_LOOP3_N (Zpos p) (Zpos q) (Zpos r)) in
          change (FAS_LOOP3_N (Zpos p) (Zpos q) (Zpos r)) with l
      end ].

Lemma crossing_eval (i : Z) :
  i = 0 \/ i = 1 \/ i = 2 ->
  _evaluateEllipticEquationPt (host := host_of 3 1 1) crossing_solver 0 0 i 0 0
  = 0%R.
Proof.
  intros Hi. unfold _evaluateEllipticEquationPt.
  destruct Hi as [-> | [-> | ->]]; unroll; rewrite cpow_one; lra.
Qed.

Lemma Rltb_irrefl (x : R) : Rltb x x = false.
Proof. unfold Rltb. destruct (Rlt_dec x x); [lra|reflexivity]. Qed.

Lemma Rltb_true (x y : R) : (x < y)%R -> Rltb x y = true.
Proof. intros H. unfold Rltb. destruct (Rlt_dec x y); [reflexivity|lra]. Qed.

Lemma Rltb_false (x y : R) : (y <= x)%R -> Rltb x y = false.
Proof. intros H. unfold Rltb. destruct (Rlt_dec x y); [lra|reflexivity]. Qed.

Lemma sign_zero : _sign 0 = 0.
Proof. unfold _sign. destruct (Rlt_dec 0 0); [lra|reflexivity]. Qed.

Lemma sign_pos (x : R) : (0 < x)%R -> _sign x = 1.
Proof. intros H. unfold _sign. destruct (Rlt_dec 0 x); [reflexivity|lra]. Qed.

Lemma sign_neg (x : R) : (x < 0)%R -> _sign x = -1.
Proof.
  intros H. unfold _sign.
  destruct (Rlt_dec 0 x); [lra|]. destruct (Rlt_dec x 0); [reflexivity|lra].
Qed.

Lemma crossing_residual :
  _getMaxResidualAllEqs (host := host_of 3 1 1) crossing_solver 1 = 0%R.
Proof.
  unfold _getMaxResidualAllEqs, _getMaxResidual. unroll.
  rewrite !crossing_eval by lia.
  replace (0 - 0)%R with 0%R by lra. rewrite Rabs_R0, !Rltb_irrefl.
  apply Rmax_left. lra.
Qed.

Lemma crossing_no_warning :
  _singularityExists crossing_solver 0 1 = false.
Proof.
  unfold _singularityExists. unroll. rewrite sign_zero, !Z.mul_0_r. reflexivity.
Qed.

(** The smoother returns at once below the tolerance. *)
Lemma relax_loop_converged {host : Host} (fuel iters : nat)
    (st : FASMultigrid) (depth : Z) :
  (_getMaxResidualAllEqs st depth < relaxation_tolerance st)%R ->
  relax_loop fuel (S iters) st depth = Returned tt st.
Proof. intros H. cbn [relax_loop]. now rewrite Rltb_true. Qed.

(** The run of [VCycles(0)] on the converged solver. *)
Lemma crossing_run :
  VCycles (host := host_of 3 1 1) 1 crossing_solver 0
  = Returned tt
      (fold_left print
         (msg_solution_residual 0 :: summary_lines crossing_solver 0)
         crossing_solver).
Proof.
  unfold VCycles. change (zrange 0) with (@nil Z). cbn [for_each bind].
  unfold _relaxSolution_GaussSeidel.
  change (Z.to_nat 10) with 10%nat.
  change (max_depth crossing_solver) with 1.
  rewrite relax_loop_converged.
  - cbn [bind]. change (max_depth crossing_solver) with 1.
    rewrite crossing_residual. reflexivity.
  - rewrite crossing_residual.
    change (relaxation_tolerance crossing_solver) with 1e-8%R. lra.
Qed.

(** C8.  The summary misses a change of sign when the first entry is
    zero: the solution u = (0, 1, -1) changes sign on the finest grid, and
    the sign of [u[1]] differs from the sign of [u[0]], yet [VCycles]
    prints no warning and prints that the solution stays positive or
    negative.  The test multiplies each sign by the sign of [u[0]], and
    the product with the sign 0 is never negative. *)
Lemma warning_missed_when_first_is_zero :
  exists st',
    VCycles (host := host_of 3 1 1) 1 crossing_solver 0 = Returned tt st' /\
    ~ In (msg_crosses_zero 0) (cout st') /\
    In (msg_stays_signed 0) (cout st') /\
    let u := _array (u_h st' 0 (_dIdx st' (max_depth st'))) in
    (0 < u 1%Z)%R /\ (u 2%Z < 0)%R /\ _sign (u 1) <> _sign (u 0).
Proof.
  eexists. split; [apply crossing_run|].
  cbn [fold_left summary_lines].
  change (max_depth crossing_solver) with 1. rewrite crossing_no_warning.
  cbn [print cout crossing_solver app u_h max_depth _dIdx min_depth _array Z.sub
       Z.eqb Z.pos_sub Z.add Pos.eqb Z.opp].
  split; [|split; [|split; [|split]]].
  - intros [H|[H|[H|[]]]]; discriminate.
  - right. left. reflexivity.
  - lra.
  - lra.
  - rewrite sign_zero, sign_pos by lra. discriminate.
Qed.

Lemma warning_iff_opposite_to_first_witness :
  exists cycled smoothed summary,
    for_each (zrange 0) (fun _ st => VCycle (host := host_of 3 1 1) 1 st)
      crossing_solver = Returned tt cycled /\
    _relaxSolution_GaussSeidel (host := host_of 3 1 1) 1 cycled
      (max_depth cycled) 10 = Returned tt smoothed /\
    cout (fold_left print
            (msg_solution_residual 0 :: summary_lines crossing_solver 0)
            crossing_solver)
    = cout smoothed
      ++ msg_solution_residual
           (_getMaxResidualAllEqs (host := host_of 3 1 1) smoothed
              (max_depth smoothed)) :: summary.
Proof.
  destruct (warning_iff_opposite_to_first (host := host_of 3 1 1) 1
              crossing_solver _ 0 crossing_run)
    as (cycled & smoothed & summary & Hc & Hs & Hcout & _).
  exists cycled, smoothed, summary. auto.
Defined.
(** ** The smoother *)

Section Smoother.

Context {host : Host}.

Lemma scheme_cases (st : FASMultigrid) :
  relax_scheme st = newton \/ relax_scheme st <> newton.
Proof. destruct (relax_scheme st); auto; right; discriminate. Qed.

(** The loop of the smoother on a scheme that is not [newton]. *)
Lemma relax_loop_step (fuel iters : nat) (st : FASMultigrid) (depth : Z) :
  Rltb (_getMaxResidualAllEqs st depth) (relaxation_tolerance st) = false ->
  relax_scheme st <> newton ->
  relax_loop fuel (S iters) st depth
  = let '(norm, st) := relax_norm_rhs st (_dIdx st depth) in
    match _jacobianRelax fuel st depth norm 1 0 with
    | Returned false st => Returned tt st
    | Returned true st =>
        match _getLambda st depth norm with
        | (false, st) => Thrown (-1) (print st msg_no_damping)
        | (true, st) => relax_loop fuel iters st depth
        end
    | Thrown c st => Thrown c st
    | OutOfFuel => OutOfFuel
    end.
Proof.
  intros Hres Hs. cbn [relax_loop]. rewrite Hres.
  destruct (relax_scheme st); try reflexivity. congruence.
Qed.

(** The inner solve never throws. *)
Lemma jacobian_loop_no_throw (fuel : nat) :
  forall st depth_idx norm C p cnt norm_r c st',
    jacobian_loop fuel st depth_idx norm C p cnt norm_r <> Thrown c st'.
Proof.
  induction fuel as [|fuel IH]; intros; cbn [jacobian_loop]; [discriminate|].
  destruct (Rge_dec _ _); [|discriminate].
  destruct (_ && _); [discriminate|]. apply IH.
Qed.

(** The smoother throws when, and only when, it reaches an iteration
    whose line search fails. *)
Lemma relax_loop_throws (fuel iters : nat) (depth : Z) :
  forall st c st',
    relax_loop fuel iters st depth = Thrown c st' <->
    exists s sz sd,
      (s < iters)%nat /\ reaches fuel depth s st sz /\
      line_search_fails fuel depth sz sd /\
      c = -1 /\ st' = print sd msg_no_damping.
Proof.
  induction iters as [|iters IH]; intros st c st'.
  - cbn [relax_loop]. split; [discriminate|].
    intros (s & _ & _ & Hs & _). lia.
  - destruct (Rltb (_getMaxResidualAllEqs st depth) (relaxation_tolerance st))
      eqn:Hres.
    { cbn [relax_loop]. rewrite Hres. split; [discriminate|].
      intros (s & sz & sd & Hs & Hr & (sb & sc & norm & (Hres' & _) & _) & _).
      inversion Hr; subst; congruence. }
    destruct (scheme_cases st) as [Hn|Hn].
    { cbn [relax_loop]. rewrite Hres, Hn. rewrite IH. split.
      - intros (s & sz & sd & Hs & Hr & Hf & Hc).
        exists (S s), sz, sd. split; [lia|]. split; [|tauto].
        now apply reaches_idle.
      - intros (s & sz & sd & Hs & Hr & Hf & Hc).
        inversion Hr; subst.
        + destruct Hf as (sb & sc & norm & (_ & Hs' & _) & _). congruence.
        + exists s0, sz, sd. split; [lia|]. tauto.
        + congruence. }
    rewrite relax_loop_step by assumption.
    destruct (relax_norm_rhs st (_dIdx st depth)) as [norm sb] eqn:Hrhs.
    destruct (_jacobianRelax fuel sb depth norm 1 0) as [[|] sc|c0 sc|] eqn:Hj.
    + destruct (_getLambda sc depth norm) as [[|] sd] eqn:Hl.
      * rewrite IH. split.
        -- intros (s & sz & sd' & Hs & Hr & Hf & Hc).
           exists (S s), sz, sd'. split; [lia|]. split; [|tauto].
           eapply reaches_step; eassumption.
        -- intros (s & sz & sd' & Hs & Hr & Hf & Hc).
           inversion Hr; subst.
           ++ destruct Hf as (sb' & sc' & norm' & (_ & _ & Hrhs') & Hj' & Hl').
              rewrite Hrhs in Hrhs'. inversion Hrhs'; subst.
              rewrite Hj in Hj'. inversion Hj'; subst.
              rewrite Hl in Hl'. discriminate.
           ++ congruence.
           ++ match goal with
              | H : relax_norm_rhs _ _ = _ |- _ =>
                  rewrite Hrhs in H; inversion H; subst
              end.
              match goal with
              | H : _jacobianRelax _ _ _ _ _ _ = _ |- _ =>
                  rewrite Hj in H; inversion H; subst
              end.
              match goal with
              | H : _getLambda _ _ _ = _ |- _ =>
                  rewrite Hl in H; inversion H; subst
              end.
              exists s0, sz, sd'. split; [lia|]. tauto.
      * split.
        -- intros H. inversion H; subst.
           exists 0%nat, st, sd. split; [lia|]. split; [constructor|].
           split; [|tauto]. exists sb, sc, norm. unfold inner_solve_on. tauto.
        -- intros (s & sz & sd' & Hs & Hr & Hf & -> & ->).
           inversion Hr; subst.
           ++ destruct Hf as (sb' & sc' & norm' & (_ & _ & Hrhs') & Hj' & Hl').
              rewrite Hrhs in Hrhs'. inversion Hrhs'; subst.
              rewrite Hj in Hj'. inversion Hj'; subst.
              rewrite Hl in Hl'. inversion Hl'; subst. reflexivity.
           ++ congruence.
           ++ match goal with
              | H : relax_norm_rhs _ _ = _ |- _ =>
                  rewrite Hrhs in H; inversion H; subst
              end.
              match goal with
              | H : _jacobianRelax _ _ _ _ _ _ = _ |- _ =>
                  rewrite Hj in H; inversion H; subst
              end.
              match goal with
              | H : _getLambda _ _ _ = _ |- _ =>
                  rewrite Hl in H; discriminate
              end.
    + split; [discriminate|].
      intros (s & sz & sd' & Hs & Hr & Hf & Hc).
      inversion Hr; subst.
      * destruct Hf as (sb' & sc' & norm' & (_ & _ & Hrhs') & Hj' & Hl').
        rewrite Hrhs in Hrhs'. inversion Hrhs'; subst.
        rewrite Hj in Hj'. discriminate.
      * congruence.
      * match goal with
        | H : relax_norm_rhs _ _ = _ |- _ =>
            rewrite Hrhs in H; inversion H; subst
        end.
        match goal with
        | H : _jacobianRelax _ _ _ _ _ _ = _ |- _ =>
            rewrite Hj in H; discriminate
        end.
    + exfalso. unfold _jacobianRelax in Hj.
      now apply jacobian_loop_no_throw in Hj.
    + split; [discriminate|].
      intros (s & sz & sd' & Hs & Hr & Hf & Hc).
      inversion Hr; subst.
      * destruct Hf as (sb' & sc' & norm' & (_ & _ & Hrhs') & Hj' & Hl').
        rewrite Hrhs in Hrhs'. inversion Hrhs'; subst.
        rewrite Hj in Hj'. discriminate.
      * congruence.
      * match goal with
        | H : relax_norm_rhs _ _ = _ |- _ =>
            rewrite Hrhs in H; inversion H; subst
        end.
        match goal with
        | H : _jacobianRelax _ _ _ _ _ _ = _ |- _ =>
            rewrite Hj in H; discriminate
        end.
Qed.

(** When the smoother reaches an iteration whose inner solve fails, it
    returns (the loop is left, nothing is thrown). *)
Lemma relax_loop_inner_failure (fuel iters : nat) (depth : Z) :
  forall st s sz sc,
    (s < iters)%nat -> reaches fuel depth s st sz ->
    inner_solve_fails fuel depth sz sc ->
    relax_loop fuel iters st depth = Returned tt sc.
Proof.
  induction iters as [|iters IH]; intros st s sz sc Hs Hr Hf; [lia|].
  inversion Hr; subst.
  - destruct Hf as (sb & norm & (Hres & Hn & Hrhs) & Hj).
    rewrite relax_loop_step by assumption. now rewrite Hrhs, Hj.
  - cbn [relax_loop].
    match goal with H : Rltb _ _ = false |- _ => rewrite H end.
    match goal with H : relax_scheme _ = newton |- _ => rewrite H end.
    eapply IH; [|eassumption|eassumption]. lia.
  - rewrite relax_loop_step by assumption.
    match goal with H : relax_norm_rhs _ _ = _ |- _ => rewrite H end.
    match goal with H : _jacobianRelax _ _ _ _ _ _ = _ |- _ => rewrite H end.
    match goal with H : _getLambda _ _ _ = _ |- _ => rewrite H end.
    eapply IH; [|eassumption|eassumption]. lia.
Qed.

(** C3. The smoother raises an error to its caller if and only if it
    reaches an iteration whose line search fails (the error is -1, raised
    after the message); and when it reaches an iteration whose Jacobian
    inner solve fails, it returns without raising, on the solver the inner
    solve left. *)
Theorem smoother_raises_iff_line_search_fails (fuel : nat) (st : FASMultigrid)
    (depth max_iterations : Z) :
  (forall c st',
     _relaxSolution_GaussSeidel fuel st depth max_iterations = Thrown c st' <->
     exists s sz sd,
       (s < Z.to_nat max_iterations)%nat /\ reaches fuel depth s st sz /\
       line_search_fails fuel depth sz sd /\
       c = -1 /\ st' = print sd msg_no_damping) /\
  (forall s sz sc,
     (s < Z.to_nat max_iterations)%nat -> reaches fuel depth s st sz ->
     inner_solve_fails fuel depth sz sc ->
     _relaxSolution_GaussSeidel fuel st depth max_iterations = Returned tt sc).
Proof.
  unfold _relaxSolution_GaussSeidel. split.
  - intros c st'. apply relax_loop_throws.
  - intros s sz sc. apply relax_loop_inner_failure.
Qed.

End Smoother.
(** ** The inner relaxation *)

Lemma cpow_zero_exponent (x : R) : cpow x (1 - 1.0) = 1%R.
Proof.
  replace (1 - 1.0)%R with (IZR 0) by lra. rewrite cpow_int. reflexivity.
Qed.

Lemma coupled_eval_der (v0 v1 : R) (e uid : Z) :
  (e = 0 \/ e = 1) -> (uid = 0 \/ uid = 1) ->
  _evaluateDerEllipticEquation (host := host_of 1 1 1) (coupled_pair v0 v1)
    e 0 0 0 0 uid
  = if uid =? 0 then v0 else v1.
Proof.
  intros He Hu. unfold _evaluateDerEllipticEquation.
  destruct He as [-> | ->], Hu as [-> | ->]; unroll;
    rewrite ?cpow_one, ?cpow_zero_exponent; lra.
Qed.

Lemma coupled_sweep (v0 v1 : R) :
  jacobian_sweep (host := host_of 1 1 1) (coupled_pair v0 v1) 0
  = coupled_pair (- v1) (1 + v1).
Proof.
  unfold jacobian_sweep.
  change (u_n (coupled_pair v0 v1)) with 2.
  change (nx_h (coupled_pair v0 v1) 0) with 1.
  change (ny_h (coupled_pair v0 v1) 0) with 1.
  change (nz_h (coupled_pair v0 v1) 0) with 1.
  change (zrange 2) with [0; 1].
  change (FAS_LOOP3_N 1 1 1) with [(0, 0, 0)].
  cbn [fold_left].
  unfold _evaluateIterationForJacEquation, _evaluateDerEllipticEquation.
  unroll. rewrite ?cpow_one, ?cpow_zero_exponent.
  unfold set_damping_v_h, coupled_pair, store_grid, with_array.
  cbn -[IZR Rplus Rmult Rminus Ropp Rdiv Rinv store Z.eqb].
  f_equal. extensionality e. extensionality d. unfold store.
  cbn -[IZR Rplus Rmult Rminus Ropp Rdiv Rinv].
  destruct (Z.eqb_spec e 0) as [E0|E0], (Z.eqb_spec e 1) as [E1|E1],
    (d =? 0) eqn:D0; try lia; cbn [andb]; try reflexivity;
    f_equal; extensionality i; destruct (i =? 0); try reflexivity; field.
Qed.

Lemma coupled_norm (v0 v1 : R) :
  jacobian_norm (host := host_of 1 1 1) (coupled_pair v0 v1) 0
  = ((v0 + v1) * (v0 + v1) + (v0 + v1 - 1) * (v0 + v1 - 1))%R.
Proof.
  unfold jacobian_norm.
  change (u_n (coupled_pair v0 v1)) with 2.
  change (nx_h (coupled_pair v0 v1) 0) with 1.
  change (ny_h (coupled_pair v0 v1) 0) with 1.
  change (nz_h (coupled_pair v0 v1) 0) with 1.
  change (zrange 2) with [0; 1].
  change (FAS_LOOP3_N 1 1 1) with [(0, 0, 0)].
  cbn [fold_left]. rewrite !coupled_eval_der by lia.
  unroll. lra.
Qed.

Lemma coupled_zero (v0 v1 : R) :
  jacobian_zero (coupled_pair v0 v1) 0 = coupled_pair 0 0.
Proof.
  unfold jacobian_zero.
  change (u_n (coupled_pair v0 v1)) with 2.
  change (nx_h (coupled_pair v0 v1) 0) with 1.
  change (ny_h (coupled_pair v0 v1) 0) with 1.
  change (nz_h (coupled_pair v0 v1) 0) with 1.
  change (FAS_LOOP3_N 1 1 1) with [(0, 0, 0)].
  cbn [fold_left].
  change (u_n (coupled_pair v0 v1)) with 2.
  change (zrange 2) with [0; 1].
  cbn [fold_left].
  unfold set_damping_v_h, coupled_pair, store_grid, with_array.
  cbn -[IZR Rplus Rmult Rminus Ropp Rdiv Rinv store Z.eqb].
  f_equal. extensionality e. extensionality d. unfold store.
  cbn -[IZR Rplus Rmult Rminus Ropp Rdiv Rinv].
  destruct (Z.eqb_spec e 0) as [E0|E0], (Z.eqb_spec e 1) as [E1|E1],
    (d =? 0) eqn:D0; try lia; cbn [andb]; try reflexivity;
    f_equal; extensionality i; destruct (i =? 0); try reflexivity; lra.
Qed.

Section InnerRelaxation.

Context {host : Host}.

Lemma sweeps_shift (n : nat) (st : FASMultigrid) (depth_idx : Z) :
  sweeps (S n) st depth_idx = sweeps n (jacobian_sweep st depth_idx) depth_idx.
Proof.
  induction n as [|n IH]; [reflexivity|].
  cbn [sweeps] in *. now rewrite IH.
Qed.

Lemma norm_from_shift (n : nat) (norm_r : R) (st : FASMultigrid) (depth_idx : Z) :
  norm_from norm_r st depth_idx (S n)
  = norm_from (jacobian_norm (jacobian_sweep st depth_idx) depth_idx)
      (jacobian_sweep st depth_idx) depth_idx n.
Proof.
  destruct n as [|n]; [reflexivity|].
  unfold norm_from. now rewrite sweeps_shift.
Qed.

(** What an outcome of the loop of the inner relaxation tells. *)
Lemma jacobian_loop_returns (depth_idx : Z) (norm C : R) (p : Z) (fuel : nat) :
  forall st cnt norm_r b st',
    jacobian_loop fuel st depth_idx norm C p cnt norm_r = Returned b st' ->
    exists k : nat,
      (forall m, (m < k)%nat ->
         (norm_from norm_r st depth_idx m
          >= Rmin (cpow norm (IZR (p + 1)) * C) norm)%R) /\
      (b = true ->
         st' = sweeps k st depth_idx /\
         (norm_from norm_r st depth_idx k
          < Rmin (cpow norm (IZR (p + 1)) * C) norm)%R) /\
      (b = false ->
         (1 <= k)%nat /\ 500 < cnt + Z.of_nat k /\
         st' = print (sweeps k st depth_idx) (msg_unable (cnt + Z.of_nat k)) /\
         (0 < norm_from norm_r st depth_idx k)%R).
Proof.
  induction fuel as [|fuel IH]; intros st cnt norm_r b st' H;
    cbn [jacobian_loop] in H; [discriminate|].
  destruct (Rge_dec norm_r (Rmin (cpow norm (IZR (p + 1)) * C) norm)) as [Hge|Hlt].
  - destruct ((500 <? cnt + 1)
              && Rltb 0.0 (jacobian_norm (jacobian_sweep st depth_idx) depth_idx))
      eqn:Hstop.
    + apply andb_true_iff in Hstop. destruct Hstop as [Hc Hn].
      apply Z.ltb_lt in Hc. unfold Rltb in Hn.
      destruct (Rlt_dec 0.0 _) as [Hpos|]; [|discriminate].
      inversion H; subst. exists 1%nat. split; [|split].
      * intros m Hm. replace m with 0%nat by lia. exact Hge.
      * discriminate.
      * intros _. cbn [sweeps norm_from Z.of_nat Pos.of_succ_nat].
        repeat split; try lia. lra.
    + apply IH in H. destruct H as (k & Hk & Ht & Hf).
      exists (S k). split; [|split].
      * intros m Hm. destruct m as [|m]; [exact Hge|].
        rewrite norm_from_shift. apply Hk. lia.
      * intros Hb. destruct (Ht Hb) as [-> Hl].
        now rewrite sweeps_shift, norm_from_shift.
      * intros Hb. destruct (Hf Hb) as (H1 & H2 & -> & H4).
        rewrite sweeps_shift, norm_from_shift.
        replace (cnt + Z.of_nat (S k)) with (cnt + 1 + Z.of_nat k) by lia.
        repeat split; try lia; assumption.
  - inversion H; subst. exists 0%nat. split; [|split].
    + intros m Hm. lia.
    + intros _. split; [reflexivity|]. cbn [norm_from]. lra.
    + discriminate.
Qed.


(** The loop returns false at the sweep 501 when the norm never went below
    the bound before, and is not zero then. *)
Lemma jacobian_loop_fails (depth_idx : Z) (norm C : R) (p : Z) (k : nat) :
  forall fuel st cnt norm_r,
    (forall m, (m < k)%nat ->
       (norm_from norm_r st depth_idx m
        >= Rmin (cpow norm (IZR (p + 1)) * C) norm)%R) ->
    (0 < norm_from norm_r st depth_idx k)%R ->
    (1 <= k)%nat -> 0 <= cnt -> cnt + Z.of_nat k = 501 -> (k <= fuel)%nat ->
    jacobian_loop fuel st depth_idx norm C p cnt norm_r
    = Returned false (print (sweeps k st depth_idx) (msg_unable 501)).
Proof.
  induction k as [|k IH]; intros fuel st cnt norm_r Hge Hpos H1 Hc Hk Hf; [lia|].
  destruct fuel as [|fuel]; [lia|]. cbn [jacobian_loop].
  pose proof (Hge 0%nat ltac:(lia)) as H0. cbn [norm_from] in H0.
  destruct (Rge_dec norm_r _) as [H|H]; [|lra].
  destruct k as [|k].
  - cbn [norm_from sweeps] in Hpos.
    replace (500 <? cnt + 1) with true by (symmetry; apply Z.ltb_lt; lia).
    rewrite Rltb_true by lra. cbn [andb sweeps].
    replace (cnt + 1) with 501 by lia. reflexivity.
  - replace (500 <? cnt + 1) with false by (symmetry; apply Z.ltb_ge; lia).
    cbn [andb]. rewrite sweeps_shift. apply IH; try lia.
    + intros m Hm. rewrite <- (norm_from_shift m norm_r). apply Hge. lia.
    + now rewrite <- (norm_from_shift _ norm_r).
Qed.

Lemma bound_C1_p0 (S : R) : Rmin (cpow S (IZR (0 + 1)) * 1) S = S.
Proof.
  change (0 + 1) with 1. rewrite cpow_one, Rmult_1_r. apply Rmin_left. lra.
Qed.


End InnerRelaxation.

(** After n + 1 sweeps the corrections of the coupled pair are -n and
    n + 1, and the norm of the linearized residual is 1. *)
Lemma coupled_sweeps (n : nat) :
  sweeps (host := host_of 1 1 1) (S n) (coupled_pair 0 0) 0
  = coupled_pair (- INR n) (INR n + 1).
Proof.
  induction n as [|n IH].
  - cbn [sweeps]. rewrite coupled_sweep. cbn [INR]. f_equal; lra.
  - cbn [sweeps] in *. rewrite IH, coupled_sweep, S_INR. f_equal; lra.
Qed.

Lemma coupled_norm_from (m : nat) :
  (norm_from (host := host_of 1 1 1) 1e100 (coupled_pair 0 0) 0 m >= 1)%R.
Proof.
  destruct m as [|m].
  - cbn [norm_from]. lra.
  - unfold norm_from. rewrite coupled_sweeps, coupled_norm. nra.
Qed.

(** On the coupled pair the inner relaxation returns failure at the
    sweep 501. *)
Lemma coupled_inner_solve_fails :
  _jacobianRelax (host := host_of 1 1 1) 501 (coupled_pair 0 0) 1 1 1 0
  = Returned false (print (coupled_pair (- 500) 501) (msg_unable 501)).
Proof.
  unfold _jacobianRelax. change (_dIdx (coupled_pair 0 0) 1) with 0.
  rewrite coupled_zero.
  rewrite (jacobian_loop_fails 0 1 1 0 501).
  - assert (E : INR 500 = 500%R) by (rewrite INR_IZR_INZ; reflexivity).
    rewrite coupled_sweeps, E.
    replace (- (500))%R with (-500)%R by lra.
    replace (500 + 1)%R with 501%R by lra. reflexivity.
  - intros m _. rewrite bound_C1_p0. apply coupled_norm_from.
  - pose proof (coupled_norm_from 501). lra.
  - lia.
  - lia.
  - reflexivity.
  - lia.
Qed.



(** ** The smoother on the coupled pair *)

Lemma coupled_eval (v0 v1 : R) (e : Z) :
  _evaluateEllipticEquationPt (host := host_of 1 1 1) (coupled_pair v0 v1)
    e 0 0 0 0 = 0%R.
Proof.
  unfold _evaluateEllipticEquationPt. unroll. rewrite ?cpow_one. lra.
Qed.

Lemma coupled_residual (v0 v1 : R) :
  _getMaxResidualAllEqs (host := host_of 1 1 1) (coupled_pair v0 v1) 1 = 1%R.
Proof.
  unfold _getMaxResidualAllEqs, _getMaxResidual.
  change (u_n (coupled_pair v0 v1)) with 2.
  change (_dIdx (coupled_pair v0 v1) 1) with 0.
  change (nx_h (coupled_pair v0 v1) 0) with 1.
  change (ny_h (coupled_pair v0 v1) 0) with 1.
  change (nz_h (coupled_pair v0 v1) 0) with 1.
  change (zrange 2) with [0; 1].
  change (FAS_LOOP3_N 1 1 1) with [(0, 0, 0)].
  cbn [fold_left]. rewrite !coupled_eval. unroll.
  replace (0 - 0)%R with 0%R by lra. replace (1 - 0)%R with 1%R by lra.
  rewrite Rabs_R0, Rabs_R1, Rltb_irrefl, Rltb_true by lra.
  rewrite (Rmax_left 0 0) by lra. apply Rmax_right. lra.
Qed.

Lemma coupled_norm_rhs (v0 v1 : R) :
  relax_norm_rhs (host := host_of 1 1 1) (coupled_pair v0 v1) 0
  = (1%R, coupled_pair v0 v1).
Proof.
  unfold relax_norm_rhs.
  change (u_n (coupled_pair v0 v1)) with 2.
  change (nx_h (coupled_pair v0 v1) 0) with 1.
  change (ny_h (coupled_pair v0 v1) 0) with 1.
  change (nz_h (coupled_pair v0 v1) 0) with 1.
  change (zrange 2) with [0; 1].
  change (FAS_LOOP3_N 1 1 1) with [(0, 0, 0)].
  cbn [fold_left].
  unfold _evaluateEllipticEquationPt. unroll. rewrite ?cpow_one.
  f_equal; [lra|].
  unfold set_jac_rhs_h, coupled_pair, store_grid, with_array.
  cbn -[IZR Rplus Rmult Rminus Ropp Rdiv Rinv store Z.eqb].
  f_equal. extensionality e. extensionality d. unfold store.
  cbn -[IZR Rplus Rmult Rminus Ropp Rdiv Rinv].
  destruct (Z.eqb_spec e 0) as [E0|E0], (Z.eqb_spec e 1) as [E1|E1],
    (d =? 0) eqn:D0; try lia; cbn [andb]; try reflexivity;
    f_equal; extensionality i; destruct (i =? 0); try reflexivity; lra.
Qed.

(** The smoother on the coupled pair: the inner solve of its first
    iteration fails and the smoother returns. *)
Lemma smoother_raises_iff_line_search_fails_witness :
  _relaxSolution_GaussSeidel (host := host_of 1 1 1) 501 (coupled_pair 0 0) 1 10
  = Returned tt (print (coupled_pair (- 500) 501) (msg_unable 501)).
Proof.
  apply (proj2 (smoother_raises_iff_line_search_fails (host := host_of 1 1 1)
                  501 (coupled_pair 0 0) 1 10) 0%nat (coupled_pair 0 0)).
  - change (Z.to_nat 10) with 10%nat. lia.
  - constructor.
  - exists (coupled_pair 0 0), 1%R. split; [split; [|split]|].
    + rewrite coupled_residual. apply Rltb_false.
      change (relaxation_tolerance (coupled_pair 0 0)) with 1e-8%R. lra.
    + discriminate.
    + apply coupled_norm_rhs.
    + apply coupled_inner_solve_fails.
Defined.
(** ** The dependence test of the derivative evaluator *)

(** C1.  The source does not test [u_id == j] in the Laplacian branch of
    [eval_der] but [eqn_id == ad.u_id].  In the coupled system
    E1 = Lap(u_0) + u_1 the derivative of E1 with respect to u_1, applied to
    v_1 = (1, 0, 0), is v_1 = 1 at the first site; the source adds to it the
    Laplacian of v_1 (-18 on this grid), since the Laplacian atom of
    equation 0 acts on u_0. *)
Theorem eval_der_laplacian_tests_equation :
  _evaluateDerEllipticEquation (host := host_of 3 1 1) laplace_pair 0 0 0 0 0 1
  = (-17)%R /\
  eval_der_uniform (host := host_of 3 1 1) laplace_pair 0 0 0 0 0 1 = 1%R.
Proof.
  split.
  - unfold _evaluateDerEllipticEquation. unroll.
    rewrite ?cpow_one, ?cpow_zero_exponent.
    unfold laplacian2, double_derivative2, at_site, axis_shift.
    unroll. field.
  - unfold eval_der_uniform, der_atom_uniform. unroll.
    rewrite ?cpow_one, ?cpow_zero_exponent.
    unfold laplacian2, double_derivative2, at_site, axis_shift.
    unroll. field.
Qed.

(** * Further properties of the code *)

(** ** Building the equations *)

Lemma add_atoms_spec (eqn_id molecule_id : Z) (l : list atom) :
  forall st,
    let st' := fold_left (fun st a => add_atom_to_eqn st a molecule_id eqn_id) l st in
    atom_n (eqns st' eqn_id molecule_id)
    = atom_n (eqns st eqn_id molecule_id) + Z.of_nat (length l) /\
    (forall n, (n < length l)%nat ->
       atoms (eqns st' eqn_id molecule_id)
         (atom_n (eqns st eqn_id molecule_id) + Z.of_nat n)
       = nth n l (mk_atom 0 0 0%R)) /\
    (forall x, x < atom_n (eqns st eqn_id molecule_id) ->
       atoms (eqns st' eqn_id molecule_id) x = atoms (eqns st eqn_id molecule_id) x) /\
    const_coef (eqns st' eqn_id molecule_id) = const_coef (eqns st eqn_id molecule_id) /\
    (forall e m, e <> eqn_id \/ m <> molecule_id -> eqns st' e m = eqns st e m).
Proof.
  induction l as [|a l IH]; intros st; cbn [fold_left length].
  - cbv zeta. splits; intros; try reflexivity; try lia.
  - specialize (IH (add_atom_to_eqn st a molecule_id eqn_id)). cbv zeta in IH |- *.
    destruct IH as (Hn & Hat & Hlow & Hc & Hfr).
    assert (E : eqns (add_atom_to_eqn st a molecule_id eqn_id) eqn_id molecule_id
                = add_atom (eqns st eqn_id molecule_id) a).
    { unfold add_atom_to_eqn. cbn [eqns set_eqns]. now rewrite !store_same. }
    rewrite E in *. cbn [atom_n add_atom atoms const_coef] in *.
    splits.
    + rewrite Hn. lia.
    + intros n Hlt. destruct n as [|n].
      * cbn [nth]. rewrite Z.add_0_r, Hlow by lia. apply store_same.
      * cbn [nth]. rewrite <- Hat by lia. f_equal. lia.
    + intros x Hx. rewrite Hlow by lia. apply store_other. lia.
    + exact Hc.
    + intros e m Hne. rewrite Hfr by assumption.
      unfold add_atom_to_eqn. cbn [eqns set_eqns]. unfold store.
      destruct (Z.eqb_spec e eqn_id) as [->|]; [|reflexivity].
      destruct (Z.eqb_spec m molecule_id) as [->|]; [lia|reflexivity].
Qed.

(** X1. A molecule is built by [init] and then [add_atom]: after [init]
    and the addition of the atoms of [l] (no more of them than [init]
    allocated), the molecule has [length l] atoms, its atom number [n] is
    the [n]-th atom added, its coefficient is the one given to [init], and
    no other molecule has changed. *)
Theorem atoms_are_added_in_order (st : FASMultigrid)
    (eqn_id molecule_id atom_n_in : Z) (const_coef_in : R) (l : list atom) :
  Z.of_nat (length l) <= atom_n_in ->
  let st' :=
    fold_left (fun st a => add_atom_to_eqn st a molecule_id eqn_id) l
      (init_molecule st eqn_id molecule_id atom_n_in const_coef_in) in
  atom_n (eqns st' eqn_id molecule_id) = Z.of_nat (length l) /\
  (forall n, (n < length l)%nat ->
     atoms (eqns st' eqn_id molecule_id) (Z.of_nat n) = nth n l (mk_atom 0 0 0%R)) /\
  const_coef (eqns st' eqn_id molecule_id) = const_coef_in /\
  (forall e m, e <> eqn_id \/ m <> molecule_id -> eqns st' e m = eqns st e m).
Proof.
  intros _. cbv zeta.
  destruct (add_atoms_spec eqn_id molecule_id l
              (init_molecule st eqn_id molecule_id atom_n_in const_coef_in))
    as (Hn & Hat & _ & Hc & Hfr).
  assert (E : eqns (init_molecule st eqn_id molecule_id atom_n_in const_coef_in)
                eqn_id molecule_id = molecule_init atom_n_in const_coef_in).
  { unfold init_molecule. cbn [eqns set_eqns]. now rewrite !store_same. }
  rewrite E in *. cbn [atom_n molecule_init const_coef] in *.
  splits; try assumption.
  intros e m Hne. rewrite Hfr by assumption.
  unfold init_molecule. cbn [eqns set_eqns]. unfold store.
  destruct (Z.eqb_spec e eqn_id) as [->|]; [|reflexivity].
  destruct (Z.eqb_spec m molecule_id) as [->|]; [lia|reflexivity].
Qed.

Lemma atoms_are_added_in_order_witness :
  let l := [mk_atom 11 0 0%R; mk_atom 1 1 2%R] in
  let st' :=
    fold_left (fun st a => add_atom_to_eqn st a 1 0) l
      (init_molecule laplace_pair 0 1 2 1%R) in
  atom_n (eqns st' 0 1) = 2 /\
  atoms (eqns st' 0 1) 1 = mk_atom 1 1 2%R.
Proof.
  intros l st'.
  destruct (atoms_are_added_in_order laplace_pair 0 1 2 1%R l) as (Hn & Hat & _).
  - cbn. lia.
  - split; [exact Hn|]. apply (Hat 1%nat). cbn. lia.
Defined.

Section Evaluators.

Context {host : Host}.

(** X2. The constant coefficient of a molecule is never read: whatever
    coefficients the molecules carry, the operator, its derivative and the
    Jacobi coefficients are the same. *)
Theorem evaluators_ignore_const_coef (st : FASMultigrid) (c : Z -> Z -> R)
    (eqn_id depth_idx i j k uid : Z) (coef_a coef_b : R) :
  _evaluateEllipticEquationPt (with_const_coefs st c) eqn_id depth_idx i j k
  = _evaluateEllipticEquationPt st eqn_id depth_idx i j k /\
  _evaluateDerEllipticEquation (with_const_coefs st c) eqn_id depth_idx i j k uid
  = _evaluateDerEllipticEquation st eqn_id depth_idx i j k uid /\
  _evaluateIterationForJacEquation (with_const_coefs st c) eqn_id depth_idx
    coef_a coef_b i j k uid
  = _evaluateIterationForJacEquation st eqn_id depth_idx coef_a coef_b i j k uid.
Proof. splits; reflexivity. Qed.

End Evaluators.

(** ** The evaluators as sums over the molecules *)

Lemma zrange_nonpos (n : Z) : n <= 0 -> zrange n = [].
Proof. intros H. unfold zrange. now replace (Z.to_nat n) with 0%nat by lia. Qed.

Lemma length_zrange (n : Z) : length (zrange n) = Z.to_nat n.
Proof. unfold zrange. now rewrite length_map, length_seq. Qed.

(** A loop that adds [g x] to its accumulator. *)
Lemma fold_left_sum {A} (g : A -> R) (l : list A) :
  forall a, fold_left (fun r x => (r + g x)%R) l a = (a + Rsum (map g l))%R.
Proof.
  induction l as [|x l IH]; intros a; simpl; [lra|]. rewrite IH. lra.
Qed.

Lemma Rsum_const {A} (c : R) (l : list A) :
  Rsum (map (fun _ => c) l) = (INR (length l) * c)%R.
Proof.
  induction l as [|x l IH]; [simpl; lra|].
  cbn [map Rsum fold_right length]. fold (Rsum (map (fun _ : A => c) l)).
  rewrite IH, S_INR. lra.
Qed.

(** An invariant of a loop, its body being run on the elements of [l]. *)
Lemma fold_left_inv {A B} (P : A -> Prop) (f : A -> B -> A) (l : list B) :
  (forall a x, In x l -> P a -> P (f a x)) ->
  forall a, P a -> P (fold_left f l a).
Proof.
  induction l as [|x l IH]; intros H a Ha; simpl; [exact Ha|].
  apply IH; [intros; apply H; [now right|assumption]|].
  apply H; [now left|assumption].
Qed.

(** Two loops over the same list that keep a relation between their
    accumulators. *)
Lemma fold_left_rel {A B C} (Q : A -> B -> Prop) (f : A -> C -> A)
    (g : B -> C -> B) (l : list C) :
  (forall a b x, In x l -> Q a b -> Q (f a x) (g b x)) ->
  forall a b, Q a b -> Q (fold_left f l a) (fold_left g l b).
Proof.
  induction l as [|x l IH]; intros H a b Hab; simpl; [exact Hab|].
  apply IH; [intros; apply H; [now right|assumption]|].
  apply H; [now left|assumption].
Qed.

Section Linearization.

Context {host : Host}.

(** X3. A molecule without atoms is the empty product: it contributes 1
    to the operator and 0 to its derivative.  An equation none of whose
    molecules has an atom (as the constructor leaves them) evaluates to its
    number of molecules. *)
Theorem molecules_without_atoms (st : FASMultigrid)
    (eqn_id depth_idx i j k uid : Z) :
  (forall m, 0 <= m < molecule_n st eqn_id -> atom_n (eqns st eqn_id m) <= 0) ->
  _evaluateEllipticEquationPt st eqn_id depth_idx i j k
  = IZR (Z.max 0 (molecule_n st eqn_id)) /\
  _evaluateDerEllipticEquation st eqn_id depth_idx i j k uid = 0%R.
Proof.
  intros H. split.
  - unfold _evaluateEllipticEquationPt. rewrite fold_left_sum.
    rewrite (Rsum_ext_in _ (fun _ => 1%R)).
    + rewrite Rsum_const, length_zrange, INR_IZR_INZ.
      replace (Z.of_nat (Z.to_nat (molecule_n st eqn_id)))
        with (Z.max 0 (molecule_n st eqn_id)) by lia.
      lra.
    + intros m Hm. apply In_zrange in Hm. now rewrite zrange_nonpos by auto.
  - unfold _evaluateDerEllipticEquation. rewrite fold_left_sum.
    rewrite (Rsum_ext_in _ (fun _ => 0%R)).
    + rewrite Rsum_zero. lra.
    + intros m Hm. apply In_zrange in Hm. now rewrite zrange_nonpos by auto.
Qed.

(** X4. The derivative of an equation with respect to an unknown that no
    atom of the equation depends on is zero.  An atom of type 1 to 10
    depends on the unknown [u_id] it names; the source makes a Laplacian
    atom depend on the unknown it names when this unknown has the number
    of the equation. *)
Theorem derivative_in_absent_unknown (st : FASMultigrid)
    (eqn_id depth_idx i j k uid : Z) :
  (forall m a, 0 <= m < molecule_n st eqn_id ->
     0 <= a < atom_n (eqns st eqn_id m) ->
     let ad := atoms (eqns st eqn_id m) a in
     type ad = 0 \/ (type ad <= 10 /\ u_id ad <> uid) \/
     (10 < type ad /\ u_id ad <> eqn_id)) ->
  _evaluateDerEllipticEquation st eqn_id depth_idx i j k uid = 0%R.
Proof.
  intros H. unfold _evaluateDerEllipticEquation. rewrite fold_left_sum.
  rewrite (Rsum_ext_in _ (fun _ => 0%R)); [rewrite Rsum_zero; lra|].
  intros m Hm. apply In_zrange in Hm.
  apply (fold_left_inv (fun acc : R * R => snd acc = 0%R)); [|reflexivity].
  intros [n d] a Ha Hd. apply In_zrange in Ha. cbn [snd] in Hd. subst d.
  specialize (H m a Hm Ha). cbv zeta in H. unfold der_atom. cbn [fst snd].
  destruct H as [H | [[H1 H2] | [H1 H2]]].
  - rewrite H. cbn [Z.eqb snd]. lra.
  - destruct (Z.eqb_spec (type (atoms (eqns st eqn_id m) a)) 0);
      [cbn [snd]; lra|].
    apply Z.eqb_neq in H2. rewrite (Z.eqb_sym uid), H2.
    destruct (_ =? 1); [cbn [snd]; lra|].
    destruct (_ <=? 4); [cbn [snd]; lra|].
    replace (type (atoms (eqns st eqn_id m) a) <=? 10) with true
      by (symmetry; apply Z.leb_le; lia).
    cbn [snd]. lra.
  - replace (type (atoms (eqns st eqn_id m) a) =? 0) with false
      by (symmetry; apply Z.eqb_neq; lia).
    replace (type (atoms (eqns st eqn_id m) a) =? 1) with false
      by (symmetry; apply Z.eqb_neq; lia).
    replace (type (atoms (eqns st eqn_id m) a) <=? 4) with false
      by (symmetry; apply Z.leb_gt; lia).
    replace (type (atoms (eqns st eqn_id m) a) <=? 10) with false
      by (symmetry; apply Z.leb_gt; lia).
    apply Z.eqb_neq in H2. rewrite (Z.eqb_sym eqn_id), H2. cbn [snd]. lra.
Qed.

Lemma jac_atom_split (st : FASMultigrid) (eqn_id mol_id depth_idx i j k : Z)
    (acc : jac_acc) (nd : R * R) (ad : atom) :
  nx (u_h st eqn_id depth_idx) = nx (damping_v_h st eqn_id depth_idx) ->
  ny (u_h st eqn_id depth_idx) = ny (damping_v_h st eqn_id depth_idx) ->
  nz (u_h st eqn_id depth_idx) = nz (damping_v_h st eqn_id depth_idx) ->
  let v := _array (damping_v_h st eqn_id depth_idx)
             (H_INDEX i j k (nx_h st depth_idx) (ny_h st depth_idx)
                (nz_h st depth_idx)) in
  split_agrees v acc nd ->
  split_agrees v (jac_atom st eqn_id mol_id depth_idx i j k eqn_id acc ad)
    (der_atom st eqn_id mol_id depth_idx i j k eqn_id nd ad).
Proof.
  intros Ex Ey Ez v. destruct acc as [a b n d], nd as [n' d'].
  unfold split_agrees. cbn [non_der_val der_val mol_to_a mol_to_b fst snd].
  intros (-> & -> & Hs). unfold jac_atom, der_atom.
  cbn [non_der_val der_val mol_to_a mol_to_b fst snd]. fold v.
  destruct (type ad =? 0);
    [cbn [non_der_val der_val mol_to_a mol_to_b fst snd]; splits;
       try reflexivity; rewrite <- Hs; ring|].
  destruct (type ad =? 1).
  { destruct (eqn_id =? u_id ad);
      cbn [non_der_val der_val mol_to_a mol_to_b fst snd]; splits;
        try reflexivity; rewrite <- Hs; ring. }
  destruct (type ad <=? 4).
  { destruct (eqn_id =? u_id ad);
      cbn [non_der_val der_val mol_to_a mol_to_b fst snd]; splits;
        try reflexivity; rewrite <- Hs; ring. }
  destruct (type ad <=? 10).
  { destruct (eqn_id =? u_id ad);
      cbn [non_der_val der_val mol_to_a mol_to_b fst snd]; splits;
        try reflexivity; rewrite <- Hs; unfold Rdiv; ring. }
  destruct (Z.eqb_spec eqn_id (u_id ad)) as [E|E];
    cbn [non_der_val der_val mol_to_a mol_to_b fst snd]; splits;
      try reflexivity; rewrite <- Hs.
  - rewrite <- E, Ex, Ey, Ez. unfold Rdiv. ring.
  - ring.
Qed.

(** X5. In exact arithmetic, the two coefficients of the Jacobi update
    split the derivative of the equation with respect to its own unknown:
    with [v] the value of the correction at the site, [coef_a + coef_b * v]
    has grown by this derivative (the grids of the unknown and of its
    correction having the same dimensions).  The source computes the two
    sides by different sums and products, each rounded. *)
Theorem jacobi_coefficients_split_derivative (st : FASMultigrid)
    (eqn_id depth_idx i j k : Z) (coef_a coef_b : R) :
  nx (u_h st eqn_id depth_idx) = nx (damping_v_h st eqn_id depth_idx) ->
  ny (u_h st eqn_id depth_idx) = ny (damping_v_h st eqn_id depth_idx) ->
  nz (u_h st eqn_id depth_idx) = nz (damping_v_h st eqn_id depth_idx) ->
  let v := _array (damping_v_h st eqn_id depth_idx)
             (H_INDEX i j k (nx_h st depth_idx) (ny_h st depth_idx)
                (nz_h st depth_idx)) in
  let ab := _evaluateIterationForJacEquation st eqn_id depth_idx coef_a coef_b
              i j k eqn_id in
  (fst ab + snd ab * v)%R
  = (coef_a + coef_b * v
     + _evaluateDerEllipticEquation st eqn_id depth_idx i j k eqn_id)%R.
Proof.
  intros Ex Ey Ez v ab. unfold ab, _evaluateIterationForJacEquation,
    _evaluateDerEllipticEquation.
  apply (fold_left_rel
    (fun (p : R * R) (res : R) =>
       (fst p + snd p * v)%R = (coef_a + coef_b * v + res)%R)).
  - intros [a b] res m _ H. cbn [fst snd] in *.
    assert (G : split_agrees v
      (fold_left (fun acc atom_id =>
         jac_atom st eqn_id m depth_idx i j k eqn_id acc
           (atoms (eqns st eqn_id m) atom_id))
         (zrange (atom_n (eqns st eqn_id m))) (mk_acc 0 0 1 0))
      (fold_left (fun acc atom_id =>
         der_atom st eqn_id m depth_idx i j k eqn_id acc
           (atoms (eqns st eqn_id m) atom_id))
         (zrange (atom_n (eqns st eqn_id m))) (1%R, 0%R))).
    { apply (fold_left_rel (split_agrees v)).
      - intros acc nd x _ Hacc. now apply jac_atom_split.
      - unfold split_agrees. cbn. splits; try reflexivity. lra. }
    destruct G as (_ & _ & G). rewrite <- G. lra.
  - cbn [fst snd]. lra.
Qed.

End Linearization.

Lemma molecules_without_atoms_witness :
  let st := init_molecule (flat_solver 2 2 2 3 5) 0 0 4 1%R in
  _evaluateEllipticEquationPt (host := host_of 2 2 2) st 0 0 1 1 1 = 1%R.
Proof.
  intros st.
  apply (proj1 (molecules_without_atoms (host := host_of 2 2 2) st 0 0 1 1 1 0
                  ltac:(intros m Hm; change (0 <= m < 1) in Hm;
                        replace m with 0 by lia; cbn; lia))).
Defined.

Lemma derivative_in_absent_unknown_witness :
  _evaluateDerEllipticEquation (host := host_of 2 2 2) (flat_solver 2 2 2 3 5)
    0 0 1 1 1 1 = 0%R.
Proof.
  apply (derivative_in_absent_unknown (host := host_of 2 2 2)).
  intros m a _ _. right. left. cbn. lia.
Defined.

Lemma jacobi_coefficients_split_derivative_witness :
  let v := _array (damping_v_h laplace_pair 0 0) (H_INDEX 1 0 0 3 1 1) in
  let ab := _evaluateIterationForJacEquation (host := host_of 3 1 1)
              laplace_pair 0 0 0 0 1 0 0 0 in
  (fst ab + snd ab * v)%R
  = (0 + 0 * v
     + _evaluateDerEllipticEquation (host := host_of 3 1 1) laplace_pair
         0 0 1 0 0 0)%R.
Proof.
  intros v ab.
  apply (jacobi_coefficients_split_derivative (host := host_of 3 1 1)
           laplace_pair 0 0 1 0 0 0 0); reflexivity.
Defined.

Lemma Rsum_scale_r {A} (c : R) (f : A -> R) (l : list A) :
  Rsum (map (fun x => f x * c)%R l) = (Rsum (map f l) * c)%R.
Proof. induction l; simpl; [lra|]. rewrite IHl. lra. Qed.

(** ** The reductions of a grid *)

(** The running maximum of [f] over [l], started at [m0]. *)
Lemma fold_max_spec {T} (f : T -> R) (l : list T) :
  forall m0,
    let M := fold_left (fun m t => if Rltb m (f t) then f t else m) l m0 in
    (m0 <= M)%R /\ (forall t, In t l -> (f t <= M)%R) /\
    (M = m0 \/ exists t, In t l /\ M = f t).
Proof.
  induction l as [|x l IH]; intros m0; cbn [fold_left].
  - cbv zeta. splits; [lra|intros t []|now left].
  - specialize (IH (if Rltb m0 (f x) then f x else m0)). cbv zeta in IH |- *.
    destruct IH as (H1 & H2 & H3). unfold Rltb in *.
    destruct (Rlt_dec m0 (f x)) as [Hlt|Hge].
    + splits.
      * lra.
      * intros t [<-|Ht]; [exact H1|now apply H2].
      * right. destruct H3 as [H3|(t & Ht & H3)].
        -- exists x. split; [now left|exact H3].
        -- exists t. split; [now right|exact H3].
    + splits.
      * exact H1.
      * intros t [<-|Ht]; [lra|now apply H2].
      * destruct H3 as [H3|(t & Ht & H3)]; [now left|].
        right. exists t. split; [now right|exact H3].
Qed.

(** The running minimum of [f] over [l], started at [m0]. *)
Lemma fold_min_spec {T} (f : T -> R) (l : list T) :
  forall m0,
    let M := fold_left (fun m t => if Rltb (f t) m then f t else m) l m0 in
    (M <= m0)%R /\ (forall t, In t l -> (M <= f t)%R) /\
    (M = m0 \/ exists t, In t l /\ M = f t).
Proof.
  induction l as [|x l IH]; intros m0; cbn [fold_left].
  - cbv zeta. splits; [lra|intros t []|now left].
  - specialize (IH (if Rltb (f x) m0 then f x else m0)). cbv zeta in IH |- *.
    destruct IH as (H1 & H2 & H3). unfold Rltb in *.
    destruct (Rlt_dec (f x) m0) as [Hlt|Hge].
    + splits.
      * lra.
      * intros t [<-|Ht]; [exact H1|now apply H2].
      * right. destruct H3 as [H3|(t & Ht & H3)].
        -- exists x. split; [now left|exact H3].
        -- exists t. split; [now right|exact H3].
    + splits.
      * exact H1.
      * intros t [<-|Ht]; [lra|now apply H2].
      * destruct H3 as [H3|(t & Ht & H3)]; [now left|].
        right. exists t. split; [now right|exact H3].
Qed.

(** X6. [_maxGrid] and [_minGrid] bound every entry of the grid, and each
    is the value of an entry unless it is still the number the loop starts
    from (-1e100 for the maximum, 1e100 for the minimum), as it is for a
    grid without points. *)
Theorem max_and_min_of_a_grid (grid : arr_t) :
  (forall i, 0 <= i < pts grid ->
     (_minGrid grid <= _array grid i <= _maxGrid grid)%R) /\
  (_maxGrid grid = (- 1e100)%R \/
   exists i, 0 <= i < pts grid /\ _maxGrid grid = _array grid i) /\
  (_minGrid grid = 1e100%R \/
   exists i, 0 <= i < pts grid /\ _minGrid grid = _array grid i) /\
  (pts grid <= 0 -> _maxGrid grid = (- 1e100)%R /\ _minGrid grid = 1e100%R).
Proof.
  destruct (fold_max_spec (_array grid) (zrange (pts grid)) (- 1e100)%R)
    as (_ & Hub & Hmax).
  destruct (fold_min_spec (_array grid) (zrange (pts grid)) 1e100%R)
    as (_ & Hlb & Hmin).
  fold (_maxGrid grid) in Hub, Hmax. fold (_minGrid grid) in Hlb, Hmin.
  splits.
  - intros i Hi. apply In_zrange in Hi. split; [now apply Hlb|now apply Hub].
  - destruct Hmax as [H|(i & Hi & H)]; [now left|].
    right. exists i. split; [now apply In_zrange|exact H].
  - destruct Hmin as [H|(i & Hi & H)]; [now left|].
    right. exists i. split; [now apply In_zrange|exact H].
  - intros Hp. unfold _maxGrid, _minGrid. now rewrite zrange_nonpos.
Qed.

Lemma totalGrid_sum (grid : arr_t) :
  _totalGrid grid = Rsum (map (_array grid) (zrange (pts grid))).
Proof. unfold _totalGrid. rewrite fold_left_sum. lra. Qed.

Lemma Rsum_le {A} (f g : A -> R) (l : list A) :
  (forall x, In x l -> (f x <= g x)%R) ->
  (Rsum (map f l) <= Rsum (map g l))%R.
Proof.
  induction l as [|x l IH]; intros H; [simpl; lra|].
  cbn [map Rsum fold_right]. fold (Rsum (map f l)) (Rsum (map g l)).
  pose proof (H x (or_introl eq_refl)).
  assert (Rsum (map f l) <= Rsum (map g l))%R
    by (apply IH; intros; apply H; now right).
  lra.
Qed.

Lemma INR_length_zrange (n : Z) : 0 <= n -> INR (length (zrange n)) = IZR n.
Proof.
  intros H. rewrite length_zrange, INR_IZR_INZ. f_equal. lia.
Qed.

(** X7. In exact arithmetic, the average of a grid that has points lies
    between its minimum and its maximum (the source rounds every addition
    of the total, and the quotient). *)
Theorem average_between_min_and_max (grid : arr_t) :
  0 < pts grid ->
  (_minGrid grid <= _averageGrid grid <= _maxGrid grid)%R.
Proof.
  intros Hp. destruct (max_and_min_of_a_grid grid) as (Hb & _).
  assert (P : (0 < IZR (pts grid))%R) by (apply IZR_lt; lia).
  assert (Hi : (0 < / IZR (pts grid))%R) by (apply Rinv_0_lt_compat; exact P).
  assert (E : (IZR (pts grid) * / IZR (pts grid) = 1)%R)
    by (apply Rinv_r; lra).
  unfold _averageGrid, Rdiv. rewrite totalGrid_sum.
  assert (U : (Rsum (map (_array grid) (zrange (pts grid)))
               <= IZR (pts grid) * _maxGrid grid)%R).
  { rewrite <- INR_length_zrange, <- Rsum_const by lia.
    apply Rsum_le. intros i Hi'. apply In_zrange in Hi'. now apply Hb. }
  assert (L : (IZR (pts grid) * _minGrid grid
               <= Rsum (map (_array grid) (zrange (pts grid))))%R).
  { rewrite <- INR_length_zrange, <- Rsum_const by lia.
    apply Rsum_le. intros i Hi'. apply In_zrange in Hi'. now apply Hb. }
  split.
  - apply Rle_trans with (IZR (pts grid) * _minGrid grid * / IZR (pts grid))%R;
      [right; field; lra|].
    apply Rmult_le_compat_r; lra.
  - apply Rle_trans with (IZR (pts grid) * _maxGrid grid * / IZR (pts grid))%R;
      [|right; field; lra].
    apply Rmult_le_compat_r; lra.
Qed.

Lemma average_between_min_and_max_witness :
  let grid := mk_arr (fun i => if i =? 1 then 4%R else 1%R) 1 1 3 3 in
  (_minGrid grid <= _averageGrid grid <= _maxGrid grid)%R.
Proof.
  intros grid. apply (average_between_min_and_max grid). cbn. lia.
Defined.

(** The entries of a shifted grid. *)
Lemma shiftGridVals_entry (grid : arr_t) (shift : R) (idx : Z) :
  _array (_shiftGridVals grid shift) idx
  = if (0 <=? idx) && (idx <? pts grid) then (_array grid idx + shift)%R
    else _array grid idx.
Proof.
  unfold _shiftGridVals. cbn [_array with_array].
  rewrite (fold_additive _ (fun t => b2r (t =? idx) * shift)%R).
  - rewrite Rsum_scale_r.
    destruct (Z.leb_spec 0 idx), (Z.ltb_spec idx (pts grid)); cbn [andb].
    + rewrite Rsum_indicator by lia. lra.
    + rewrite (Rsum_ext_in _ (fun _ => 0%R)), Rsum_zero; [lra|].
      intros t Ht. apply In_zrange in Ht.
      destruct (Z.eqb_spec t idx); [lia|reflexivity].
    + rewrite (Rsum_ext_in _ (fun _ => 0%R)), Rsum_zero; [lra|].
      intros t Ht. apply In_zrange in Ht.
      destruct (Z.eqb_spec t idx); [lia|reflexivity].
    + rewrite (Rsum_ext_in _ (fun _ => 0%R)), Rsum_zero; [lra|].
      intros t Ht. apply In_zrange in Ht.
      destruct (Z.eqb_spec t idx); [lia|reflexivity].
  - intros a t _. unfold store. rewrite (Z.eqb_sym idx t).
    destruct (Z.eqb_spec t idx) as [->|]; simpl; lra.
Qed.

(** X8. Shifting a grid that has points by [shift] moves its average by
    [shift]; in particular a grid shifted by the opposite of its average
    has average zero. *)
Theorem shift_moves_the_average (grid : arr_t) (shift : R) :
  0 < pts grid ->
  _averageGrid (_shiftGridVals grid shift) = (_averageGrid grid + shift)%R /\
  _averageGrid (_shiftGridVals grid (- _averageGrid grid)) = 0%R.
Proof.
  intros Hp.
  assert (G : forall s,
            _averageGrid (_shiftGridVals grid s) = (_averageGrid grid + s)%R).
  { intros s. unfold _averageGrid. rewrite !totalGrid_sum.
    change (pts (_shiftGridVals grid s)) with (pts grid).
    rewrite (Rsum_ext_in (_array (_shiftGridVals grid s))
               (fun i => _array grid i + s)%R).
    - rewrite Rsum_plus, Rsum_const, INR_length_zrange by lia.
      field. apply not_0_IZR. lia.
    - intros i Hi. apply In_zrange in Hi. rewrite shiftGridVals_entry.
      destruct (Z.leb_spec 0 i), (Z.ltb_spec i (pts grid)); cbn [andb];
        try lia; reflexivity. }
  split; [apply G|]. rewrite G. lra.
Qed.

Lemma shift_moves_the_average_witness :
  let grid := mk_arr (fun i => if i =? 1 then 4%R else 1%R) 1 1 3 3 in
  _averageGrid (_shiftGridVals grid 2) = (_averageGrid grid + 2)%R.
Proof.
  intros grid. apply (proj1 (shift_moves_the_average grid 2 ltac:(cbn; lia))).
Defined.

(** Two grids with the same fields are the same grid. *)
Lemma arr_ext (g g' : arr_t) :
  _array g = _array g' -> nx g = nx g' -> ny g = ny g' -> nz g = nz g' ->
  pts g = pts g' -> g = g'.
Proof. destruct g, g'. cbn. intros; subst. reflexivity. Qed.

(** X9. Two shifts compose into the shift by the sum, and a shift
    followed by the opposite shift gives the grid back (in exact
    arithmetic). *)
Theorem shifts_compose (grid : arr_t) (a b : R) :
  _shiftGridVals (_shiftGridVals grid a) b = _shiftGridVals grid (a + b) /\
  _shiftGridVals (_shiftGridVals grid a) (- a) = grid.
Proof.
  assert (G : forall g x y,
            _shiftGridVals (_shiftGridVals g x) y = _shiftGridVals g (x + y)).
  { intros g x y. apply arr_ext; try reflexivity.
    extensionality idx. rewrite !shiftGridVals_entry.
    change (pts (_shiftGridVals g x)) with (pts g).
    destruct ((0 <=? idx) && (idx <? pts g)); [lra|reflexivity]. }
  split; [apply G|]. rewrite G. apply arr_ext; try reflexivity.
  extensionality idx. rewrite shiftGridVals_entry.
  destruct ((0 <=? idx) && (idx <? pts grid)); [lra|reflexivity].
Qed.

(** ** Loops over the sites of a grid *)

Lemma FAS_LOOP3_N_empty (n_x n_y n_z : Z) :
  n_x <= 0 \/ n_y <= 0 \/ n_z <= 0 -> FAS_LOOP3_N n_x n_y n_z = [].
Proof.
  intros H. destruct (FAS_LOOP3_N n_x n_y n_z) as [|[[i j] k] l] eqn:E;
    [reflexivity|].
  assert (Hin : In (i, j, k) (FAS_LOOP3_N n_x n_y n_z)) by (rewrite E; now left).
  apply In_FAS_LOOP3_N in Hin. lia.
Qed.

Lemma store_id {A} (a : Z -> A) (i : Z) : store a i (a i) = a.
Proof. extensionality j. unfold store. destruct (Z.eqb_spec j i); congruence. Qed.

Lemma store_store {A} (a : Z -> A) (i : Z) (v w : A) :
  store (store a i v) i w = store a i w.
Proof. extensionality j. unfold store. destruct (j =? i); reflexivity. Qed.

Lemma with_array_id (g : arr_t) : with_array g (_array g) = g.
Proof. now destruct g. Qed.

Lemma INR_length_filter {A} (q : A -> bool) (l : list A) :
  INR (length (filter q l)) = Rsum (map (fun x => b2r (q x)) l).
Proof.
  induction l as [|x l IH]; [reflexivity|].
  cbn [filter map Rsum fold_right]. fold (Rsum (map (fun x => b2r (q x)) l)).
  destruct (q x); cbn [length b2r]; rewrite ?S_INR, IH; lra.
Qed.

(** A site of the grid is visited once by the loop over the sites. *)
Lemma hits_one (n_x n_y n_z i j k : Z) :
  0 <= i < n_x -> 0 <= j < n_y -> 0 <= k < n_z ->
  hits n_x n_y n_z (H_INDEX i j k n_x n_y n_z) = 1%nat.
Proof.
  intros Hi Hj Hk. apply INR_eq. unfold hits. rewrite INR_length_filter.
  rewrite (Rsum_ext_in _
    (fun t : Z * Z * Z => let '(a, b, c) := t in
       1 * (b2r (a =? i) * b2r (b =? j) * b2r (c =? k)))%R).
  - rewrite (Rsum_loop3 1 (fun a => b2r (a =? i)) (fun b => b2r (b =? j))
               (fun c => b2r (c =? k))).
    rewrite !Rsum_indicator by lia. simpl. lra.
  - intros [[a b] c] Hin. apply In_FAS_LOOP3_N in Hin. unfold site_index.
    rewrite (H_INDEX_in_range i j k) by lia. rewrite H_INDEX_eqb by lia.
    rewrite !Z.mod_small by lia. rewrite !b2r_andb. lra.
Qed.

(** Two sites of the grid with the same linear index are the same. *)
Lemma H_INDEX_inj (n_x n_y n_z i j k i' j' k' : Z) :
  0 <= i < n_x -> 0 <= j < n_y -> 0 <= k < n_z ->
  0 <= i' < n_x -> 0 <= j' < n_y -> 0 <= k' < n_z ->
  H_INDEX i' j' k' n_x n_y n_z = H_INDEX i j k n_x n_y n_z ->
  i' = i /\ j' = j /\ k' = k.
Proof.
  intros Hi Hj Hk Hi' Hj' Hk' E.
  rewrite (H_INDEX_in_range i j k) in E by lia.
  apply Z.eqb_eq in E. rewrite H_INDEX_eqb in E by lia.
  rewrite !Z.mod_small in E by lia.
  apply andb_true_iff in E. destruct E as [E E3].
  apply andb_true_iff in E. destruct E as [E1 E2].
  apply Z.eqb_eq in E1, E2, E3. auto.
Qed.

(** A loop of [a[p t] = e[p t] - a[p t]]: the entry [idx] is flipped once
    for every element the map [p] sends to [idx]. *)
Lemma fold_flip {T} (p : T -> Z) (e : Z -> R) (l : list T) (idx : Z) :
  forall a,
    fold_left (fun a t => store a (p t) (e (p t) - a (p t))%R) l a idx
    = if Nat.even (length (filter (fun t => p t =? idx) l)) then a idx
      else (e idx - a idx)%R.
Proof.
  induction l as [|t l IH]; intros a; [reflexivity|].
  cbn [fold_left filter]. rewrite IH.
  destruct (Z.eqb_spec (p t) idx) as [E|E].
  - subst idx. cbn [length]. rewrite Nat.even_succ, <- Nat.negb_even.
    rewrite !store_same. destruct (Nat.even _); cbn [negb]; lra.
  - rewrite store_other by congruence. reflexivity.
Qed.

(** A loop of [a[p t] += v[p t]]. *)
Lemma fold_add_at {T} (p : T -> Z) (v : Z -> R) (l : list T) (idx : Z) :
  forall a,
    fold_left (fun a t => store a (p t) (a (p t) + v (p t))%R) l a idx
    = (a idx + INR (length (filter (fun t => p t =? idx) l)) * v idx)%R.
Proof.
  intros a.
  rewrite (fold_left_ext _
    (fun a t => store a (p t) (a (p t) + 1 * v (p t))%R)).
  - rewrite fold_axpy. lra.
  - intros a' t. f_equal. lra.
Qed.

(** The loop of [_correctFineFromCoarseErr_Err2Appx] on an entry no site
    is sent to, and on an entry one site is sent to. *)
Lemma fold_correct_absent {T} (p : T -> Z) (l : list T) (idx : Z) :
  length (filter (fun t => p t =? idx) l) = 0%nat ->
  forall es : (Z -> R) * (Z -> R),
    let es' :=
      fold_left (fun (es : (Z -> R) * (Z -> R)) t =>
        (store (fst es) (p t) (snd es (p t)),
         store (snd es) (p t) (snd es (p t) + fst es (p t))%R)) l es in
    fst es' idx = fst es idx /\ snd es' idx = snd es idx.
Proof.
  induction l as [|t l IH]; intros Hc es; cbn [fold_left]; [auto|].
  cbn [filter] in Hc. destruct (Z.eqb_spec (p t) idx) as [E|E];
    [discriminate|].
  cbv zeta in *. destruct (IH Hc
    (store (fst es) (p t) (snd es (p t)),
     store (snd es) (p t) (snd es (p t) + fst es (p t))%R)) as [H1 H2].
  rewrite H1, H2. cbn [fst snd]. rewrite !store_other by congruence. auto.
Qed.

Lemma fold_correct_once {T} (p : T -> Z) (l : list T) (idx : Z) :
  length (filter (fun t => p t =? idx) l) = 1%nat ->
  forall es : (Z -> R) * (Z -> R),
    let es' :=
      fold_left (fun (es : (Z -> R) * (Z -> R)) t =>
        (store (fst es) (p t) (snd es (p t)),
         store (snd es) (p t) (snd es (p t) + fst es (p t))%R)) l es in
    fst es' idx = snd es idx /\ snd es' idx = (snd es idx + fst es idx)%R.
Proof.
  induction l as [|t l IH]; intros Hc es; cbn [fold_left]; [discriminate|].
  cbn [filter] in Hc. destruct (Z.eqb_spec (p t) idx) as [E|E].
  - cbn [length] in Hc. injection Hc as Hc. cbv zeta.
    destruct (fold_correct_absent p l idx Hc
      (store (fst es) (p t) (snd es (p t)),
       store (snd es) (p t) (snd es (p t) + fst es (p t))%R)) as [H1 H2].
    rewrite H1, H2. cbn [fst snd]. rewrite <- E, !store_same. auto.
  - cbv zeta in *. destruct (IH Hc
      (store (fst es) (p t) (snd es (p t)),
       store (snd es) (p t) (snd es (p t) + fst es (p t))%R)) as [H1 H2].
    rewrite H1, H2. cbn [fst snd]. rewrite !store_other by congruence. auto.
Qed.

(** ** Restriction of a thin grid *)

(** X10. Restriction computes no coarse cell when the fine grid has fewer
    than two cells on some axis (half of the dimension is then 0): the
    hierarchy is left as it is. *)
Theorem restriction_of_a_thin_grid (st : FASMultigrid)
    (grid_heirarchy : fas_heirarchy_t) (fine_depth : Z) :
  let fine := grid_heirarchy (_dIdx st fine_depth) in
  0 <= nx fine < 2 \/ 0 <= ny fine < 2 \/ 0 <= nz fine < 2 ->
  _restrictFine2coarse st grid_heirarchy fine_depth = grid_heirarchy.
Proof.
  intros fine H. unfold _restrictFine2coarse. fold fine.
  rewrite FAS_LOOP3_N_empty.
  - cbn [fold_left]. now rewrite with_array_id, store_id.
  - assert (Q : forall n, 0 <= n < 2 -> Z.quot n 2 <= 0).
    { intros n Hn. assert (n = 0 \/ n = 1) as [-> | ->] by lia; cbn; lia. }
    destruct H as [H|[H|H]]; [left|right; left|right; right]; now apply Q.
Qed.

Lemma restriction_of_a_thin_grid_witness :
  let st := flat_solver 1 4 4 3 5 in
  let h := fun d : Z => if d =? 0 then mk_arr (fun _ => 7%R) 1 4 4 16
                        else mk_arr (fun _ => 1%R) 1 2 2 4 in
  _restrictFine2coarse st h 1 = h.
Proof.
  intros st h. apply (restriction_of_a_thin_grid st h 1). left. cbn. lia.
Defined.

(** ** The error and the correction of the upward stroke *)

(** X11. [_changeApproximateSolutionToError] is its own inverse: applied
    twice with the same solution, it gives the hierarchy back (in exact
    arithmetic, solution - (solution - approximation) is the
    approximation). *)
Theorem approximation_to_error_twice (st : FASMultigrid)
    (appx_to_err_h exact_soln_h : fas_heirarchy_t) (depth : Z) :
  _changeApproximateSolutionToError st
    (_changeApproximateSolutionToError st appx_to_err_h exact_soln_h depth)
    exact_soln_h depth
  = appx_to_err_h.
Proof.
  unfold _changeApproximateSolutionToError.
  set (d := _dIdx st depth). set (n_x := nx_h st d). set (n_y := ny_h st d).
  set (n_z := nz_h st d). rewrite store_same, store_store.
  transitivity (store appx_to_err_h d (appx_to_err_h d)); [|apply store_id].
  f_equal.
  apply arr_ext; try reflexivity. cbn [_array with_array].
  extensionality idx.
  assert (F : forall a0,
    fold_left (fun (a : Z -> R) '(i, j, k) =>
       let idx := H_INDEX i j k n_x n_y n_z in
       store a idx (_array (exact_soln_h d) idx - a idx)%R)
      (FAS_LOOP3_N n_x n_y n_z) a0 idx
    = if Nat.even (hits n_x n_y n_z idx) then a0 idx
      else (_array (exact_soln_h d) idx - a0 idx)%R).
  { intros a0.
    rewrite (fold_left_ext _
      (fun a t => store a (site_index n_x n_y n_z t)
         (_array (exact_soln_h d) (site_index n_x n_y n_z t)
          - a (site_index n_x n_y n_z t))%R))
      by (intros a [[i j] k]; reflexivity).
    apply fold_flip. }
  rewrite F, F. destruct (Nat.even _); lra.
Qed.

(** X12. [_correctFineFromCoarseErr_Err2Appx] at a site of the fine grid:
    the solution receives the interpolated error, and the grid that held
    the error receives the solution as it was before the correction. *)
Theorem correction_of_the_fine_grid (st : FASMultigrid)
    (err2appx_h appx_soln_h : fas_heirarchy_t) (fine_depth i j k : Z) :
  let fine_idx := _dIdx st fine_depth in
  let n_x := nx_h st fine_idx in
  let n_y := ny_h st fine_idx in
  let n_z := nz_h st fine_idx in
  let idx := H_INDEX i j k n_x n_y n_z in
  let res :=
    _correctFineFromCoarseErr_Err2Appx st err2appx_h appx_soln_h fine_depth in
  0 <= i < n_x -> 0 <= j < n_y -> 0 <= k < n_z ->
  _array (snd res fine_idx) idx
  = (_array (appx_soln_h fine_idx) idx
     + _array (_interpolateCoarse2fine st err2appx_h (fine_depth - 1) fine_idx)
         idx)%R /\
  _array (fst res fine_idx) idx = _array (appx_soln_h fine_idx) idx.
Proof.
  intros fine_idx n_x n_y n_z idx res Hi Hj Hk.
  unfold res, _correctFineFromCoarseErr_Err2Appx.
  fold fine_idx n_x n_y n_z.
  set (e0 := _interpolateCoarse2fine st err2appx_h (fine_depth - 1)).
  rewrite (fold_left_ext _
    (fun (es : (Z -> R) * (Z -> R)) t =>
       (store (fst es) (site_index n_x n_y n_z t) (snd es (site_index n_x n_y n_z t)),
        store (snd es) (site_index n_x n_y n_z t)
          (snd es (site_index n_x n_y n_z t)
           + fst es (site_index n_x n_y n_z t))%R)))
    by (intros a [[i' j'] k']; reflexivity).
  pose proof (fold_correct_once (site_index n_x n_y n_z)
                (FAS_LOOP3_N n_x n_y n_z) idx
                (hits_one n_x n_y n_z i j k Hi Hj Hk)
                (_array (e0 fine_idx), _array (appx_soln_h fine_idx))) as H.
  cbv zeta in H. destruct (fold_left _ _ _) as [e s].
  cbn [fst snd] in *. rewrite !store_same. cbn [_array with_array].
  destruct H as [H1 H2]. rewrite H1, H2. auto.
Qed.

Lemma correction_of_the_fine_grid_witness :
  let st := flat_solver 2 2 2 3 5 in
  let h := fun x : R => fun d : Z =>
    if d =? 0 then mk_arr (fun _ => x) 2 2 2 8 else mk_arr (fun _ => 0%R) 1 1 1 1 in
  let res := _correctFineFromCoarseErr_Err2Appx st (h 1%R) (h 4%R) 1 in
  _array (fst res 0) (H_INDEX 1 0 1 2 2 2) = 4%R.
Proof.
  intros st h res.
  apply (proj2 (correction_of_the_fine_grid st (h 1%R) (h 4%R) 1 1 0 1
                  ltac:(cbn; lia) ltac:(cbn; lia) ltac:(cbn; lia))).
Defined.

(** ** The operator on a grid and the residuals *)

Lemma fold_max_lt {T} (f : T -> R) (l : list T) (m0 tol : R) :
  (fold_left (fun m t => if Rltb m (f t) then f t else m) l m0 < tol)%R <->
  (m0 < tol)%R /\ forall t, In t l -> (f t < tol)%R.
Proof.
  destruct (fold_max_spec f l m0) as (H1 & H2 & H3). cbv zeta in *. split.
  - intros H. split; [lra|]. intros t Ht. specialize (H2 t Ht). lra.
  - intros [Hm Hf]. destruct H3 as [-> | (t & Ht & ->)]; auto.
Qed.

Lemma fold_Rmax_lt {T} (g : T -> R) (l : list T) (tol : R) :
  forall m0,
    (fold_left (fun m t => Rmax m (g t)) l m0 < tol)%R <->
    (m0 < tol)%R /\ forall t, In t l -> (g t < tol)%R.
Proof.
  induction l as [|x l IH]; intros m0; cbn [fold_left].
  - split; [intros H; split; [exact H|intros t []]|intros [H _]; exact H].
  - rewrite IH. split.
    + intros [Hm Hl]. pose proof (Rmax_l m0 (g x)). pose proof (Rmax_r m0 (g x)).
      split; [lra|]. intros t [<-|Ht]; [lra|now apply Hl].
    + intros [Hm Hl]. split.
      * apply Rmax_lub_lt; [exact Hm|]. apply Hl. now left.
      * intros t Ht. apply Hl. now right.
Qed.

Section Residuals.

Context {host : Host}.

(** [_evaluateEllipticEquation] stores the operator at every site. *)
Lemma evaluate_entry (st : FASMultigrid) (result_h : fas_heirarchy_t)
    (eqn_id depth i j k : Z) :
  let depth_idx := _dIdx st depth in
  let n_x := nx_h st depth_idx in
  let n_y := ny_h st depth_idx in
  let n_z := nz_h st depth_idx in
  0 <= i < n_x -> 0 <= j < n_y -> 0 <= k < n_z ->
  _array (_evaluateEllipticEquation st result_h eqn_id depth depth_idx)
    (H_INDEX i j k n_x n_y n_z)
  = _evaluateEllipticEquationPt st eqn_id depth_idx i j k.
Proof.
  intros depth_idx n_x n_y n_z Hi Hj Hk. unfold _evaluateEllipticEquation.
  fold depth_idx n_x n_y n_z. rewrite store_same. cbn [_array with_array].
  apply fold_writes_const.
  - intros a [[i' j'] k'] Hin. apply In_FAS_LOOP3_N in Hin.
    destruct (Z.eq_dec (H_INDEX i' j' k' n_x n_y n_z) (H_INDEX i j k n_x n_y n_z))
      as [E|E].
    + left. rewrite <- E, store_same.
      destruct (H_INDEX_inj n_x n_y n_z i j k i' j' k') as (-> & -> & ->);
        [lia|lia|lia|lia|lia|lia|exact E|reflexivity].
    + right. apply store_other. congruence.
  - intros. right. exists (i, j, k). split; [now apply In_FAS_LOOP3_N|].
    intros a'. apply store_same.
Qed.

(** What [_computeResidual] stores at a site. *)
Lemma residual_entry (st : FASMultigrid)
    (residual_h : fas_heirarchy_t) (eqn_id depth i j k : Z) :
  let depth_idx := _dIdx st depth in
  let n_x := nx_h st depth_idx in
  let n_y := ny_h st depth_idx in
  let n_z := nz_h st depth_idx in
  let idx := H_INDEX i j k n_x n_y n_z in
  nx (residual_h depth_idx) = n_x -> ny (residual_h depth_idx) = n_y ->
  nz (residual_h depth_idx) = n_z ->
  0 <= i < n_x -> 0 <= j < n_y -> 0 <= k < n_z ->
  _array (_computeResidual st residual_h eqn_id depth depth_idx) idx
  = (_array (coarse_src_h st eqn_id depth_idx) idx
     - _evaluateEllipticEquationPt st eqn_id depth_idx i j k)%R.
Proof.
  intros depth_idx n_x n_y n_z idx Ex Ey Ez Hi Hj Hk.
  unfold _computeResidual. fold depth_idx. rewrite Ex, Ey, Ez.
  rewrite store_same. cbn [_array with_array].
  rewrite (fold_left_ext _
    (fun a t => store a (site_index n_x n_y n_z t)
       (_array (coarse_src_h st eqn_id depth_idx) (site_index n_x n_y n_z t)
        - a (site_index n_x n_y n_z t))%R))
    by (intros a [[i' j'] k']; reflexivity).
  rewrite fold_flip. fold (hits n_x n_y n_z idx). unfold idx at 1.
  rewrite hits_one by assumption. cbn [Nat.even]. f_equal.
  now apply evaluate_entry.
Qed.

(** X13. [_computeResidual] stores [coarse_src - F] at every site of the
    grid, the grid of the hierarchy it is given having the dimensions of
    the depth. *)
Theorem residual_is_source_minus_operator (st : FASMultigrid)
    (residual_h : fas_heirarchy_t) (eqn_id depth i j k : Z) :
  let depth_idx := _dIdx st depth in
  let n_x := nx_h st depth_idx in
  let n_y := ny_h st depth_idx in
  let n_z := nz_h st depth_idx in
  let idx := H_INDEX i j k n_x n_y n_z in
  nx (residual_h depth_idx) = n_x -> ny (residual_h depth_idx) = n_y ->
  nz (residual_h depth_idx) = n_z ->
  0 <= i < n_x -> 0 <= j < n_y -> 0 <= k < n_z ->
  _array (_computeResidual st residual_h eqn_id depth depth_idx) idx
  = (_array (coarse_src_h st eqn_id depth_idx) idx
     - _evaluateEllipticEquationPt st eqn_id depth_idx i j k)%R.
Proof.
  exact (residual_entry st residual_h eqn_id depth i j k).
Qed.

(** The largest residual is below a number when every residual is. *)
Lemma max_residual_lt_iff (st : FASMultigrid)
    (depth : Z) (tol : R) :
  let depth_idx := _dIdx st depth in
  let n_x := nx_h st depth_idx in
  let n_y := ny_h st depth_idx in
  let n_z := nz_h st depth_idx in
  (_getMaxResidualAllEqs st depth < tol)%R <->
  (0 < tol)%R /\
  forall eqn_id i j k,
    0 <= eqn_id < u_n st -> 0 <= i < n_x -> 0 <= j < n_y -> 0 <= k < n_z ->
    (Rabs (_array (coarse_src_h st eqn_id depth_idx) (H_INDEX i j k n_x n_y n_z)
           - _evaluateEllipticEquationPt st eqn_id depth_idx i j k) < tol)%R.
Proof.
  intros depth_idx n_x n_y n_z. unfold _getMaxResidualAllEqs.
  rewrite fold_Rmax_lt. unfold _getMaxResidual. fold depth_idx n_x n_y n_z.
  split.
  - intros [Ht H]. split; [exact Ht|]. intros e i j k He Hi Hj Hk.
    specialize (H e (proj2 (In_zrange _ _) He)).
    rewrite (fold_left_ext _
      (fun m (t : Z * Z * Z) =>
         if Rltb m (let '(i, j, k) := t in
                    Rabs (_array (coarse_src_h st e depth_idx)
                            (H_INDEX i j k n_x n_y n_z)
                          - _evaluateEllipticEquationPt st e depth_idx i j k))
         then (let '(i, j, k) := t in
               Rabs (_array (coarse_src_h st e depth_idx)
                       (H_INDEX i j k n_x n_y n_z)
                     - _evaluateEllipticEquationPt st e depth_idx i j k))
         else m)) in H by (intros m [[i' j'] k']; reflexivity).
    apply fold_max_lt in H. destruct H as [_ H].
    apply (H (i, j, k)). now apply In_FAS_LOOP3_N.
  - intros [Ht H]. split; [exact Ht|]. intros e He. apply In_zrange in He.
    rewrite (fold_left_ext _
      (fun m (t : Z * Z * Z) =>
         if Rltb m (let '(i, j, k) := t in
                    Rabs (_array (coarse_src_h st e depth_idx)
                            (H_INDEX i j k n_x n_y n_z)
                          - _evaluateEllipticEquationPt st e depth_idx i j k))
         then (let '(i, j, k) := t in
               Rabs (_array (coarse_src_h st e depth_idx)
                       (H_INDEX i j k n_x n_y n_z)
                     - _evaluateEllipticEquationPt st e depth_idx i j k))
         else m)) by (intros m [[i' j'] k']; reflexivity).
    apply fold_max_lt. split; [exact Ht|].
    intros [[i j] k] Hin. apply In_FAS_LOOP3_N in Hin. apply H; tauto.
Qed.

(** X14. The test that ends the smoother, [_getMaxResidualAllEqs(depth) <
    tolerance], holds exactly when the tolerance is positive and, for
    every equation and at every site of the depth, the residual
    [|coarse_src - F|] is below it. *)
Theorem convergence_test_bounds_every_residual (st : FASMultigrid)
    (depth : Z) (tol : R) :
  let depth_idx := _dIdx st depth in
  let n_x := nx_h st depth_idx in
  let n_y := ny_h st depth_idx in
  let n_z := nz_h st depth_idx in
  (_getMaxResidualAllEqs st depth < tol)%R <->
  (0 < tol)%R /\
  forall eqn_id i j k,
    0 <= eqn_id < u_n st -> 0 <= i < n_x -> 0 <= j < n_y -> 0 <= k < n_z ->
    (Rabs (_array (coarse_src_h st eqn_id depth_idx) (H_INDEX i j k n_x n_y n_z)
           - _evaluateEllipticEquationPt st eqn_id depth_idx i j k) < tol)%R.
Proof. exact (max_residual_lt_iff st depth tol). Qed.

(** The last loop of [_computeCoarseRestrictions]. *)
Lemma coarse_source_entry (st : FASMultigrid) (eqn_id fine_depth i j k : Z) :
  let coarse_idx := _dIdx st (fine_depth - 1) in
  let n_x := nx_h st coarse_idx in
  let n_y := ny_h st coarse_idx in
  let n_z := nz_h st coarse_idx in
  let idx := H_INDEX i j k n_x n_y n_z in
  let st' := _computeCoarseRestrictions st eqn_id fine_depth in
  0 <= i < n_x -> 0 <= j < n_y -> 0 <= k < n_z ->
  exists st3,
    _evaluateEllipticEquationPt st' eqn_id coarse_idx i j k
    = _evaluateEllipticEquationPt st3 eqn_id coarse_idx i j k /\
    tmp_h st' = tmp_h st3 /\
    _array (coarse_src_h st' eqn_id coarse_idx) idx
    = (_evaluateEllipticEquationPt st3 eqn_id coarse_idx i j k
       + _array (tmp_h st3 eqn_id coarse_idx) idx)%R.
Proof.
  intros coarse_idx n_x n_y n_z idx st' Hi Hj Hk.
  unfold st', _computeCoarseRestrictions.
  set (st1 := set_u_h st _).
  set (st2 := set_tmp_h st1 _).
  set (st3 := set_tmp_h st2 _).
  exists st3. split; [reflexivity|]. split; [reflexivity|].
  cbn [coarse_src_h set_coarse_src_h]. unfold store_grid.
  rewrite !store_same. cbn [_array with_array].
  change (_dIdx (set_coarse_src_h st3
            (store (coarse_src_h st3) eqn_id
               (_evaluateEllipticEquation st3 (coarse_src_h st3 eqn_id) eqn_id
                  (fine_depth - 1)))) (fine_depth - 1)) with coarse_idx.
  change (nx_h (set_coarse_src_h st3
            (store (coarse_src_h st3) eqn_id
               (_evaluateEllipticEquation st3 (coarse_src_h st3 eqn_id) eqn_id
                  (fine_depth - 1)))) coarse_idx) with n_x.
  change (ny_h (set_coarse_src_h st3
            (store (coarse_src_h st3) eqn_id
               (_evaluateEllipticEquation st3 (coarse_src_h st3 eqn_id) eqn_id
                  (fine_depth - 1)))) coarse_idx) with n_y.
  change (nz_h (set_coarse_src_h st3
            (store (coarse_src_h st3) eqn_id
               (_evaluateEllipticEquation st3 (coarse_src_h st3 eqn_id) eqn_id
                  (fine_depth - 1)))) coarse_idx) with n_z.
  cbn [tmp_h set_coarse_src_h].
  rewrite (fold_left_ext _
    (fun a t => store a (site_index n_x n_y n_z t)
       (a (site_index n_x n_y n_z t)
        + _array (tmp_h st3 eqn_id coarse_idx) (site_index n_x n_y n_z t))%R))
    by (intros a [[i' j'] k']; reflexivity).
  rewrite fold_add_at. fold (hits n_x n_y n_z idx). unfold idx at 2.
  rewrite hits_one by assumption. cbn [INR]. rewrite Rmult_1_l. f_equal.
  apply (evaluate_entry st3 (coarse_src_h st3 eqn_id) eqn_id (fine_depth - 1)
           i j k); assumption.
Qed.

(** X15. The coarse source of the full approximation scheme: after
    [_computeCoarseRestrictions], at every site of the coarse depth, the
    source is the sum the last loop stores, of the operator on the
    restricted solution and of the restricted residual held by [tmp_h]. *)
Theorem coarse_source_of_the_scheme (st : FASMultigrid)
    (eqn_id fine_depth i j k : Z) :
  let coarse_idx := _dIdx st (fine_depth - 1) in
  let n_x := nx_h st coarse_idx in
  let n_y := ny_h st coarse_idx in
  let n_z := nz_h st coarse_idx in
  let idx := H_INDEX i j k n_x n_y n_z in
  let st' := _computeCoarseRestrictions st eqn_id fine_depth in
  0 <= i < n_x -> 0 <= j < n_y -> 0 <= k < n_z ->
  _array (coarse_src_h st' eqn_id coarse_idx) idx
  = (_evaluateEllipticEquationPt st' eqn_id coarse_idx i j k
     + _array (tmp_h st' eqn_id coarse_idx) idx)%R.
Proof.
  intros coarse_idx n_x n_y n_z idx st' Hi Hj Hk.
  destruct (coarse_source_entry st eqn_id fine_depth i j k Hi Hj Hk)
    as (st3 & HF & Ht & Hs).
  fold coarse_idx n_x n_y n_z idx st' in HF, Ht, Hs.
  rewrite Hs, HF, Ht. reflexivity.
Qed.

End Residuals.

Lemma residual_is_source_minus_operator_witness :
  let st := flat_solver 2 2 2 3 5 in
  let idx := H_INDEX 1 0 1 2 2 2 in
  let F := _evaluateEllipticEquationPt (host := host_of 2 2 2) st 0 0 1 0 1 in
  let src := _array (coarse_src_h st 0 0) idx in
  _array (_computeResidual (host := host_of 2 2 2) st (tmp_h st 0) 0 1 0) idx
  = (src - F)%R.
Proof.
  intros st idx F src.
  apply (residual_is_source_minus_operator (host := host_of 2 2 2) st
           (tmp_h st 0) 0 1 1 0 1); try reflexivity; cbn; lia.
Defined.

Lemma coarse_source_of_the_scheme_witness :
  let st := coupled_pair 0 0 in
  let st' := _computeCoarseRestrictions (host := host_of 1 1 1) st 0 2 in
  let idx := H_INDEX 0 0 0 1 1 1 in
  let F := _evaluateEllipticEquationPt (host := host_of 1 1 1) st' 0 0 0 0 0 in
  let src := _array (coarse_src_h st' 0 0) idx in
  let res := _array (tmp_h st' 0 0) idx in
  src = (F + res)%R.
Proof.
  intros st st' idx F src res.
  apply (coarse_source_of_the_scheme (host := host_of 1 1 1) st 0 2 0 0 0);
    cbn; lia.
Defined.

(** ** Prolongation as an interpolation *)

(** The share of a coarse cell on one axis is the weight of the linear
    interpolation. *)
Lemma axis_share_weight (n x i : Z) :
  0 < n -> 0 <= x < n * 2 -> 0 <= i < n ->
  axis_share n x i
  = (axis_weight x 0 * b2r (i =? x / 2)
     + axis_weight x 1 * b2r (i =? (x / 2 + 1) mod n))%R.
Proof.
  intros Hn Hx Hi.
  pose proof (Z.div_mod x 2 ltac:(lia)) as Dx.
  pose proof (Z.mod_pos_bound x 2 ltac:(lia)) as Bx.
  set (m := x / 2) in *.
  assert (M4 : (m + 1) mod n = if m + 1 =? n then 0 else m + 1).
  { destruct (Z.eqb_spec (m + 1) n) as [E|E].
    - rewrite E. apply Z.mod_same. lia.
    - apply Z.mod_small. lia. }
  unfold axis_share, axis_weight.
  cbn [map Rsum fold_right adj_weight Z.eqb].
  assert (M1 : (i * 2 + -1) mod (n * 2) = if i =? 0 then n * 2 - 1 else i * 2 - 1).
  { destruct (Z.eqb_spec i 0) as [E|E].
    - subst i. symmetry. apply Z.mod_unique with (q := -1); lia.
    - apply Z.mod_small. lia. }
  assert (M2 : (i * 2 + 0) mod (n * 2) = i * 2)
    by (rewrite Z.add_0_r; apply Z.mod_small; lia).
  assert (M3 : (i * 2 + 1) mod (n * 2) = i * 2 + 1) by (apply Z.mod_small; lia).
  rewrite M1, M2, M3, M4.
  destruct (Z.eqb_spec (x mod 2) 0), (Z.eqb_spec i 0), (Z.eqb_spec (m + 1) n);
    repeat match goal with
    | |- context [?a =? ?b] => destruct (Z.eqb_spec a b)
    end; simpl; try lia; lra.
Qed.

(** A sum over a counting loop whose terms vanish but at two indices. *)
Lemma Rsum_pick2 (g : Z -> R) (n p0 p1 : Z) (a0 a1 : R) :
  0 <= p0 < n -> 0 <= p1 < n ->
  Rsum (map (fun i => (a0 * b2r (i =? p0) + a1 * b2r (i =? p1)) * g i)%R
          (zrange n))
  = (a0 * g p0 + a1 * g p1)%R.
Proof.
  intros H0 H1.
  rewrite (Rsum_ext_in _
    (fun i => a0 * g p0 * b2r (i =? p0) + a1 * g p1 * b2r (i =? p1))%R).
  - rewrite Rsum_plus, !Rsum_scale, !Rsum_indicator by lia. lra.
  - intros i _. destruct (Z.eqb_spec i p0) as [E0|E0],
      (Z.eqb_spec i p1) as [E1|E1]; subst; simpl; lra.
Qed.

(** A sum over the sites of a grid whose terms vanish but at eight
    sites. *)
Lemma Rsum_loop3_pick (f : Z -> Z -> Z -> R) (A B C : Z -> R)
    (n_x n_y n_z p0 p1 q0 q1 r0 r1 : Z) (a0 a1 b0 b1 c0 c1 : R) :
  0 <= p0 < n_x -> 0 <= p1 < n_x -> 0 <= q0 < n_y -> 0 <= q1 < n_y ->
  0 <= r0 < n_z -> 0 <= r1 < n_z ->
  (forall i, 0 <= i < n_x ->
     A i = (a0 * b2r (i =? p0) + a1 * b2r (i =? p1))%R) ->
  (forall j, 0 <= j < n_y ->
     B j = (b0 * b2r (j =? q0) + b1 * b2r (j =? q1))%R) ->
  (forall k, 0 <= k < n_z ->
     C k = (c0 * b2r (k =? r0) + c1 * b2r (k =? r1))%R) ->
  Rsum (map (fun t : Z * Z * Z => let '(i, j, k) := t in
               f i j k * (A i * B j * C k))%R (FAS_LOOP3_N n_x n_y n_z))
  = (a0 * (b0 * (c0 * f p0 q0 r0 + c1 * f p0 q0 r1)
           + b1 * (c0 * f p0 q1 r0 + c1 * f p0 q1 r1))
     + a1 * (b0 * (c0 * f p1 q0 r0 + c1 * f p1 q0 r1)
             + b1 * (c0 * f p1 q1 r0 + c1 * f p1 q1 r1)))%R.
Proof.
  intros Hp0 Hp1 Hq0 Hq1 Hr0 Hr1 HA HB HC.
  unfold FAS_LOOP3_N. rewrite Rsum_flat_map.
  rewrite (Rsum_ext_in _
    (fun i => (a0 * b2r (i =? p0) + a1 * b2r (i =? p1))
              * (b0 * (c0 * f i q0 r0 + c1 * f i q0 r1)
                 + b1 * (c0 * f i q1 r0 + c1 * f i q1 r1)))%R).
  - apply (Rsum_pick2
      (fun i => b0 * (c0 * f i q0 r0 + c1 * f i q0 r1)
                + b1 * (c0 * f i q1 r0 + c1 * f i q1 r1))%R); assumption.
  - intros i Hi. apply In_zrange in Hi. rewrite Rsum_flat_map.
    rewrite (Rsum_ext_in _
      (fun j => (b0 * b2r (j =? q0) + b1 * b2r (j =? q1))
                * (A i * (c0 * f i j r0 + c1 * f i j r1)))%R).
    + rewrite (Rsum_pick2
        (fun j => A i * (c0 * f i j r0 + c1 * f i j r1))%R) by assumption.
      rewrite HA by assumption. ring.
    + intros j Hj. apply In_zrange in Hj. rewrite map_map.
      rewrite (Rsum_ext_in _
        (fun k => (c0 * b2r (k =? r0) + c1 * b2r (k =? r1))
                  * (A i * B j * f i j k))%R).
      * rewrite (Rsum_pick2 (fun k => A i * B j * f i j k)%R) by assumption.
        rewrite HB by assumption. ring.
      * intros k Hk. apply In_zrange in Hk. rewrite HC by assumption. ring.
Qed.

Lemma H_INDEX_wrap (i j k n_x n_y n_z : Z) :
  H_INDEX (i mod n_x) (j mod n_y) (k mod n_z) n_x n_y n_z
  = H_INDEX i j k n_x n_y n_z.
Proof. unfold H_INDEX. now rewrite !Zmod_mod. Qed.

(** What prolongation stores at the fine cell (X,Y,Z). *)
Lemma interpolate_entry (st : FASMultigrid)
    (grid_heirarchy : fas_heirarchy_t) (coarse_depth X Y Z' : Z) :
  let coarse_idx := _dIdx st coarse_depth in
  let fine_idx := _dIdx st (coarse_depth + 1) in
  let n_x := nx_h st coarse_idx in
  let n_y := ny_h st coarse_idx in
  let n_z := nz_h st coarse_idx in
  0 < n_x -> 0 < n_y -> 0 < n_z ->
  0 <= X < n_x * 2 -> 0 <= Y < n_y * 2 -> 0 <= Z' < n_z * 2 ->
  H_INDEX X Y Z' (n_x * 2) (n_y * 2) (n_z * 2) < pts (grid_heirarchy fine_idx) ->
  _array (_interpolateCoarse2fine st grid_heirarchy coarse_depth fine_idx)
    (H_INDEX X Y Z' (n_x * 2) (n_y * 2) (n_z * 2))
  = Rsum (map (fun t : Z * Z * Z => let '(a, b, c) := t in
                 axis_weight X a * axis_weight Y b * axis_weight Z' c
                 * _array (grid_heirarchy coarse_idx)
                     (H_INDEX (X / 2 + a) (Y / 2 + b) (Z' / 2 + c) n_x n_y n_z))%R
            corners).
Proof.
  intros coarse_idx fine_idx n_x n_y n_z Hx Hy Hz HX HY HZ Hpts.
  unfold _interpolateCoarse2fine. fold coarse_idx fine_idx n_x n_y n_z.
  rewrite store_same. cbn [_array with_array].
  pose (c := fun i j k =>
    _array (grid_heirarchy coarse_idx) (H_INDEX i j k n_x n_y n_z)).
  rewrite H_INDEX_in_range in * by lia.
  rewrite (fold_additive _
    (fun t : Z * Z * Z => let '(i, j, k) := t in
       c i j k * (axis_share n_x X i * axis_share n_y Y j * axis_share n_z Z' k))%R).
  - rewrite zeroGrid_zero
      by (split; [|exact Hpts];
          pose proof (H_INDEX_range X Y Z' (n_x * 2) (n_y * 2) (n_z * 2)
                        ltac:(lia) ltac:(lia) ltac:(lia)) as B;
          rewrite H_INDEX_in_range in B by lia; lia).
    rewrite (Rsum_loop3_pick c _ _ _ n_x n_y n_z
               (X / 2) ((X / 2 + 1) mod n_x) (Y / 2) ((Y / 2 + 1) mod n_y)
               (Z' / 2) ((Z' / 2 + 1) mod n_z)
               (axis_weight X 0) (axis_weight X 1)
               (axis_weight Y 0) (axis_weight Y 1)
               (axis_weight Z' 0) (axis_weight Z' 1)).
    + assert (W : forall i j k,
                c (i mod n_x) (j mod n_y) (k mod n_z) = c i j k)
        by (intros; unfold c; now rewrite H_INDEX_wrap).
      assert (S1 : forall v n, 0 < n -> 0 <= v < n * 2 -> (v / 2) mod n = v / 2).
      { intros v n Hn Hv. apply Z.mod_small. split.
        - apply Z.div_pos; lia.
        - apply Z.div_lt_upper_bound; lia. }
      unfold corners. cbn [map Rsum fold_right]. rewrite !Z.add_0_r.
      fold (c (X / 2) (Y / 2) (Z' / 2)) (c (X / 2) (Y / 2) (Z' / 2 + 1))
           (c (X / 2) (Y / 2 + 1) (Z' / 2)) (c (X / 2) (Y / 2 + 1) (Z' / 2 + 1))
           (c (X / 2 + 1) (Y / 2) (Z' / 2)) (c (X / 2 + 1) (Y / 2) (Z' / 2 + 1))
           (c (X / 2 + 1) (Y / 2 + 1) (Z' / 2))
           (c (X / 2 + 1) (Y / 2 + 1) (Z' / 2 + 1)).
      rewrite <- (W (X / 2) (Y / 2) (Z' / 2 + 1)),
              <- (W (X / 2) (Y / 2 + 1) (Z' / 2)),
              <- (W (X / 2) (Y / 2 + 1) (Z' / 2 + 1)),
              <- (W (X / 2 + 1) (Y / 2) (Z' / 2)),
              <- (W (X / 2 + 1) (Y / 2) (Z' / 2 + 1)),
              <- (W (X / 2 + 1) (Y / 2 + 1) (Z' / 2)),
              <- (W (X / 2 + 1) (Y / 2 + 1) (Z' / 2 + 1)).
      rewrite !S1 by lia. ring.
    + split; [apply Z.div_pos; lia|apply Z.div_lt_upper_bound; lia].
    + apply Z.mod_pos_bound; lia.
    + split; [apply Z.div_pos; lia|apply Z.div_lt_upper_bound; lia].
    + apply Z.mod_pos_bound; lia.
    + split; [apply Z.div_pos; lia|apply Z.div_lt_upper_bound; lia].
    + apply Z.mod_pos_bound; lia.
    + intros i Hi. now apply axis_share_weight.
    + intros j Hj. now apply axis_share_weight.
    + intros k Hk. now apply axis_share_weight.
  - intros a [[i j] k] Hin. apply In_FAS_LOOP3_N in Hin.
    rewrite interpolate_cell_adds by lia. reflexivity.
Qed.


(** X17. At the fine cells of even coordinates prolongation copies the
    coarse grid: the fine cell (2i, 2j, 2k) receives the value of the
    coarse cell (i, j, k). *)
Theorem prolongation_copies_at_even_sites (st : FASMultigrid)
    (grid_heirarchy : fas_heirarchy_t) (coarse_depth i j k : Z) :
  let coarse_idx := _dIdx st coarse_depth in
  let fine_idx := _dIdx st (coarse_depth + 1) in
  let n_x := nx_h st coarse_idx in
  let n_y := ny_h st coarse_idx in
  let n_z := nz_h st coarse_idx in
  0 <= i < n_x -> 0 <= j < n_y -> 0 <= k < n_z ->
  H_INDEX (i * 2) (j * 2) (k * 2) (n_x * 2) (n_y * 2) (n_z * 2)
    < pts (grid_heirarchy fine_idx) ->
  _array (_interpolateCoarse2fine st grid_heirarchy coarse_depth fine_idx)
    (H_INDEX (i * 2) (j * 2) (k * 2) (n_x * 2) (n_y * 2) (n_z * 2))
  = _array (grid_heirarchy coarse_idx) (H_INDEX i j k n_x n_y n_z).
Proof.
  intros coarse_idx fine_idx n_x n_y n_z Hi Hj Hk Hpts.
  pose proof (interpolate_entry st grid_heirarchy coarse_depth
                (i * 2) (j * 2) (k * 2)) as E.
  cbv zeta in E. fold coarse_idx fine_idx in E. fold n_x n_y n_z in E.
  rewrite E by first [lia|assumption]. clear E.
  unfold corners, axis_weight. cbn [map Rsum fold_right].
  rewrite !Z.mod_mul, !Z.div_mul by lia.
  cbn [Z.eqb]. rewrite !Z.add_0_r. lra.
Qed.


Lemma prolongation_copies_at_even_sites_witness :
  let st := two_level 2 2 2 0%R in
  let h := store (tmp_h st 0) 0 (mk_arr (fun _ => 7%R) 1 1 1 1) in
  _array (_interpolateCoarse2fine st h 1 1) (H_INDEX (0 * 2) (0 * 2) (0 * 2) 2 2 2)
  = _array (h 0) (H_INDEX 0 0 0 1 1 1).
Proof.
  intros st h.
  apply (prolongation_copies_at_even_sites st h 1 0 0 0).
  - change (0 <= 0 < 1). lia.
  - change (0 <= 0 < 1). lia.
  - change (0 <= 0 < 1). lia.
  - change (0 < 8). lia.
Defined.

(** ** What the inner relaxation and the line search change *)

Lemma set_damping_v_h_id (st : FASMultigrid) :
  set_damping_v_h st (damping_v_h st) = st.
Proof. now destruct st. Qed.

Lemma set_u_h_id (st : FASMultigrid) : set_u_h st (u_h st) = st.
Proof. now destruct st. Qed.

Lemma set_jac_rhs_h_id (st : FASMultigrid) : set_jac_rhs_h st (jac_rhs_h st) = st.
Proof. now destruct st. Qed.

Lemma damping_step (st s : FASMultigrid) (x : fas_heirarchy_set_t) :
  s = set_damping_v_h st (damping_v_h s) ->
  set_damping_v_h s x = set_damping_v_h st x.
Proof. intros ->. reflexivity. Qed.

Lemma u_step (st s : FASMultigrid) (x : fas_heirarchy_set_t) :
  s = set_u_h st (u_h s) -> set_u_h s x = set_u_h st x.
Proof. intros ->. reflexivity. Qed.

Lemma store_grid_other_depth (h : fas_heirarchy_set_t) (e d : Z) (g : arr_t)
    (e' d' : Z) :
  d' <> d -> store_grid h e d g e' d' = h e' d'.
Proof.
  intros H. unfold store_grid, store.
  destruct (Z.eqb_spec e' e) as [->|]; [|reflexivity].
  destruct (Z.eqb_spec d' d); [contradiction|reflexivity].
Qed.

Lemma correction_changed_refl (d : Z) (st : FASMultigrid) :
  correction_changed d st st.
Proof. split; [symmetry; apply set_damping_v_h_id|reflexivity]. Qed.

Lemma correction_changed_store (d : Z) (st s : FASMultigrid) (e : Z) (g : arr_t) :
  correction_changed d st s ->
  correction_changed d st
    (set_damping_v_h s (store_grid (damping_v_h s) e d g)).
Proof.
  intros [H1 H2]. split.
  - now apply damping_step.
  - intros e' d' Hd. cbn [damping_v_h set_damping_v_h].
    rewrite store_grid_other_depth by assumption. now apply H2.
Qed.

Section InnerFrame.

Context {host : Host}.

Lemma jacobian_zero_frame (st : FASMultigrid) (d : Z) :
  correction_changed d st (jacobian_zero st d).
Proof.
  unfold jacobian_zero.
  apply (fold_left_inv (correction_changed d st));
    [|apply correction_changed_refl].
  intros s [[i j] k] _ Hs.
  apply (fold_left_inv (correction_changed d st)); [|exact Hs].
  intros s' e _ Hs'. now apply correction_changed_store.
Qed.

Lemma jacobian_sweep_frame (st s : FASMultigrid) (d : Z) :
  correction_changed d st s -> correction_changed d st (jacobian_sweep s d).
Proof.
  intros Hs. unfold jacobian_sweep.
  apply (fold_left_inv (correction_changed d st)); [|exact Hs].
  intros s1 e _ Hs1.
  apply (fold_left_inv (correction_changed d st)); [|exact Hs1].
  intros s2 [[i j] k] _ Hs2. cbv zeta.
  destruct (_evaluateIterationForJacEquation s2 e d 0 0 i j k e) as [a b].
  now apply correction_changed_store.
Qed.

Lemma sweeps_frame (n : nat) (st s : FASMultigrid) (d : Z) :
  correction_changed d st s -> correction_changed d st (sweeps n s d).
Proof.
  intros Hs. induction n as [|n IH]; [exact Hs|].
  cbn [sweeps]. now apply jacobian_sweep_frame.
Qed.


(** What the inner relaxation leaves of the solver. *)
Lemma jacobianRelax_frame (fuel : nat) (st : FASMultigrid) (depth : Z)
    (norm C : R) (p : Z) (b : bool) (st' : FASMultigrid) :
  _jacobianRelax fuel st depth norm C p = Returned b st' ->
  (forall e d, d <> _dIdx st depth -> damping_v_h st' e d = damping_v_h st e d) /\
  (if b then st' = set_damping_v_h st (damping_v_h st')
   else exists cnt, 500 < cnt /\
          st' = print (set_damping_v_h st (damping_v_h st')) (msg_unable cnt)).
Proof.
  unfold _jacobianRelax. intros H. apply jacobian_loop_returns in H.
  destruct H as (k & _ & Ht & Hf).
  pose proof (sweeps_frame k st _ (_dIdx st depth)
                (jacobian_zero_frame st (_dIdx st depth))) as [F1 F2].
  destruct b.
  - destruct (Ht eq_refl) as [-> _]. split; assumption.
  - destruct (Hf eq_refl) as (_ & Hc & -> & _). split; [exact F2|].
    exists (0 + Z.of_nat k). split; [exact Hc|].
    cbn [damping_v_h print]. now rewrite <- F1.
Qed.

(** X18. The inner relaxation changes nothing but the correction at its
    depth (and prints its message when it fails): when it returns, the
    solver is the one it was given with other corrections at this depth,
    after the message of failure, printed after more than 500 sweeps, if
    it returns false. *)
Theorem inner_relaxation_changes_the_correction_only (fuel : nat)
    (st : FASMultigrid) (depth : Z) (norm C : R) (p : Z) (b : bool)
    (st' : FASMultigrid) :
  _jacobianRelax fuel st depth norm C p = Returned b st' ->
  (forall e d, d <> _dIdx st depth -> damping_v_h st' e d = damping_v_h st e d) /\
  (if b then st' = set_damping_v_h st (damping_v_h st')
   else exists cnt, 500 < cnt /\
          st' = print (set_damping_v_h st (damping_v_h st')) (msg_unable cnt)).
Proof. exact (jacobianRelax_frame fuel st depth norm C p b st'). Qed.


End InnerFrame.

Lemma inner_relaxation_changes_the_correction_only_witness :
  exists cnt, 500 < cnt /\
    print (coupled_pair (- 500) 501) (msg_unable 501)
    = print (set_damping_v_h (coupled_pair 0 0)
               (damping_v_h (print (coupled_pair (- 500) 501) (msg_unable 501))))
        (msg_unable cnt).
Proof.
  exact (proj2 (inner_relaxation_changes_the_correction_only
                  (host := host_of 1 1 1) 501 (coupled_pair 0 0) 1 1 1 0 false _
                  coupled_inner_solve_fails)).
Defined.


(** ** The accepted step of the line search *)

Lemma occurrences_one (e n : Z) :
  0 <= e < n -> occurrences e (zrange n) = 1%nat.
Proof.
  intros H. apply INR_eq. unfold occurrences.
  rewrite INR_length_filter, Rsum_indicator by assumption. reflexivity.
Qed.

Lemma axpy_steps_frame (w : R) (depth_idx n_x n_y n_z : Z) (l : list Z)
    (st : FASMultigrid) :
  let st' := fold_left (axpy_step w depth_idx n_x n_y n_z) l st in
  st' = set_u_h st (u_h st').
Proof.
  cbv zeta.
  apply (fold_left_inv (fun s => s = set_u_h st (u_h s)));
    [|symmetry; apply set_u_h_id].
  intros s e _ Hs. unfold axpy_step. now apply u_step.
Qed.

Section AcceptedStep.

Context {host : Host}.

(** A line search that accepts has rolled back fewer times than it has
    trials, and accepts a solver whose squared residual norm is at most
    the norm it was given. *)
Lemma lambda_trials_accept (s : nat) (depth_idx : Z) (norm : R) :
  forall st st',
    lambda_trials s st depth_idx norm = (true, st') ->
    (residual_norm st' depth_idx <= norm)%R /\
    st' = set_u_h st (u_h st') /\
    (forall e d, d <> depth_idx -> u_h st' e d = u_h st e d) /\
    exists r : nat,
      (r < s)%nat /\
      forall e idx,
        _array (u_h st' e depth_idx) idx
        = (_array (u_h st e depth_idx) idx
           + INR r
             * (INR (occurrences e (zrange (u_n st)))
                * (INR (hits (nx_h st depth_idx) (ny_h st depth_idx)
                          (nz_h st depth_idx) idx)
                   * (- 0.01 * _array (damping_v_h st e depth_idx) idx))))%R.
Proof.
  induction s as [|s IH]; intros st st' H; [discriminate|].
  cbn [lambda_trials] in H.
  destruct (Rle_dec (residual_norm st depth_idx) norm) as [Hle|Hgt].
  - inversion H; subst. splits.
    + exact Hle.
    + symmetry. apply set_u_h_id.
    + reflexivity.
    + exists 0%nat. split; [lia|]. intros. simpl. lra.
  - apply IH in H. destruct H as (Hres & Hfr & Hd' & r & Hr & Hu').
    rewrite lambda_roll_back_axpy in Hfr, Hd', Hu'.
    pose proof (axpy_steps_frame (- 0.01) depth_idx (nx_h st depth_idx)
                  (ny_h st depth_idx) (nz_h st depth_idx) (zrange (u_n st)) st)
      as Hfr0.
    destruct (axpy_steps (- 0.01) depth_idx (nx_h st depth_idx)
                (ny_h st depth_idx) (nz_h st depth_idx) (zrange (u_n st)) st)
      as (Hv & Hx & Hy & Hz & Hn & Hd & Hu).
    cbv zeta in Hfr0.
    rewrite Hv, Hx, Hy, Hz, Hn in Hu'. splits.
    + exact Hres.
    + rewrite Hfr, Hfr0. reflexivity.
    + intros e d Hne. now rewrite Hd', Hd.
    + exists (S r). split; [lia|]. intros e idx.
      rewrite Hu', Hu, S_INR. lra.
Qed.

(** The solver an accepting line search leaves. *)
Lemma getLambda_accept (st st' : FASMultigrid)
    (depth : Z) (norm : R) :
  let depth_idx := _dIdx st depth in
  let n_x := nx_h st depth_idx in
  let n_y := ny_h st depth_idx in
  let n_z := nz_h st depth_idx in
  _getLambda st depth norm = (true, st') ->
  (residual_norm st' depth_idx <= norm)%R /\
  st' = set_u_h st (u_h st') /\
  exists s : nat,
    (s < 100)%nat /\
    forall e i j k,
      0 <= e < u_n st -> 0 <= i < n_x -> 0 <= j < n_y -> 0 <= k < n_z ->
      let idx := H_INDEX i j k n_x n_y n_z in
      _array (u_h st' e depth_idx) idx
      = (_array (u_h st e depth_idx) idx
         + (1 - 0.01 * INR s) * _array (damping_v_h st e depth_idx) idx)%R.
Proof.
  intros depth_idx n_x n_y n_z H. unfold _getLambda in H.
  fold depth_idx in H. apply lambda_trials_accept in H.
  destruct H as (Hres & Hfr & _ & s & Hs & Hu').
  rewrite lambda_unit_step_axpy in Hfr, Hu'. fold n_x n_y n_z in Hfr, Hu'.
  pose proof (axpy_steps_frame 1.0 depth_idx n_x n_y n_z (zrange (u_n st)) st)
    as Hfr0.
  destruct (axpy_steps 1.0 depth_idx n_x n_y n_z (zrange (u_n st)) st)
    as (Hv & Hx & Hy & Hz & Hn & Hd & Hu).
  cbv zeta in Hfr0. rewrite Hv, Hx, Hy, Hz, Hn in Hu'. splits.
  - exact Hres.
  - rewrite Hfr, Hfr0. reflexivity.
  - exists s. split; [exact Hs|]. intros e i j k He Hi Hj Hk idx.
    rewrite Hu', Hu. fold n_x n_y n_z. unfold idx.
    rewrite occurrences_one, hits_one by assumption. cbn [INR]. lra.
Qed.


(** X20. When the line search accepts, the solver it leaves differs from
    the one it was given in [u] only, and its squared residual norm is at
    most the norm given; in exact arithmetic the unknowns have moved along
    the correction by a factor 1 - s/100 for a number s < 100 of roll
    backs: at every site of the depth, u + (1 - 0.01 s) v (the source
    adds v and subtracts 0.01 v s times, each time rounded). *)
Theorem accepted_step_of_the_line_search (st st' : FASMultigrid)
    (depth : Z) (norm : R) :
  let depth_idx := _dIdx st depth in
  let n_x := nx_h st depth_idx in
  let n_y := ny_h st depth_idx in
  let n_z := nz_h st depth_idx in
  _getLambda st depth norm = (true, st') ->
  (residual_norm st' depth_idx <= norm)%R /\
  st' = set_u_h st (u_h st') /\
  exists s : nat,
    (s < 100)%nat /\
    forall e i j k,
      0 <= e < u_n st -> 0 <= i < n_x -> 0 <= j < n_y -> 0 <= k < n_z ->
      let idx := H_INDEX i j k n_x n_y n_z in
      _array (u_h st' e depth_idx) idx
      = (_array (u_h st e depth_idx) idx
         + (1 - 0.01 * INR s) * _array (damping_v_h st e depth_idx) idx)%R.
Proof. exact (getLambda_accept st st' depth norm). Qed.

(** ** The smoother *)

(** The smoother on a solver whose residuals are below the tolerance. *)
Lemma smoother_converged (fuel : nat) (st : FASMultigrid)
    (depth max_iterations : Z) :
  (_getMaxResidualAllEqs st depth < relaxation_tolerance st)%R ->
  _relaxSolution_GaussSeidel fuel st depth max_iterations = Returned tt st.
Proof.
  intros H. unfold _relaxSolution_GaussSeidel.
  destruct (Z.to_nat max_iterations); [reflexivity|].
  now apply relax_loop_converged.
Qed.

(** X21. The smoother returns at once, the solver being left as it is,
    when every residual is below the tolerance: a solution that is good
    enough is not relaxed. *)
Theorem smoother_keeps_a_converged_solution (fuel : nat) (st : FASMultigrid)
    (depth max_iterations : Z) :
  (_getMaxResidualAllEqs st depth < relaxation_tolerance st)%R ->
  _relaxSolution_GaussSeidel fuel st depth max_iterations = Returned tt st.
Proof.
  exact (smoother_converged fuel st depth max_iterations).
Qed.

(** X22. Under the scheme [newton] the smoother does nothing: its loop
    only tests the residual, and the solver is returned as it was
    given. *)
Theorem smoother_does_nothing_under_newton (fuel : nat) (st : FASMultigrid)
    (depth max_iterations : Z) :
  relax_scheme st = newton ->
  _relaxSolution_GaussSeidel fuel st depth max_iterations = Returned tt st.
Proof.
  intros H. unfold _relaxSolution_GaussSeidel.
  induction (Z.to_nat max_iterations) as [|n IH]; [reflexivity|].
  cbn [relax_loop]. rewrite H, IH. now destruct (Rltb _ _).
Qed.

(** The norm and the right-hand side the smoother computes. *)
Lemma relax_norm_rhs_spec (st : FASMultigrid) (depth_idx : Z) :
  fst (relax_norm_rhs st depth_idx) = residual_norm st depth_idx /\
  snd (relax_norm_rhs st depth_idx)
  = set_jac_rhs_h st (jac_rhs_h (snd (relax_norm_rhs st depth_idx))).
Proof.
  unfold relax_norm_rhs, residual_norm.
  apply (fold_left_rel
    (fun (ns : R * FASMultigrid) (r : R) =>
       fst ns = r /\ snd ns = set_jac_rhs_h st (jac_rhs_h (snd ns)))).
  - intros ns r e _ Hns.
    apply (fold_left_rel
      (fun (ns : R * FASMultigrid) (r : R) =>
         fst ns = r /\ snd ns = set_jac_rhs_h st (jac_rhs_h (snd ns))));
      [|exact Hns].
    intros [n s] r' [[i j] k] _ [H1 H2]. cbn [fst snd] in *. subst r'.
    cbv zeta. cbn [fst snd]. rewrite H2. split; reflexivity.
  - cbn [fst snd]. split; [reflexivity|]. symmetry. apply set_jac_rhs_h_id.
Qed.

(** X23. The smoother never increases the squared norm of the residual:
    when it returns, the sum over the equations and the sites of the depth
    of [(F - coarse_src)^2] is at most what it was on entry. *)
Theorem smoother_never_increases_the_residual (fuel : nat)
    (st st' : FASMultigrid) (depth max_iterations : Z) :
  _relaxSolution_GaussSeidel fuel st depth max_iterations = Returned tt st' ->
  (residual_norm st' (_dIdx st depth) <= residual_norm st (_dIdx st depth))%R.
Proof.
  unfold _relaxSolution_GaussSeidel.
  generalize (Z.to_nat max_iterations) as iters. intros iters. revert st.
  induction iters as [|iters IH]; intros st H.
  - cbn [relax_loop] in H. apply Returned_state in H. subst. lra.
  - cbn [relax_loop] in H.
    destruct (Rltb _ _); [apply Returned_state in H; subst; lra|].
    destruct (relax_scheme st) eqn:Hs.
    3: now apply IH.
    all: destruct (relax_norm_rhs_spec st (_dIdx st depth)) as [Hn Hb];
      destruct (relax_norm_rhs st (_dIdx st depth)) as [norm sb];
      cbn [fst snd] in Hn, Hb;
      destruct (_jacobianRelax fuel sb depth norm 1 0) as [[|] sc| |] eqn:Hj;
      try discriminate;
      apply jacobianRelax_frame in Hj;
      destruct Hj as [_ Hc].
    all: try (destruct (_getLambda sc depth norm) as [[|] sd] eqn:Hl;
              [|discriminate];
              apply getLambda_accept in Hl;
              destruct Hl as (Hres & Hd & _);
              apply IH in H;
              replace (_dIdx sd depth) with (_dIdx st depth) in H
                by (rewrite Hd, Hc, Hb; reflexivity);
              replace (_dIdx sc depth) with (_dIdx st depth) in Hres
                by (rewrite Hc, Hb; reflexivity);
              lra).
    all: destruct Hc as (cnt & _ & Hc); apply Returned_state in H; subst st';
      rewrite Hc, Hb; right; reflexivity.
Qed.

End AcceptedStep.

(** ** The smoother on a single site *)

Lemma cpow_two (x : R) : cpow x 2 = (x * x)%R.
Proof.
  rewrite cpow_int. unfold powerRZ. change (Pos.to_nat 2) with 2%nat.
  cbn [pow]. lra.
Qed.

Lemma cpow_two_minus_one (x : R) : cpow x (2 - 1.0) = x.
Proof. replace (2 - 1.0)%R with 1%R by lra. apply cpow_one. Qed.

Ltac site_dims :=
  repeat match goal with
  | |- context [u_n (quadratic_site ?e ?m ?c ?v ?r)] =>
      change (u_n (quadratic_site e m c v r)) with 1
  | |- context [nx_h (quadratic_site ?e ?m ?c ?v ?r) 0] =>
      change (nx_h (quadratic_site e m c v r) 0) with 1
  | |- context [ny_h (quadratic_site ?e ?m ?c ?v ?r) 0] =>
      change (ny_h (quadratic_site e m c v r) 0) with 1
  | |- context [nz_h (quadratic_site ?e ?m ?c ?v ?r) 0] =>
      change (nz_h (quadratic_site e m c v r) 0) with 1
  | |- context [_dIdx (quadratic_site ?e ?m ?c ?v ?r) 1] =>
      change (_dIdx (quadratic_site e m c v r) 1) with 0
  end;
  change (zrange 1) with [0];
  change (FAS_LOOP3_N 1 1 1) with [(0, 0, 0)].

(** Two single-site solvers with the same numbers are equal. *)
Ltac site_eq :=
  unfold set_damping_v_h, set_jac_rhs_h, set_u_h, quadratic_site, store_grid,
    with_array;
  cbn -[IZR Rplus Rmult Rminus Ropp Rdiv Rinv store Z.eqb];
  f_equal;
  let e := fresh "e" in
  let d := fresh "d" in
  let i := fresh "i" in
  extensionality e; extensionality d; unfold store;
  cbn -[IZR Rplus Rmult Rminus Ropp Rdiv Rinv];
  destruct (Z.eqb_spec e 0), (d =? 0); cbn [andb]; try reflexivity;
  f_equal; extensionality i; destruct (i =? 0); try reflexivity.

Lemma site_eval (eps m c v r : R) :
  _evaluateEllipticEquationPt (host := host_of 1 1 1)
    (quadratic_site eps m c v r) 0 0 0 0 0
  = (eps + c + m * (c * c))%R.
Proof.
  unfold _evaluateEllipticEquationPt. unroll.
  rewrite cpow_one, cpow_two. lra.
Qed.

Lemma site_residual_norm (eps m c v r : R) :
  residual_norm (host := host_of 1 1 1) (quadratic_site eps m c v r) 0
  = ((eps + c + m * (c * c)) * (eps + c + m * (c * c)))%R.
Proof.
  unfold residual_norm. site_dims. cbn [fold_left]. rewrite site_eval.
  unroll. lra.
Qed.

Lemma site_max_residual (eps m c v r : R) :
  _getMaxResidualAllEqs (host := host_of 1 1 1) (quadratic_site eps m c v r) 1
  = Rabs (eps + c + m * (c * c)).
Proof.
  unfold _getMaxResidualAllEqs, _getMaxResidual. site_dims.
  cbn [fold_left]. rewrite site_eval. unroll.
  replace (0 - (eps + c + m * (c * c)))%R with (- (eps + c + m * (c * c)))%R
    by lra.
  rewrite Rabs_Ropp. pose proof (Rabs_pos (eps + c + m * (c * c))).
  unfold Rltb. destruct (Rlt_dec 0 _).
  - apply Rmax_right. lra.
  - rewrite Rmax_left by lra. lra.
Qed.

Lemma site_norm_rhs (eps m c v r : R) :
  relax_norm_rhs (host := host_of 1 1 1) (quadratic_site eps m c v r) 0
  = (((eps + c + m * (c * c)) * (eps + c + m * (c * c)))%R,
     quadratic_site eps m c v (- (eps + c + m * (c * c)))).
Proof.
  unfold relax_norm_rhs. site_dims. cbn [fold_left]. rewrite site_eval.
  unroll. f_equal; [lra|]. site_eq. lra.
Qed.

Lemma site_zero (eps m c v r : R) :
  jacobian_zero (quadratic_site eps m c v r) 0 = quadratic_site eps m c 0 r.
Proof.
  unfold jacobian_zero. site_dims. cbn [fold_left]. site_dims.
  cbn [fold_left]. site_eq. lra.
Qed.

Lemma site_eval_der (eps m c v r : R) :
  _evaluateDerEllipticEquation (host := host_of 1 1 1)
    (quadratic_site eps m c v r) 0 0 0 0 0 0 = ((1 + 2 * m * c) * v)%R.
Proof.
  unfold _evaluateDerEllipticEquation. unroll.
  rewrite ?cpow_one, ?cpow_zero_exponent, ?cpow_two, ?cpow_two_minus_one. lra.
Qed.

Lemma site_sweep (eps m c v r : R) :
  (1 + 2 * m * c <> 0)%R ->
  jacobian_sweep (host := host_of 1 1 1) (quadratic_site eps m c v r) 0
  = quadratic_site eps m c (r / (1 + 2 * m * c)) r.
Proof.
  intros Hk. unfold jacobian_sweep. site_dims. cbn [fold_left].
  unfold _evaluateIterationForJacEquation. unroll.
  rewrite ?cpow_one, ?cpow_zero_exponent, ?cpow_two, ?cpow_two_minus_one.
  site_eq. field. lra.
Qed.

Lemma site_jacobian_norm (eps m c v r : R) :
  jacobian_norm (host := host_of 1 1 1) (quadratic_site eps m c v r) 0
  = (((1 + 2 * m * c) * v - r) * ((1 + 2 * m * c) * v - r))%R.
Proof.
  unfold jacobian_norm. site_dims. cbn [fold_left]. rewrite site_eval_der.
  unroll. lra.
Qed.

Lemma site_unit_step (eps m c v r : R) :
  lambda_unit_step (quadratic_site eps m c v r) 0
  = quadratic_site eps m (c + v) v r.
Proof.
  unfold lambda_unit_step. site_dims. cbn [fold_left]. site_eq. lra.
Qed.

Lemma site_roll_back (eps m c v r : R) :
  lambda_roll_back (quadratic_site eps m c v r) 0
  = quadratic_site eps m (c - 0.01 * v) v r.
Proof.
  unfold lambda_roll_back. site_dims. cbn [fold_left]. site_eq.
Qed.

(** The inner relaxation succeeds after one sweep, with the correction
    [v = r / (1 + 2 m c)]. *)
Lemma site_inner_solve (eps m c v r norm : R) :
  (1 + 2 * m * c <> 0)%R -> (0 < norm < 1e100)%R ->
  _jacobianRelax (host := host_of 1 1 1) 2 (quadratic_site eps m c v r) 1
    norm 1 0
  = Returned true (quadratic_site eps m c (r / (1 + 2 * m * c)) r).
Proof.
  intros Hk Hn. unfold _jacobianRelax.
  change (_dIdx (quadratic_site eps m c v r) 1) with 0. rewrite site_zero.
  cbn [jacobian_loop]. rewrite bound_C1_p0.
  destruct (Rge_dec 1e100 norm) as [_|H]; [|lra].
  rewrite site_sweep, site_jacobian_norm by assumption.
  replace (((1 + 2 * m * c) * (r / (1 + 2 * m * c)) - r)
           * ((1 + 2 * m * c) * (r / (1 + 2 * m * c)) - r))%R with 0%R
    by (field; assumption).
  rewrite Rltb_false by lra. rewrite andb_false_r.
  destruct (Rge_dec 0 norm) as [H|_]; [lra|reflexivity].
Qed.

(** The line search on the equation u = 0, from u = 3 with the
    correction -3: the full step is accepted. *)
Lemma linear_site_accept :
  _getLambda (host := host_of 1 1 1) (quadratic_site 0 0 3 (- 3) (- 3)) 1 9
  = (true, quadratic_site 0 0 0 (- 3) (- 3)).
Proof.
  unfold _getLambda.
  change (_dIdx (quadratic_site 0 0 3 (- 3) (- 3)) 1) with 0.
  rewrite site_unit_step.
  replace (3 + - 3)%R with 0%R by lra.
  change 100%nat with (S 99). cbn [lambda_trials].
  rewrite site_residual_norm.
  destruct (Rle_dec _ _) as [_|H]; [reflexivity|]. exfalso. apply H. lra.
Qed.

(** The smoother on the equation u = 0, from u = 3: one iteration, whose
    line search accepts the full step, solves it. *)
Lemma linear_site_run :
  _relaxSolution_GaussSeidel (host := host_of 1 1 1) 2
    (quadratic_site 0 0 3 0 0) 1 10
  = Returned tt (quadratic_site 0 0 0 (- 3) (- 3)).
Proof.
  unfold _relaxSolution_GaussSeidel. change (Z.to_nat 10) with 10%nat.
  rewrite relax_loop_step.
  - change (_dIdx (quadratic_site 0 0 3 0 0) 1) with 0.
    rewrite site_norm_rhs.
    replace ((0 + 3 + 0 * (3 * 3)) * (0 + 3 + 0 * (3 * 3)))%R with 9%R by lra.
    replace (- (0 + 3 + 0 * (3 * 3)))%R with (- 3)%R by lra.
    rewrite site_inner_solve by lra.
    replace (- 3 / (1 + 2 * 0 * 3))%R with (- 3)%R by (field; lra).
    rewrite linear_site_accept.
    apply relax_loop_converged. rewrite site_max_residual.
    replace (0 + 0 + 0 * (0 * 0))%R with 0%R by lra. rewrite Rabs_R0.
    change (relaxation_tolerance (quadratic_site 0 0 0 (- 3) (- 3))) with 1e-8%R.
    lra.
  - rewrite site_max_residual. apply Rltb_false.
    replace (0 + 3 + 0 * (3 * 3))%R with 3%R by lra.
    rewrite Rabs_pos_eq by lra.
    change (relaxation_tolerance (quadratic_site 0 0 3 0 0)) with 1e-8%R. lra.
  - discriminate.
Qed.

(** On the equation 1 + u + 1000 u^2 = 0, from u = 0, the correction of
    the inner relaxation is -1, and the line search finds no step: the
    residual grows along the correction for every factor from 1 down to
    0.01. *)
Lemma quadratic_site_trials (s : nat) :
  forall c : R,
    (- 1 <= c <= - 0.01 * INR s)%R ->
    lambda_trials (host := host_of 1 1 1) s
      (quadratic_site 1 1000 c (- 1) (- 1)) 0 1
    = (false, quadratic_site 1 1000 (c + 0.01 * INR s) (- 1) (- 1)).
Proof.
  induction s as [|s IH]; intros c Hc.
  - cbn [lambda_trials INR]. do 2 f_equal. lra.
  - rewrite S_INR in Hc. pose proof (pos_INR s) as Hs.
    cbn [lambda_trials]. rewrite site_residual_norm.
    destruct (Rle_dec _ _) as [H|_]; [exfalso; nra|].
    rewrite site_roll_back.
    replace (c - 0.01 * - 1)%R with (c + 0.01)%R by lra.
    rewrite IH by lra. rewrite S_INR. do 2 f_equal. lra.
Qed.

Lemma quadratic_site_run :
  _relaxSolution_GaussSeidel (host := host_of 1 1 1) 2
    (quadratic_site 1 1000 0 0 0) 1 10
  = Thrown (- 1)
      (print (quadratic_site 1 1000 0 (- 1) (- 1)) msg_no_damping).
Proof.
  unfold _relaxSolution_GaussSeidel. change (Z.to_nat 10) with 10%nat.
  rewrite relax_loop_step.
  - change (_dIdx (quadratic_site 1 1000 0 0 0) 1) with 0.
    rewrite site_norm_rhs.
    replace ((1 + 0 + 1000 * (0 * 0)) * (1 + 0 + 1000 * (0 * 0)))%R with 1%R
      by lra.
    replace (- (1 + 0 + 1000 * (0 * 0)))%R with (- 1)%R by lra.
    rewrite site_inner_solve by lra.
    replace (- 1 / (1 + 2 * 1000 * 0))%R with (- 1)%R by (field; lra).
    unfold _getLambda.
    change (_dIdx (quadratic_site 1 1000 0 (- 1) (- 1)) 1) with 0.
    rewrite site_unit_step. replace (0 + - 1)%R with (- 1)%R by lra.
    assert (E : INR 100 = 100%R) by (rewrite INR_IZR_INZ; reflexivity).
    rewrite quadratic_site_trials by (rewrite E; lra).
    rewrite E. replace (- 1 + 0.01 * 100)%R with 0%R by lra. reflexivity.
  - rewrite site_max_residual. apply Rltb_false.
    replace (1 + 0 + 1000 * (0 * 0))%R with 1%R by lra.
    rewrite Rabs_R1.
    change (relaxation_tolerance (quadratic_site 1 1000 0 0 0)) with 1e-8%R. lra.
  - discriminate.
Qed.

(** ** The exception of the cycles *)

Lemma throws_bind {A B} (m : outcome A) (f : A -> FASMultigrid -> outcome B) :
  throws_the_damping_failure m ->
  (forall a st, throws_the_damping_failure (f a st)) ->
  throws_the_damping_failure (bind m f).
Proof.
  intros Hm Hf c st' H. destruct m as [a st|c0 st0|]; cbn [bind] in H.
  - now apply (Hf a st).
  - inversion H; subst. now apply Hm.
  - discriminate.
Qed.

Lemma throws_returned {A} (a : A) (st : FASMultigrid) :
  throws_the_damping_failure (Returned a st).
Proof. intros c st' H. discriminate. Qed.

Lemma throws_for_each {T} (l : list T)
    (body : T -> FASMultigrid -> outcome unit) :
  (forall x st, throws_the_damping_failure (body x st)) ->
  forall st, throws_the_damping_failure (for_each l body st).
Proof.
  intros Hb. induction l as [|x l IH]; intros st; cbn [for_each].
  - apply throws_returned.
  - apply throws_bind; [apply Hb|]. intros _ st1. apply IH.
Qed.

Section Cycles.

Context {host : Host}.

Lemma throws_smoother (fuel : nat) (st : FASMultigrid)
    (depth max_iterations : Z) :
  throws_the_damping_failure
    (_relaxSolution_GaussSeidel fuel st depth max_iterations).
Proof.
  intros c st' H. unfold _relaxSolution_GaussSeidel in H.
  apply relax_loop_throws in H.
  destruct H as (s & sz & sd & _ & _ & _ & -> & ->).
  split; [reflexivity|]. exists (cout sd). reflexivity.
Qed.

Lemma throws_VCycle (fuel : nat) (st : FASMultigrid) :
  throws_the_damping_failure (VCycle fuel st).
Proof.
  unfold VCycle.
  apply throws_bind; [apply throws_smoother|]. intros _ st1.
  apply throws_bind.
  - apply throws_for_each. intros coarse_depth st2.
    apply throws_bind; [apply throws_smoother|]. intros _ st3.
    apply throws_returned.
  - intros _ st2.
    apply throws_bind; [apply throws_smoother|]. intros _ st3.
    apply throws_returned.
Qed.

Lemma throws_VCycles (fuel : nat) (st : FASMultigrid) (num_cycles : Z) :
  throws_the_damping_failure (VCycles fuel st num_cycles).
Proof.
  unfold VCycles.
  apply throws_bind.
  - apply throws_for_each. intros _ st1. apply throws_VCycle.
  - intros _ st1.
    apply throws_bind; [apply throws_smoother|]. intros _ st2.
    apply throws_returned.
Qed.

(** X24. The only exception a cycle lets out is the one of the smoother:
    when [VCycle] or [VCycles] throws, it throws -1, and the last line
    written is the message of the line search that found no damping
    factor (the statistics of the solution are then not printed). *)
Theorem exception_of_the_cycles (fuel : nat) (st : FASMultigrid)
    (num_cycles c : Z) (st' : FASMultigrid) :
  VCycle fuel st = Thrown c st' \/ VCycles fuel st num_cycles = Thrown c st' ->
  c = -1 /\ exists pre, cout st' = pre ++ [msg_no_damping].
Proof.
  intros [H|H].
  - now apply (throws_VCycle fuel st).
  - now apply (throws_VCycles fuel st num_cycles).
Qed.

End Cycles.

(** [VCycles(0)] on the equation 1 + u + 1000 u^2 = 0 throws. *)
Lemma quadratic_site_cycles :
  VCycles (host := host_of 1 1 1) 2 (quadratic_site 1 1000 0 0 0) 0
  = Thrown (- 1)
      (print (quadratic_site 1 1000 0 (- 1) (- 1)) msg_no_damping).
Proof.
  unfold VCycles. change (zrange 0) with (@nil Z). cbn [for_each bind].
  change (max_depth (quadratic_site 1 1000 0 0 0)) with 1.
  rewrite quadratic_site_run. reflexivity.
Qed.

Lemma exception_of_the_cycles_witness :
  -1 = -1 /\
  exists pre,
    cout (print (quadratic_site 1 1000 0 (- 1) (- 1)) msg_no_damping)
    = pre ++ [msg_no_damping].
Proof.
  exact (exception_of_the_cycles (host := host_of 1 1 1) 2
           (quadratic_site 1 1000 0 0 0) 0 (- 1) _
           (or_intror quadratic_site_cycles)).
Defined.

Lemma accepted_step_of_the_line_search_witness :
  (residual_norm (host := host_of 1 1 1) (quadratic_site 0 0 0 (- 3) (- 3))
     (_dIdx (quadratic_site 0 0 3 (- 3) (- 3)) 1) <= 9)%R.
Proof.
  exact (proj1 (accepted_step_of_the_line_search (host := host_of 1 1 1)
                  (quadratic_site 0 0 3 (- 3) (- 3)) _ 1 9 linear_site_accept)).
Defined.

Lemma smoother_never_increases_the_residual_witness :
  (residual_norm (host := host_of 1 1 1) (quadratic_site 0 0 0 (- 3) (- 3))
     (_dIdx (quadratic_site 0 0 3 0 0) 1)
   <= residual_norm (host := host_of 1 1 1) (quadratic_site 0 0 3 0 0)
        (_dIdx (quadratic_site 0 0 3 0 0) 1))%R.
Proof.
  exact (smoother_never_increases_the_residual (host := host_of 1 1 1) 2
           (quadratic_site 0 0 3 0 0) _ 1 10 linear_site_run).
Defined.

Lemma smoother_keeps_a_converged_solution_witness :
  _relaxSolution_GaussSeidel (host := host_of 3 1 1) 1 crossing_solver 1 10
  = Returned tt crossing_solver.
Proof.
  apply (smoother_keeps_a_converged_solution (host := host_of 3 1 1)).
  rewrite crossing_residual.
  change (relaxation_tolerance crossing_solver) with 1e-8%R. lra.
Defined.

Lemma smoother_does_nothing_under_newton_witness :
  let st := set_relax_scheme (quadratic_site 0 0 3 0 0) newton in
  _relaxSolution_GaussSeidel (host := host_of 1 1 1) 2 st 1 10 = Returned tt st.
Proof.
  intros st.
  apply (smoother_does_nothing_under_newton (host := host_of 1 1 1)).
  reflexivity.
Defined.

(** ** What a cycle reports *)

Lemma bind_returned {A B} (m : outcome A)
    (f : A -> FASMultigrid -> outcome B) (b : B) (st' : FASMultigrid) :
  bind m f = Returned b st' ->
  exists a st, m = Returned a st /\ f a st = Returned b st'.
Proof.
  destruct m as [a st|c st|]; cbn [bind]; intros H; try discriminate.
  exists a, st. auto.
Qed.

(** X25. When [VCycle] returns, the last line it has written is the final
    residual, and the number it reports is the largest residual of the
    solver it returns, at the finest depth. *)
Theorem cycle_reports_its_residual {host : Host} (fuel : nat)
    (st st' : FASMultigrid) :
  VCycle fuel st = Returned tt st' ->
  exists pre,
    cout st'
    = pre ++ [msg_final_residual (_getMaxResidualAllEqs st' (max_depth st'))].
Proof.
  unfold VCycle. intros H.
  apply bind_returned in H. destruct H as (_ & st1 & _ & H).
  apply bind_returned in H. destruct H as (_ & st2 & _ & H).
  apply bind_returned in H. destruct H as (_ & st3 & _ & H).
  apply Returned_state in H. subst st'. exists (cout st3). reflexivity.
Qed.

(** A cycle of the converged solver of one depth. *)
Lemma crossing_cycle :
  VCycle (host := host_of 3 1 1) 1 crossing_solver
  = Returned tt
      (print
         (set_tmp_h (print crossing_solver (msg_initial_residual 0))
            (_copyGrid (u_h crossing_solver) (tmp_h crossing_solver) 0 1
               crossing_solver))
         (msg_final_residual 0)).
Proof.
  assert (T : (0 < 1e-8)%R) by lra.
  unfold VCycle, _relaxSolution_GaussSeidel.
  change (Z.to_nat (max_relax_iters crossing_solver)) with 10%nat.
  change (max_depth crossing_solver) with 1.
  rewrite relax_loop_converged
    by (rewrite crossing_residual; exact T).
  cbn [bind]. change (max_depth crossing_solver) with 1.
  rewrite crossing_residual.
  set (st1 := print crossing_solver (msg_initial_residual 0)).
  change (u_n st1) with 1. change (zrange 1) with [0]. cbn [fold_left].
  change (fine_depths st1) with (@nil Z). cbn [fold_left].
  change (min_depth st1) with 1.
  change (u_h st1) with (u_h crossing_solver).
  change (tmp_h st1) with (tmp_h crossing_solver).
  change (_copyGrid (u_h crossing_solver) (tmp_h crossing_solver) 0 1 st1)
    with (_copyGrid (u_h crossing_solver) (tmp_h crossing_solver) 0 1
            crossing_solver).
  set (st2 := set_tmp_h st1 _).
  change (min_depth st2) with 1. change (max_depth st2) with 1.
  change (zrange (1 - 1)) with (@nil Z). cbn [map for_each bind].
  change (Z.to_nat (max_relax_iters st2)) with 10%nat.
  change (max_depth st2) with 1.
  rewrite relax_loop_converged.
  - cbn [bind]. change (max_depth st2) with 1.
    change (_getMaxResidualAllEqs st2 1)
      with (_getMaxResidualAllEqs (host := host_of 3 1 1) crossing_solver 1).
    rewrite crossing_residual. reflexivity.
  - change (_getMaxResidualAllEqs st2 1)
      with (_getMaxResidualAllEqs (host := host_of 3 1 1) crossing_solver 1).
    rewrite crossing_residual. exact T.
Qed.

Lemma cycle_reports_its_residual_witness :
  let st' :=
    print
      (set_tmp_h (print crossing_solver (msg_initial_residual 0))
         (_copyGrid (u_h crossing_solver) (tmp_h crossing_solver) 0 1
            crossing_solver))
      (msg_final_residual 0) in
  exists pre,
    cout st'
    = pre ++ [msg_final_residual
                (_getMaxResidualAllEqs (host := host_of 3 1 1) st'
                   (max_depth st'))].
Proof.
  intros st'.
  exact (cycle_reports_its_residual (host := host_of 3 1 1) 1 crossing_solver
           st' crossing_cycle).
Defined.

(** ** The sources *)

Lemma sources_changed_refl (base : FASMultigrid) : sources_changed base base.
Proof. unfold sources_changed. now destruct base. Qed.

Lemma sources_step (base s : FASMultigrid) (x : Z -> fas_heirarchy_set_t) :
  sources_changed base s -> sources_changed base (set_rho_h s x).
Proof. unfold sources_changed. intros ->. reflexivity. Qed.

Lemma sources_fields (base s : FASMultigrid) :
  sources_changed base s ->
  u_n s = u_n base /\ molecule_n s = molecule_n base /\
  min_depth s = min_depth base /\ max_depth s = max_depth base /\
  nx_h s = nx_h base /\ ny_h s = ny_h base /\ nz_h s = nz_h base.
Proof. unfold sources_changed. intros ->. splits; reflexivity. Qed.

(** A loop over the equations and their molecules whose body, run for the
    molecule [i] of the equation [e], changes the source hierarchy of this
    molecule only, after a step [pre] that changes the sources of the
    equation [e] only. *)
Lemma sources_loop (base : FASMultigrid)
    (pre : FASMultigrid -> Z -> FASMultigrid)
    (body : FASMultigrid -> Z -> Z -> FASMultigrid)
    (P K : Z -> Z -> fas_heirarchy_t -> fas_heirarchy_t) :
  (forall s e, sources_changed base s ->
     sources_changed base (pre s e) /\
     (forall e', e' <> e -> rho_h (pre s e) e' = rho_h s e') /\
     (forall i, rho_h (pre s e) e i = P e i (rho_h s e i))) ->
  (forall s e i, sources_changed base s ->
     sources_changed base (body s e i) /\
     (forall e' i', e' <> e \/ i' <> i ->
        rho_h (body s e i) e' i' = rho_h s e' i') /\
     rho_h (body s e i) e i = K e i (rho_h s e i)) ->
  let s' :=
    fold_left (fun s e =>
      fold_left (fun s i => body s e i) (zrange (molecule_n s e)) (pre s e))
      (zrange (u_n base)) base in
  sources_changed base s' /\
  forall e i, 0 <= e < u_n base ->
    rho_h s' e i
    = if (0 <=? i) && (i <? molecule_n base e)
      then K e i (P e i (rho_h base e i)) else P e i (rho_h base e i).
Proof.
  intros Hpre Hbody.
  (* the loop over the molecules of one equation *)
  assert (M : forall s e, sources_changed base s ->
    let s1 := fold_left (fun s i => body s e i) (zrange (molecule_n s e))
                (pre s e) in
    sources_changed base s1 /\
    (forall e', e' <> e -> rho_h s1 e' = rho_h s e') /\
    forall i, rho_h s1 e i
              = if (0 <=? i) && (i <? molecule_n base e)
                then K e i (P e i (rho_h s e i)) else P e i (rho_h s e i)).
  { intros s e Hs. cbv zeta.
    destruct (sources_fields base s Hs) as (_ & Hm & _). rewrite Hm.
    destruct (Hpre s e Hs) as (Fp & Lp & Vp).
    destruct (Z_le_gt_dec 0 (molecule_n base e)) as [Hn|Hn].
    2: { rewrite zrange_nonpos by lia. cbn [fold_left]. splits; auto.
         intros i. rewrite Vp.
         destruct (Z.leb_spec 0 i), (Z.ltb_spec i (molecule_n base e));
           cbn [andb]; try reflexivity; lia. }
    pose (Q := fun (t : Z) (s1 : FASMultigrid) =>
      sources_changed base s1 /\
      (forall e', e' <> e -> rho_h s1 e' = rho_h s e') /\
      forall i, rho_h s1 e i
                = if (0 <=? i) && (i <? t)
                  then K e i (P e i (rho_h s e i)) else P e i (rho_h s e i)).
    apply (fold_zrange_ind (fun s i => body s e i) Q); [exact Hn| |].
    - unfold Q. splits; auto. intros i. rewrite Vp.
      destruct (Z.leb_spec 0 i), (Z.ltb_spec i 0); cbn [andb];
        try reflexivity; lia.
    - intros t s1 Ht (F1 & L1 & V1). unfold Q.
      destruct (Hbody s1 e t F1) as (Fb & Lb & Vb). splits.
      + exact Fb.
      + intros e' He'. extensionality i'. rewrite Lb by auto. now rewrite L1.
      + intros i. destruct (Z.eq_dec i t) as [->|Hne].
        * rewrite Vb, V1.
          destruct (Z.leb_spec 0 t), (Z.ltb_spec t t), (Z.ltb_spec t (t + 1));
            cbn [andb]; try reflexivity; lia.
        * rewrite Lb by auto. rewrite V1.
          destruct (Z.leb_spec 0 i), (Z.ltb_spec i t), (Z.ltb_spec i (t + 1));
            cbn [andb]; try reflexivity; lia. }
  cbv zeta.
  destruct (Z_le_gt_dec 0 (u_n base)) as [Hn|Hn].
  2: { rewrite zrange_nonpos by lia. cbn [fold_left].
       split; [apply sources_changed_refl|]. intros; lia. }
  pose (Q := fun (t : Z) (s : FASMultigrid) =>
    sources_changed base s /\
    forall e i,
      rho_h s e i
      = if (0 <=? e) && (e <? t)
        then (if (0 <=? i) && (i <? molecule_n base e)
              then K e i (P e i (rho_h base e i)) else P e i (rho_h base e i))
        else rho_h base e i).
  assert (G : Q (u_n base)
    (fold_left (fun s e =>
       fold_left (fun s i => body s e i) (zrange (molecule_n s e)) (pre s e))
       (zrange (u_n base)) base)).
  { apply (fold_zrange_ind _ Q); [exact Hn| |].
    - unfold Q. split; [apply sources_changed_refl|]. intros e i.
      destruct (Z.leb_spec 0 e), (Z.ltb_spec e 0); cbn [andb];
        try reflexivity; lia.
    - intros t s Ht (F1 & V1). unfold Q.
      destruct (M s t F1) as (Fm & Lm & Vm). split; [exact Fm|].
      intros e i. destruct (Z.eq_dec e t) as [->|Hne].
      + rewrite Vm, V1.
        destruct (Z.leb_spec 0 t), (Z.ltb_spec t t), (Z.ltb_spec t (t + 1));
          cbn [andb]; try reflexivity; lia.
      + rewrite Lm by assumption. rewrite V1.
        destruct (Z.leb_spec 0 e), (Z.ltb_spec e t), (Z.ltb_spec e (t + 1));
          cbn [andb]; try reflexivity; lia. }
  destruct G as (F & V). split; [exact F|]. intros e i He. rewrite V.
  destruct (Z.leb_spec 0 e), (Z.ltb_spec e (u_n base)); cbn [andb];
    try reflexivity; lia.
Qed.

Lemma restrict_same_depths (base s : FASMultigrid) (h : fas_heirarchy_t)
    (depth : Z) :
  sources_changed base s ->
  _restrictFine2coarse s h depth = _restrictFine2coarse base h depth.
Proof. unfold sources_changed. intros ->. reflexivity. Qed.

(** The loop over the depths of [initializeRhoHeirarchy]. *)
Lemma initialize_one (base : FASMultigrid) (e i : Z) (l : list Z) :
  forall s, sources_changed base s ->
    let s' :=
      fold_left (fun s depth =>
        set_rho_h s (store (rho_h s) e
          (store (rho_h s e) i (_restrictFine2coarse s (rho_h s e i) depth))))
        l s in
    sources_changed base s' /\
    (forall e' i', e' <> e \/ i' <> i -> rho_h s' e' i' = rho_h s e' i') /\
    rho_h s' e i
    = fold_left (fun h depth => _restrictFine2coarse base h depth) l
        (rho_h s e i).
Proof.
  induction l as [|x l IH]; intros s Hs; cbn [fold_left].
  - cbv zeta. splits; auto.
  - set (s1 := set_rho_h s _).
    assert (H1 : sources_changed base s1) by now apply sources_step.
    destruct (IH s1 H1) as (F & L & V). cbv zeta in *. splits.
    + exact F.
    + intros e' i' Hne. rewrite L by assumption.
      unfold s1. cbn [rho_h set_rho_h]. unfold store.
      destruct (Z.eqb_spec e' e) as [->|]; [|reflexivity].
      destruct (Z.eqb_spec i' i) as [->|]; [|reflexivity].
      destruct Hne; contradiction.
    + rewrite V. f_equal. unfold s1. cbn [rho_h set_rho_h].
      rewrite !store_same. now apply restrict_same_depths.
Qed.

(** Each source hierarchy is restricted from the finest depth down, the
    hierarchies of the other molecules being left. *)
Lemma initialize_spec (st : FASMultigrid) (e i : Z) :
  0 <= e < u_n st ->
  rho_h (initializeRhoHeirarchy st) e i
  = if (0 <=? i) && (i <? molecule_n st e) then restrict_down st (rho_h st e i)
    else rho_h st e i.
Proof.
  intros He. unfold initializeRhoHeirarchy.
  pose proof (sources_loop st (fun s _ => s)
    (fun s e i =>
       fold_left (fun s depth =>
         set_rho_h s (store (rho_h s) e
           (store (rho_h s e) i (_restrictFine2coarse s (rho_h s e i) depth))))
         (fine_depths s) s)
    (fun _ _ h => h) (fun _ _ h => restrict_down st h)) as G.
  cbv zeta in G. apply G; [| |exact He].
  - intros s e0 Hs. splits; auto.
  - intros s e0 i0 Hs.
    replace (fine_depths s) with (fine_depths st).
    + apply (initialize_one st e0 i0 (fine_depths st) s Hs).
    + unfold fine_depths. destruct (sources_fields st s Hs)
        as (_ & _ & -> & -> & _). reflexivity.
Qed.

(** Restriction of a grid that holds [c], of twice the dimensions of the
    coarse grid, fills the coarse grid with [c]. *)
Lemma restrict_fills (st : FASMultigrid) (h : fas_heirarchy_t)
    (fine_depth : Z) (c : R) :
  let fine := h (_dIdx st fine_depth) in
  let coarse := h (_dIdx st fine_depth - 1) in
  0 < nx coarse -> 0 < ny coarse -> 0 < nz coarse ->
  nx fine = 2 * nx coarse -> ny fine = 2 * ny coarse ->
  nz fine = 2 * nz coarse ->
  pts fine = nx fine * ny fine * nz fine ->
  pts coarse = nx coarse * ny coarse * nz coarse ->
  holds c fine ->
  holds c (_restrictFine2coarse st h fine_depth (_dIdx st fine_depth - 1)).
Proof.
  intros fine coarse Hx Hy Hz Ex Ey Ez Pf Pc Hc idx Hidx.
  assert (Q : forall n, Z.quot (2 * n) 2 = n)
    by (intros n; rewrite Z.mul_comm; apply Z.quot_mul; lia).
  assert (Hp : pts (_restrictFine2coarse st h fine_depth (_dIdx st fine_depth - 1))
               = pts coarse).
  { unfold _restrictFine2coarse. now rewrite store_same. }
  rewrite Hp, Pc in Hidx.
  pose proof (linear_index_split idx (ny coarse) (nz coarse) Hy Hz) as E.
  set (X := idx / (ny coarse * nz coarse)) in *.
  set (Y := (idx / nz coarse) mod ny coarse) in *.
  set (Z' := idx mod nz coarse) in *.
  assert (HY : 0 <= Y < ny coarse) by (apply Z.mod_pos_bound; lia).
  assert (HZ : 0 <= Z' < nz coarse) by (apply Z.mod_pos_bound; lia).
  assert (HX : 0 <= X < nx coarse).
  { unfold X. split.
    - apply Z.div_pos; nia.
    - apply Z.div_lt_upper_bound; nia. }
  rewrite E.
  rewrite <- (H_INDEX_in_range X Y Z' (nx coarse) (ny coarse) (nz coarse))
    by assumption.
  pose proof (restrict_writes_constant st h fine_depth c X Y Z') as W.
  cbv zeta in W. fold fine in W. rewrite Ex, Ey, Ez, !Q in W.
  apply W; try assumption.
  intros i Hi. apply Hc. rewrite Pf, Ex, Ey, Ez. exact Hi.
Qed.

Lemma restrict_keeps_dims (st : FASMultigrid) (h : fas_heirarchy_t)
    (fine_depth t : Z) :
  let g := _restrictFine2coarse st h fine_depth t in
  nx g = nx (h t) /\ ny g = ny (h t) /\ nz g = nz (h t) /\ pts g = pts (h t).
Proof.
  cbv zeta. unfold _restrictFine2coarse, store.
  destruct (t =? _dIdx st fine_depth - 1) eqn:E; [|auto].
  apply Z.eqb_eq in E. subst t. auto.
Qed.

(** The restrictions of a hierarchy whose dimensions double from each
    depth to the next finer one, and whose finest grid holds [c], fill
    every depth with [c]. *)
Lemma restrict_down_constant (st : FASMultigrid) (h : fas_heirarchy_t) (c : R) :
  let top := _dIdx st (max_depth st) in
  (forall t, 0 <= t < top ->
     0 < nx (h t) /\ 0 < ny (h t) /\ 0 < nz (h t) /\
     nx (h (t + 1)) = 2 * nx (h t) /\ ny (h (t + 1)) = 2 * ny (h t) /\
     nz (h (t + 1)) = 2 * nz (h t)) ->
  (forall t, 0 <= t <= top -> pts (h t) = nx (h t) * ny (h t) * nz (h t)) ->
  holds c (h top) ->
  forall d, 0 <= d <= top ->
    pts (restrict_down st h d) = pts (h d) /\ holds c (restrict_down st h d).
Proof.
  intros top Hdims Hpts Hc d Hd. unfold restrict_down, fine_depths.
  rewrite fold_left_map.
  assert (T : max_depth st - min_depth st = top) by reflexivity.
  rewrite T.
  pose (Q := fun (t : Z) (h' : fas_heirarchy_t) =>
    (forall x, nx (h' x) = nx (h x) /\ ny (h' x) = ny (h x) /\
               nz (h' x) = nz (h x) /\ pts (h' x) = pts (h x)) /\
    forall x, top - t <= x <= top -> holds c (h' x)).
  assert (G : Q top
    (fold_left (fun a t => _restrictFine2coarse st a (max_depth st - t))
       (zrange top) h)).
  { apply (fold_zrange_ind _ Q); [lia| |].
    - unfold Q. split; [auto|]. intros x Hx.
      replace x with top by lia. exact Hc.
    - intros t h' Ht (D & C). unfold Q.
      assert (I : _dIdx st (max_depth st - t) = top - t)
        by (unfold top, _dIdx; lia).
      split.
      + intros x.
        destruct (restrict_keeps_dims st h' (max_depth st - t) x)
          as (A1 & A2 & A3 & A4).
        destruct (D x) as (B1 & B2 & B3 & B4).
        rewrite A1, A2, A3, A4. auto.
      + intros x Hx. destruct (Z.eq_dec x (top - t - 1)) as [->|Hne].
        * replace (top - t - 1) with (_dIdx st (max_depth st - t) - 1) by lia.
          destruct (Hdims (top - t - 1) ltac:(lia))
            as (P1 & P2 & P3 & E1 & E2 & E3).
          replace (top - t - 1 + 1) with (top - t) in E1, E2, E3 by lia.
          destruct (D (top - t)) as (F1 & F2 & F3 & F4).
          destruct (D (top - t - 1)) as (C1 & C2 & C3 & C4).
          apply restrict_fills; rewrite ?I; try lia.
          -- rewrite F4, F1, F2, F3. apply Hpts. lia.
          -- rewrite C4, C1, C2, C3. apply Hpts. lia.
          -- apply C. lia.
        * unfold _restrictFine2coarse. rewrite store_other by lia.
          apply C. lia. }
  destruct G as (D & C). split; [apply D|]. apply C. lia.
Qed.

(** X26. In exact arithmetic, a source that is constant on the finest grid
    is constant on every depth after [initializeRhoHeirarchy], the
    dimensions of its hierarchy doubling from each depth to the next finer
    one: every point of every grid of the hierarchy holds the constant
    (each restriction rounds its weighted sum in the source). *)
Theorem constant_source_on_every_depth (st : FASMultigrid)
    (eqn_id mol_id : Z) (c : R) (d idx : Z) :
  let h := rho_h st eqn_id mol_id in
  let top := _dIdx st (max_depth st) in
  0 <= eqn_id < u_n st -> 0 <= mol_id < molecule_n st eqn_id ->
  (forall t, 0 <= t < top ->
     0 < nx (h t) /\ 0 < ny (h t) /\ 0 < nz (h t) /\
     nx (h (t + 1)) = 2 * nx (h t) /\ ny (h (t + 1)) = 2 * ny (h t) /\
     nz (h (t + 1)) = 2 * nz (h t)) ->
  (forall t, 0 <= t <= top -> pts (h t) = nx (h t) * ny (h t) * nz (h t)) ->
  (forall i, 0 <= i < pts (h top) -> _array (h top) i = c) ->
  0 <= d <= top -> 0 <= idx < pts (h d) ->
  _array (rho_h (initializeRhoHeirarchy st) eqn_id mol_id d) idx = c.
Proof.
  intros h top He Hm Hdims Hpts Hc Hd Hidx.
  rewrite initialize_spec by assumption.
  replace ((0 <=? mol_id) && (mol_id <? molecule_n st eqn_id)) with true
    by (symmetry; apply andb_true_iff; split;
        [apply Z.leb_le|apply Z.ltb_lt]; lia).
  destruct (restrict_down_constant st h c Hdims Hpts Hc d Hd) as [Ep Hh].
  apply Hh. now rewrite Ep.
Qed.

Lemma constant_source_on_every_depth_witness :
  _array (rho_h (initializeRhoHeirarchy (two_level_source 5)) 0 0 0) 0 = 5%R.
Proof.
  apply (constant_source_on_every_depth (two_level_source 5) 0 0 5 0 0).
  - cbn. lia.
  - cbn. lia.
  - intros t Ht. change (0 <= t < 1) in Ht. replace t with 0 by lia. cbn. lia.
  - intros t Ht. change (0 <= t <= 1) in Ht.
    assert (t = 0 \/ t = 1) as [-> | ->] by lia; reflexivity.
  - intros i _. reflexivity.
  - change (0 <= 0 <= 1). lia.
  - change (0 <= 0 < 1). lia.
Defined.

(** ** The allocation of the sources by [build_rho] *)

(** The loop over the depths of [build_rho]: every turn writes the grid
    of the finest depth. *)
Lemma build_one (base : FASMultigrid) (e i : Z) (l : list Z) :
  let D := _dIdx base (max_depth base) in
  let g := sized (_array (arr_init (nx_h base D) (ny_h base D) (nz_h base D)))
             base D in
  forall s, sources_changed base s ->
    let s' :=
      fold_left (fun (st : FASMultigrid) (depth : Z) =>
        let depth_idx := _dIdx st (max_depth st) in
        set_rho_h st (store (rho_h st) e
          (store_grid (rho_h st e) i depth_idx
             (sized (_array (arr_init (nx_h st depth_idx) (ny_h st depth_idx)
                               (nz_h st depth_idx))) st depth_idx))))
        l s in
    sources_changed base s' /\
    (forall e' i', e' <> e \/ i' <> i -> rho_h s' e' i' = rho_h s e' i') /\
    rho_h s' e i
    = match l with
      | [] => rho_h s e i
      | _ :: _ => store (rho_h s e i) D g
      end.
Proof.
  intros D g. induction l as [|x l IH]; intros s Hs; cbn [fold_left].
  - cbv zeta. splits; auto.
  - cbv zeta.
    set (s1 := set_rho_h s _).
    assert (H1 : sources_changed base s1) by now apply sources_step.
    assert (V1 : rho_h s1 e i = store (rho_h s e i) D g).
    { unfold s1, store_grid. cbn [rho_h set_rho_h]. rewrite !store_same.
      unfold sources_changed in Hs. rewrite Hs. reflexivity. }
    assert (L1 : forall e' i', e' <> e \/ i' <> i ->
                 rho_h s1 e' i' = rho_h s e' i').
    { intros e' i' Hne. unfold s1, store_grid. cbn [rho_h set_rho_h].
      unfold store.
      destruct (Z.eqb_spec e' e) as [->|]; [|reflexivity].
      destruct (Z.eqb_spec i' i) as [->|]; [|reflexivity].
      destruct Hne; contradiction. }
    destruct (IH s1 H1) as (F & L & V). cbv zeta in F, L, V. splits.
    + exact F.
    + intros e' i' Hne. rewrite L by assumption. now apply L1.
    + rewrite V, V1. destruct l; [reflexivity|apply store_store].
Qed.

(** X27. [build_rho] sizes the finest depth only: of the source
    hierarchy of a molecule, the grid at the index of [max_depth] gets the
    dimensions of that depth, and the grid at every other depth is left as
    the allocation created it (the loop over the depths computes the index
    of [max_depth] at every turn). *)
Theorem build_rho_sizes_the_finest_depth_only (fresh : arr_t)
    (st : FASMultigrid) (eqn_id mol_id : Z) :
  let st' := build_rho fresh st in
  let D := _dIdx st (max_depth st) in
  0 <= eqn_id < u_n st -> 0 <= mol_id < molecule_n st eqn_id ->
  min_depth st <= max_depth st ->
  has_dims (nx_h st D) (ny_h st D) (nz_h st D) (rho_h st' eqn_id mol_id D) /\
  forall d, d <> D -> rho_h st' eqn_id mol_id d = fresh.
Proof.
  intros st' D He Hm Hd. unfold st', build_rho.
  set (st0 := set_rho_h st (fun _ _ _ => fresh)).
  set (g := sized (_array (arr_init (nx_h st0 D) (ny_h st0 D) (nz_h st0 D)))
              st0 D).
  pose proof (sources_loop st0
    (fun s e => set_rho_h s (store (rho_h s) e (fun _ _ => fresh)))
    (fun s e i =>
       let s1 := set_rho_h s
         (store (rho_h s) e (store (rho_h s e) i (fun _ => fresh))) in
       fold_left (fun (st : FASMultigrid) (depth : Z) =>
         let depth_idx := _dIdx st (max_depth st) in
         set_rho_h st (store (rho_h st) e
           (store_grid (rho_h st e) i depth_idx
              (sized (_array (arr_init (nx_h st depth_idx) (ny_h st depth_idx)
                                (nz_h st depth_idx))) st depth_idx))))
         (depths_down s1) s1)
    (fun _ _ _ => fun _ => fresh)
    (fun _ _ _ => store (fun _ => fresh) D g)) as G.
  cbv zeta in G.
  assert (N : exists x l, depths_down st0 = x :: l).
  { unfold depths_down.
    change (max_depth st0) with (max_depth st).
    change (min_depth st0) with (min_depth st).
    replace (max_depth st - min_depth st + 1)
      with (max_depth st - min_depth st + 1 - 1 + 1) by lia.
    rewrite zrange_succ by lia. rewrite map_app. cbn [map].
    destruct (map _ (zrange _)); cbn [app]; eauto. }
  destruct N as (x & l & N).
  destruct G as (_ & V).
  - intros s e Hs. splits.
    + now apply sources_step.
    + intros e' Hne. cbn [rho_h set_rho_h]. now apply store_other.
    + intros i. cbn [rho_h set_rho_h]. now rewrite store_same.
  - intros s e i Hs.
    set (s1 := set_rho_h s _).
    assert (H1 : sources_changed st0 s1) by now apply sources_step.
    replace (depths_down s1) with (x :: l)
      by (rewrite <- N; unfold depths_down;
          destruct (sources_fields st0 s1 H1) as (_ & _ & -> & -> & _);
          reflexivity).
    destruct (build_one st0 e i (x :: l) s1 H1) as (F & L & V).
    cbv zeta in F, L, V. splits.
    + exact F.
    + intros e' i' Hne. rewrite L by assumption.
      unfold s1. cbn [rho_h set_rho_h]. unfold store.
      destruct (Z.eqb_spec e' e) as [->|]; [|reflexivity].
      destruct (Z.eqb_spec i' i) as [->|]; [|reflexivity].
      destruct Hne; contradiction.
    + rewrite V. unfold s1. cbn [rho_h set_rho_h]. now rewrite !store_same.
  - specialize (V eqn_id mol_id He).
    change (molecule_n st0 eqn_id) with (molecule_n st eqn_id) in V.
    replace ((0 <=? mol_id) && (mol_id <? molecule_n st eqn_id)) with true in V
      by (symmetry; apply andb_true_iff; split;
          [apply Z.leb_le|apply Z.ltb_lt]; lia).
    change (u_n st0) with (u_n st).
    match goal with
    | |- has_dims _ _ _ (rho_h ?a _ _ _) /\ _ =>
        change (rho_h a eqn_id mol_id) with
          (rho_h (fold_left (fun s e =>
             fold_left (fun s i =>
               fold_left (fun (st : FASMultigrid) (depth : Z) =>
                 set_rho_h st (store (rho_h st) e
                   (store_grid (rho_h st e) i (_dIdx st (max_depth st))
                      (sized (_array (arr_init
                                (nx_h st (_dIdx st (max_depth st)))
                                (ny_h st (_dIdx st (max_depth st)))
                                (nz_h st (_dIdx st (max_depth st)))))
                         st (_dIdx st (max_depth st))))))
                 (depths_down (set_rho_h s
                    (store (rho_h s) e (store (rho_h s e) i (fun _ => fresh)))))
                 (set_rho_h s
                    (store (rho_h s) e (store (rho_h s e) i (fun _ => fresh)))))
               (zrange (molecule_n s e))
               (set_rho_h s (store (rho_h s) e (fun _ _ => fresh))))
             (zrange (u_n st0)) st0) eqn_id mol_id)
    end.
    rewrite V. split.
    + rewrite store_same. unfold g, has_dims, sized. cbn [nx ny nz pts]. auto.
    + intros d Hne. now apply store_other.
Qed.

Lemma build_rho_sizes_the_finest_depth_only_witness :
  rho_h (build_rho null_arr (coupled_pair 0 0)) 0 0 0 = null_arr.
Proof.
  apply (proj2 (build_rho_sizes_the_finest_depth_only null_arr
                  (coupled_pair 0 0) 0 0
                  ltac:(cbn; lia) ltac:(cbn; lia) ltac:(cbn; lia))).
  cbn. lia.
Defined.

(** ** The warning and the statistics of the summary *)

(** X28. When the singularity test finds a change of sign on a grid, the
    minimum of the grid is negative and its maximum is positive: the
    statistics [VCycles] prints after the warning show both signs. *)
Theorem warning_means_both_signs (st : FASMultigrid) (eqn_id depth : Z) :
  let depth_idx := _dIdx st depth in
  let u := u_h st eqn_id depth_idx in
  pts u = nx_h st depth_idx * ny_h st depth_idx * nz_h st depth_idx ->
  _singularityExists st eqn_id depth = true ->
  (_minGrid u < 0 < _maxGrid u)%R.
Proof.
  intros depth_idx u Hp H. apply singularityExists_iff in H.
  fold depth_idx in H. destruct H as (k & Hk & Hs). rewrite <- Hp in Hk.
  destruct (fold_max_spec (_array u) (zrange (pts u)) (- 1e100)%R)
    as (_ & Hub & _).
  destruct (fold_min_spec (_array u) (zrange (pts u)) 1e100%R)
    as (_ & Hlb & _).
  fold (_maxGrid u) in Hub. fold (_minGrid u) in Hlb.
  pose proof (Hub k (proj2 (In_zrange (pts u) k) ltac:(lia))) as Uk.
  pose proof (Hub 0 (proj2 (In_zrange (pts u) 0) ltac:(lia))) as U0.
  pose proof (Hlb k (proj2 (In_zrange (pts u) k) ltac:(lia))) as Lk.
  pose proof (Hlb 0 (proj2 (In_zrange (pts u) 0) ltac:(lia))) as L0.
  fold u in Hs.
  destruct (Rlt_dec (_array u 0) 0) as [N|N].
  - assert (0 < _array u k)%R by nra. lra.
  - assert (0 < _array u 0)%R by nra. assert (_array u k < 0)%R by nra. lra.
Qed.

Lemma warning_means_both_signs_witness :
  let u := mk_arr (fun i => if i =? 1 then (- 2)%R else 1%R) 3 1 1 3 in
  (_minGrid u < 0 < _maxGrid u)%R.
Proof.
  intros u.
  apply (warning_means_both_signs
           (set_u_h crossing_solver (fun _ _ => u)) 0 1).
  - reflexivity.
  - apply singularityExists_iff. exists 1. split.
    + cbn. lia.
    + cbn. lra.
Defined.

(** ** The right-hand side of the Jacobian system *)

Lemma fold_left_flat_map {A B C} (f : A -> C -> A) (g : B -> list C)
    (l : list B) :
  forall a,
    fold_left f (flat_map g l) a
    = fold_left (fun a x => fold_left f (g x) a) l a.
Proof.
  induction l as [|x l IH]; intros a; [reflexivity|].
  cbn [flat_map fold_left]. now rewrite fold_left_app, IH.
Qed.

(** A loop on a state each of whose iterations gives [c] to an
    observation of the state or leaves it, one of them giving [c]. *)
Lemma fold_observes_const {St T} (obs : St -> R) (Inv : St -> Prop)
    (f : St -> T -> St) (l : list T) (c : R) :
  (forall s t, In t l -> Inv s ->
     Inv (f s t) /\ (obs (f s t) = c \/ obs (f s t) = obs s)) ->
  (exists t, In t l /\ forall s, Inv s -> obs (f s t) = c) ->
  forall s, Inv s -> obs (fold_left f l s) = c.
Proof.
  intros Hstep Hw.
  assert (G : forall l' s, (forall t, In t l' -> In t l) -> Inv s ->
            obs s = c -> obs (fold_left f l' s) = c).
  { induction l' as [|t l' IH]; intros s Hin Hs Hc; [exact Hc|].
    cbn [fold_left].
    destruct (Hstep s t (Hin t (or_introl eq_refl)) Hs) as [Hi Ho].
    apply IH; [intros; apply Hin; now right|exact Hi|].
    destruct Ho; congruence. }
  destruct Hw as (t & Ht & Hwt).
  apply in_split in Ht. destruct Ht as (l1 & l2 & ->).
  intros s Hs. rewrite fold_left_app. cbn [fold_left].
  assert (I1 : Inv (fold_left f l1 s)).
  { apply fold_left_inv; [|exact Hs]. intros a x Hx Ha.
    apply Hstep; [|exact Ha]. apply in_or_app. now left. }
  apply G.
  - intros x Hx. apply in_or_app. right. now right.
  - apply Hstep; [|exact I1]. apply in_or_app. right. now left.
  - now apply Hwt.
Qed.

Section RightHandSide.

Context {host : Host}.

(** X29. Before the inner solve the smoother stores in [jac_rhs], at
    every site of the depth and for every equation, the residual
    [coarse_src - F] (minus [F - coarse_src]), and the norm it hands to the
    inner solve and to the line search is the squared norm of the
    residual. *)
Theorem right_hand_side_of_the_jacobian_system (st : FASMultigrid)
    (depth_idx eqn_id i j k : Z) :
  let n_x := nx_h st depth_idx in
  let n_y := ny_h st depth_idx in
  let n_z := nz_h st depth_idx in
  let idx := H_INDEX i j k n_x n_y n_z in
  let sb := snd (relax_norm_rhs st depth_idx) in
  0 <= eqn_id < u_n st -> 0 <= i < n_x -> 0 <= j < n_y -> 0 <= k < n_z ->
  fst (relax_norm_rhs st depth_idx) = residual_norm st depth_idx /\
  _array (jac_rhs_h sb eqn_id depth_idx) idx
  = (_array (coarse_src_h st eqn_id depth_idx) idx
     - _evaluateEllipticEquationPt st eqn_id depth_idx i j k)%R.
Proof.
  intros n_x n_y n_z idx sb He Hi Hj Hk.
  split; [apply relax_norm_rhs_spec|].
  unfold sb, relax_norm_rhs. fold n_x n_y n_z.
  set (step := fun (ns : R * FASMultigrid) (t : Z * (Z * Z * Z)) =>
    let '(e, (i, j, k)) := t in
    let '(norm, st) := ns in
    let jac_rhs := jac_rhs_h st e depth_idx in
    let coarse_src := coarse_src_h st e depth_idx in
    let idx := H_INDEX i j k n_x n_y n_z in
    let temp := (_evaluateEllipticEquationPt st e depth_idx i j k
                 - _array coarse_src idx)%R in
    ((norm + temp * temp)%R,
     set_jac_rhs_h st (store_grid (jac_rhs_h st) e depth_idx
       (with_array jac_rhs (store (_array jac_rhs) idx (- temp)%R))))).
  rewrite (fold_left_ext _
    (fun ns e => fold_left step
                   (map (pair e) (FAS_LOOP3_N n_x n_y n_z)) ns)).
  2: { intros ns e. rewrite fold_left_map. apply fold_left_ext.
       intros [n s] [[i' j'] k']. reflexivity. }
  rewrite <- (fold_left_flat_map step
                (fun e => map (pair e) (FAS_LOOP3_N n_x n_y n_z))).
  apply (fold_observes_const
    (fun ns : R * FASMultigrid =>
       _array (jac_rhs_h (snd ns) eqn_id depth_idx) idx)
    (fun ns : R * FASMultigrid =>
       snd ns = set_jac_rhs_h st (jac_rhs_h (snd ns)))).
  - intros [n s] [e [[i' j'] k']] Hin Hs. cbn [snd] in Hs.
    apply in_flat_map in Hin. destruct Hin as (e' & _ & Hin).
    apply in_map_iff in Hin. destruct Hin as (t & Et & Hin).
    inversion Et; subst e' t. apply In_FAS_LOOP3_N in Hin.
    unfold step. cbn [snd]. split.
    + rewrite Hs at 1. reflexivity.
    + cbn [jac_rhs_h set_jac_rhs_h]. unfold store_grid, store.
      destruct (Z.eqb_spec eqn_id e) as [->|]; [|now right].
      rewrite Z.eqb_refl. cbn [_array with_array].
      destruct (Z.eqb_spec idx (H_INDEX i' j' k' n_x n_y n_z)) as [E|E];
        [|now right].
      left. symmetry in E.
      destruct (H_INDEX_inj n_x n_y n_z i j k i' j' k') as (-> & -> & ->);
        [lia|lia|lia|lia|lia|lia|exact E|].
      rewrite Hs. cbn [coarse_src_h set_jac_rhs_h]. fold idx.
      change (_evaluateEllipticEquationPt
                (set_jac_rhs_h st (jac_rhs_h s)) e depth_idx i j k)
        with (_evaluateEllipticEquationPt st e depth_idx i j k).
      lra.
  - exists (eqn_id, (i, j, k)). split.
    + apply in_flat_map. exists eqn_id. split; [now apply In_zrange|].
      apply in_map. now apply In_FAS_LOOP3_N.
    + intros [n s] Hs. cbn [snd] in Hs. unfold step. cbn [snd].
      cbn [jac_rhs_h set_jac_rhs_h]. unfold store_grid.
      rewrite !store_same. cbn [_array with_array]. fold idx.
      rewrite store_same. rewrite Hs. cbn [coarse_src_h set_jac_rhs_h].
      change (_evaluateEllipticEquationPt
                (set_jac_rhs_h st (jac_rhs_h s)) eqn_id depth_idx i j k)
        with (_evaluateEllipticEquationPt st eqn_id depth_idx i j k).
      lra.
  - cbn [snd]. symmetry. apply set_jac_rhs_h_id.
Qed.

End RightHandSide.

Lemma right_hand_side_of_the_jacobian_system_witness :
  let st := quadratic_site 0 0 3 0 0 in
  let sb := snd (relax_norm_rhs (host := host_of 1 1 1) st 0) in
  let F := _evaluateEllipticEquationPt (host := host_of 1 1 1) st 0 0 0 0 0 in
  let src := _array (coarse_src_h st 0 0) (H_INDEX 0 0 0 1 1 1) in
  _array (jac_rhs_h sb 0 0) (H_INDEX 0 0 0 1 1 1) = (src - F)%R.
Proof.
  intros st sb F src.
  apply (proj2 (right_hand_side_of_the_jacobian_system (host := host_of 1 1 1)
                  st 0 0 0 0 0
                  ltac:(cbn; lia) ltac:(cbn; lia) ltac:(cbn; lia)
                  ltac:(cbn; lia))).
Defined.

(** ** A cycle on an exact solution *)

Section ExactSolution.

Context {host : Host}.

Lemma same_setting_refl (st : FASMultigrid) : same_setting st st.
Proof. unfold same_setting. repeat split. Qed.

Lemma same_setting_trans (a b c : FASMultigrid) :
  same_setting a b -> same_setting b c -> same_setting a c.
Proof.
  unfold same_setting.
  intros (A1 & A2 & A3 & A4 & A5 & A6 & A7 & A8 & A9 & A10 & A11 & A12)
         (B1 & B2 & B3 & B4 & B5 & B6 & B7 & B8 & B9 & B10 & B11 & B12).
  repeat split; congruence.
Qed.

Lemma same_setting_sym (a b : FASMultigrid) :
  same_setting a b -> same_setting b a.
Proof.
  unfold same_setting.
  intros (A1 & A2 & A3 & A4 & A5 & A6 & A7 & A8 & A9 & A10 & A11 & A12).
  repeat split; congruence.
Qed.

(** The operator reads the settings and, of the grids, those of the
    unknowns at its depth. *)
Lemma eval_ext (s s' : FASMultigrid) (e t i j k : Z) :
  same_setting s s' -> (forall e', u_h s' e' t = u_h s e' t) ->
  _evaluateEllipticEquationPt s' e t i j k
  = _evaluateEllipticEquationPt s e t i j k.
Proof.
  intros (Hr & _ & Hm & Hx & Hy & Hz & _ & _ & _ & _ & Hd & He) Hu.
  unfold _evaluateEllipticEquationPt.
  rewrite Hm, He, Hr, Hx, Hy, Hz, Hd.
  apply fold_left_ext. intros res mol_id. f_equal.
  apply fold_left_ext. intros val atom_id.
  now rewrite !Hu.
Qed.

Lemma solved_ext (s s' : FASMultigrid) (e t : Z) :
  same_setting s s' -> (forall e', u_h s' e' t = u_h s e' t) ->
  coarse_src_h s' e t = coarse_src_h s e t ->
  solved s e t -> solved s' e t.
Proof.
  intros S U C H i j k Hi Hj Hk.
  rewrite (eval_ext s s') by assumption. rewrite C.
  destruct S as (_ & _ & _ & Hx & Hy & Hz & _).
  rewrite Hx, Hy, Hz in *. now apply H.
Qed.

(** Every index below the number of sites is the index of a site. *)
Lemma index_is_site (n_x n_y n_z idx : Z) :
  0 < n_y -> 0 < n_z -> 0 <= idx < n_x * n_y * n_z ->
  exists i j k,
    0 <= i < n_x /\ 0 <= j < n_y /\ 0 <= k < n_z /\
    idx = H_INDEX i j k n_x n_y n_z.
Proof.
  intros Hy Hz Hidx.
  pose proof (linear_index_split idx n_y n_z Hy Hz) as E.
  set (X := idx / (n_y * n_z)) in *.
  set (Y := (idx / n_z) mod n_y) in *.
  set (Z' := idx mod n_z) in *.
  assert (HY : 0 <= Y < n_y) by (apply Z.mod_pos_bound; lia).
  assert (HZ : 0 <= Z' < n_z) by (apply Z.mod_pos_bound; lia).
  assert (HX : 0 <= X < n_x).
  { unfold X. split.
    - apply Z.div_pos; nia.
    - apply Z.div_lt_upper_bound; nia. }
  exists X, Y, Z'. repeat split; try lia.
  rewrite (H_INDEX_in_range X Y Z' n_x n_y n_z) by assumption. exact E.
Qed.

(** An index is the index of one site, or of none when it is not below
    the number of sites. *)
Lemma hits_cases (n_x n_y n_z idx : Z) :
  0 < n_x -> 0 < n_y -> 0 < n_z ->
  (hits n_x n_y n_z idx = 1%nat /\ 0 <= idx < n_x * n_y * n_z) \/
  hits n_x n_y n_z idx = 0%nat.
Proof.
  intros Hx Hy Hz.
  destruct (Z_lt_dec idx 0) as [L|L]; [right|];
    [|destruct (Z_lt_dec idx (n_x * n_y * n_z)) as [U|U]; [left|right]].
  2:{ destruct (index_is_site n_x n_y n_z idx Hy Hz) as (i & j & k & Hi & Hj & Hk & E);
        [lia|].
      split; [|lia]. rewrite E. now apply hits_one. }
  all: unfold hits;
    replace (filter (fun site => site_index n_x n_y n_z site =? idx)
               (FAS_LOOP3_N n_x n_y n_z)) with (@nil (Z * Z * Z)); [reflexivity|];
    symmetry;
    induction (FAS_LOOP3_N n_x n_y n_z) as [|[[i j] k] l IH]; [reflexivity|];
    cbn [filter];
    unfold site_index at 1;
    pose proof (H_INDEX_range i j k n_x n_y n_z Hx Hy Hz) as R;
    destruct (Z.eqb_spec (H_INDEX i j k n_x n_y n_z) idx); [lia|exact IH].
Qed.

(** The smoother leaves a solver whose equation is solved exactly. *)
Lemma solved_smoother (fuel : nat) (s : FASMultigrid) (depth m : Z) :
  u_n s = 1 -> (0 < relaxation_tolerance s)%R ->
  solved s 0 (_dIdx s depth) ->
  _relaxSolution_GaussSeidel fuel s depth m = Returned tt s.
Proof.
  intros Hn Ht H.
  apply smoother_converged. apply max_residual_lt_iff.
  split; [assumption|].
  intros e i j k He Hi Hj Hk. replace e with 0 by lia.
  rewrite (H i j k) by assumption.
  unfold Rminus. rewrite Rplus_opp_r, Rabs_R0. exact Ht.
Qed.


Lemma residual_keeps_dims (st : FASMultigrid) (h : fas_heirarchy_t)
    (eqn_id depth t : Z) :
  let g := _computeResidual st h eqn_id depth t in
  nx g = nx (h t) /\ ny g = ny (h t) /\ nz g = nz (h t) /\ pts g = pts (h t).
Proof.
  cbv zeta. unfold _computeResidual, _evaluateEllipticEquation, store.
  destruct (t =? _dIdx st depth) eqn:E; [|auto].
  apply Z.eqb_eq in E. subst t. rewrite Z.eqb_refl. auto.
Qed.

(** What [_computeCoarseRestrictions] leaves in the intermediate grids. *)
Lemma restrictions_tmp (s : FASMultigrid) (e depth : Z) :
  tmp_h (_computeCoarseRestrictions s e depth) e
  = _restrictFine2coarse s
      (_computeResidual
         (set_u_h s (store (u_h s) e (_restrictFine2coarse s (u_h s e) depth)))
         (tmp_h s e) e depth) depth.
Proof.
  unfold _computeCoarseRestrictions.
  cbn [tmp_h set_u_h set_tmp_h set_coarse_src_h].
  now rewrite !store_same.
Qed.

(** [_computeCoarseRestrictions] on a depth where the equation is solved:
    the equation is solved at the next coarser depth, and the finer depths
    are left. *)
Lemma restrictions_keep_solved (s : FASMultigrid) (depth : Z) :
  let f := _dIdx s depth in
  let s' := _computeCoarseRestrictions s 0 depth in
  0 < nx_h s (f - 1) -> 0 < ny_h s (f - 1) -> 0 < nz_h s (f - 1) ->
  nx_h s f = 2 * nx_h s (f - 1) -> ny_h s f = 2 * ny_h s (f - 1) ->
  nz_h s f = 2 * nz_h s (f - 1) ->
  has_dims (nx_h s f) (ny_h s f) (nz_h s f) (tmp_h s 0 f) ->
  has_dims (nx_h s (f - 1)) (ny_h s (f - 1)) (nz_h s (f - 1))
    (tmp_h s 0 (f - 1)) ->
  solved s 0 f ->
  same_setting s s' /\
  (forall e t, t <> f - 1 -> u_h s' e t = u_h s e t) /\
  (forall e t, t <> f - 1 -> coarse_src_h s' e t = coarse_src_h s e t) /\
  (forall t, nx (tmp_h s' 0 t) = nx (tmp_h s 0 t) /\
             ny (tmp_h s' 0 t) = ny (tmp_h s 0 t) /\
             nz (tmp_h s' 0 t) = nz (tmp_h s 0 t) /\
             pts (tmp_h s' 0 t) = pts (tmp_h s 0 t)) /\
  solved s' 0 (f - 1).
Proof.
  intros f s' Hx Hy Hz Ex Ey Ez (Fx & Fy & Fz & Fp) (Cx & Cy & Cz & Cp) Hs.
  assert (I : _dIdx s (depth - 1) = f - 1) by (unfold f, _dIdx; lia).
  assert (SS : same_setting s s') by (unfold same_setting; repeat split).
  assert (U : forall e t, t <> f - 1 -> u_h s' e t = u_h s e t).
  { intros e t Ht. unfold s', _computeCoarseRestrictions.
    cbn [u_h set_u_h set_tmp_h set_coarse_src_h].
    unfold store at 1. destruct (Z.eqb_spec e 0) as [->|]; [|reflexivity].
    unfold _restrictFine2coarse. fold f. now rewrite store_other. }
  assert (C : forall e t, t <> f - 1 -> coarse_src_h s' e t = coarse_src_h s e t).
  { intros e t Ht. unfold s', _computeCoarseRestrictions.
    cbn [coarse_src_h set_u_h set_tmp_h set_coarse_src_h nx_h ny_h nz_h min_depth _dIdx].
    unfold store_grid. unfold store at 1.
    destruct (Z.eqb_spec e 0) as [->|].
    - unfold _dIdx. cbn [min_depth set_u_h set_tmp_h set_coarse_src_h].
      rewrite store_other by (unfold f, _dIdx in Ht; lia).
      rewrite store_same. unfold _evaluateEllipticEquation.
      cbn [min_depth set_u_h set_tmp_h set_coarse_src_h _dIdx].
      unfold _dIdx. cbn [min_depth set_u_h set_tmp_h set_coarse_src_h].
      rewrite store_other by (unfold f, _dIdx in Ht; lia).
      reflexivity.
    - unfold store at 1. destruct (Z.eqb_spec e 0); [contradiction|reflexivity]. }
  splits; try assumption.
  - intros t. unfold s'. rewrite restrictions_tmp.
    destruct (restrict_keeps_dims s
      (_computeResidual
         (set_u_h s (store (u_h s) 0 (_restrictFine2coarse s (u_h s 0) depth)))
         (tmp_h s 0) 0 depth) depth t) as (A1 & A2 & A3 & A4).
    destruct (residual_keeps_dims
      (set_u_h s (store (u_h s) 0 (_restrictFine2coarse s (u_h s 0) depth)))
      (tmp_h s 0) 0 depth t) as (B1 & B2 & B3 & B4).
    cbv zeta in *. repeat split; congruence.
  - set (s1 := set_u_h s (store (u_h s) 0 (_restrictFine2coarse s (u_h s 0) depth))).
    assert (S1 : solved s1 0 f).
    { apply (solved_ext s); [unfold same_setting; repeat split| |reflexivity|exact Hs].
      intros e'. unfold s1. cbn [u_h set_u_h]. unfold store at 1.
      destruct (Z.eqb_spec e' 0) as [->|]; [|reflexivity].
      unfold _restrictFine2coarse. fold f. rewrite store_other by lia. reflexivity. }
    set (r := _computeResidual s1 (tmp_h s 0) 0 depth).
    assert (Z0 : holds 0%R (_restrictFine2coarse s r depth (f - 1))).
    { destruct (residual_keeps_dims s1 (tmp_h s 0) 0 depth f) as (B1 & B2 & B3 & B4).
      destruct (residual_keeps_dims s1 (tmp_h s 0) 0 depth (f - 1))
        as (D1 & D2 & D3 & D4).
      cbv zeta in *. fold r in B1, B2, B3, B4, D1, D2, D3, D4.
      apply (restrict_fills s r depth 0%R); fold f; try lia.
      intros idx Hidx.
      destruct (index_is_site (nx_h s f) (ny_h s f) (nz_h s f) idx)
        as (i & j & k & Hi & Hj & Hk & E); [lia|lia|lia|].
      rewrite E.
      pose proof (residual_entry s1 (tmp_h s 0) 0 depth i j k) as G.
      cbv zeta in G. change (_dIdx s1 depth) with f in G.
      change (nx_h s1) with (nx_h s) in G. change (ny_h s1) with (ny_h s) in G.
      change (nz_h s1) with (nz_h s) in G.
      unfold r. rewrite G by assumption.
      rewrite (S1 i j k) by assumption.
      change (nx_h s1) with (nx_h s). change (ny_h s1) with (ny_h s).
      change (nz_h s1) with (nz_h s). lra. }
    intros i j k Hi Hj Hk.
    change (nx_h s') with (nx_h s) in *. change (ny_h s') with (ny_h s) in *.
    change (nz_h s') with (nz_h s) in *.
    destruct (coarse_source_entry s 0 depth i j k) as (s3 & E1 & E2 & E3);
      try (rewrite I; assumption).
    rewrite I in E1, E3. fold s' in E1, E2, E3.
    rewrite E3, <- E1, <- E2. unfold s'. rewrite restrictions_tmp.
    fold s1. fold r. rewrite Z0; [lra|].
    destruct (restrict_keeps_dims s r depth (f - 1)) as (_ & _ & _ & A4).
    destruct (residual_keeps_dims s1 (tmp_h s 0) 0 depth (f - 1))
      as (_ & _ & _ & D4).
    cbv zeta in *. fold r in D4. rewrite A4, D4, Cp, Cx, Cy, Cz.
    apply H_INDEX_range; assumption.
Qed.


(** The restrictions of the downward pass of a cycle, from a finest depth
    where the equation is solved: it is solved at every depth afterwards,
    and the unknown of the finest depth is left. *)
Lemma downward_pass (st : FASMultigrid) :
  let top := _dIdx st (max_depth st) in
  let s := fold_left (fun st depth => _computeCoarseRestrictions st 0 depth)
             (fine_depths st) st in
  0 <= top ->
  (forall t, 0 <= t < top ->
     0 < nx_h st t /\ 0 < ny_h st t /\ 0 < nz_h st t /\
     nx_h st (t + 1) = 2 * nx_h st t /\ ny_h st (t + 1) = 2 * ny_h st t /\
     nz_h st (t + 1) = 2 * nz_h st t) ->
  (forall t, 0 <= t <= top ->
     has_dims (nx_h st t) (ny_h st t) (nz_h st t) (tmp_h st 0 t)) ->
  solved st 0 top ->
  same_setting st s /\
  (forall e, u_h s e top = u_h st e top) /\
  (forall t, 0 <= t <= top ->
     has_dims (nx_h st t) (ny_h st t) (nz_h st t) (tmp_h s 0 t)) /\
  (forall t, 0 <= t <= top -> solved s 0 t).
Proof.
  intros top s Htop Hdims Htmp Hs. unfold s, fine_depths.
  rewrite fold_left_map.
  assert (T : max_depth st - min_depth st = top) by reflexivity.
  rewrite T.
  pose (Q := fun (n : Z) (s : FASMultigrid) =>
    same_setting st s /\
    (forall e, u_h s e top = u_h st e top) /\
    (forall t, 0 <= t <= top ->
       has_dims (nx_h st t) (ny_h st t) (nz_h st t) (tmp_h s 0 t)) /\
    (forall t, top - n <= t <= top -> solved s 0 t)).
  assert (G : Q top
    (fold_left (fun a t => _computeCoarseRestrictions a 0 (max_depth st - t))
       (zrange top) st)).
  { apply (fold_zrange_ind _ Q); [lia| |].
    - unfold Q. splits; auto using same_setting_refl.
      intros t Ht. replace t with top by lia. exact Hs.
    - intros n a Hn (S & U & D & V). unfold Q.
      pose proof S as (_ & _ & _ & Ex & Ey & Ez & _ & _ & Em & _).
      assert (I : _dIdx a (max_depth st - n) = top - n)
        by (unfold top, _dIdx; rewrite Em; lia).
      pose proof (restrictions_keep_solved a (max_depth st - n)) as G.
      cbv zeta in G. rewrite I, Ex, Ey, Ez in G.
      destruct (Hdims (top - n - 1)) as (P1 & P2 & P3 & P4 & P5 & P6); [lia|].
      replace (top - n - 1 + 1) with (top - n) in P4, P5, P6 by lia.
      destruct G as (S' & U' & C' & D' & V'); auto.
      + apply D; lia.
      + apply D; lia.
      + apply V; lia.
      + splits.
        * eapply same_setting_trans; eassumption.
        * intros e. rewrite U' by lia. apply U.
        * intros t Ht. destruct (D' t) as (D1 & D2 & D3 & D4).
          destruct (D t Ht) as (F1 & F2 & F3 & F4).
          unfold has_dims. rewrite D1, D2, D3, D4. auto.
        * intros t Ht. destruct (Z.eq_dec t (top - n - 1)) as [->|Hne].
          -- replace (top - (n + 1)) with (top - n - 1) in * by lia. exact V'.
          -- apply (solved_ext a); auto. apply V. lia. }
  destruct G as (S & U & D & V). splits; auto.
  intros t Ht. apply V. lia.
Qed.

(** What [_changeApproximateSolutionToError] stores at a site. *)
Lemma error_entry (st : FASMultigrid)
    (appx_to_err_h exact_soln_h : fas_heirarchy_t) (depth i j k : Z) :
  let d := _dIdx st depth in
  let idx := H_INDEX i j k (nx_h st d) (ny_h st d) (nz_h st d) in
  0 <= i < nx_h st d -> 0 <= j < ny_h st d -> 0 <= k < nz_h st d ->
  _array (_changeApproximateSolutionToError st appx_to_err_h exact_soln_h depth d)
    idx
  = (_array (exact_soln_h d) idx - _array (appx_to_err_h d) idx)%R.
Proof.
  intros d idx Hi Hj Hk. unfold _changeApproximateSolutionToError.
  fold d. rewrite store_same. cbn [_array with_array].
  set (n_x := nx_h st d) in *. set (n_y := ny_h st d) in *.
  set (n_z := nz_h st d) in *.
  rewrite (fold_left_ext _
    (fun a t => store a (site_index n_x n_y n_z t)
       (_array (exact_soln_h d) (site_index n_x n_y n_z t)
        - a (site_index n_x n_y n_z t))%R))
    by (intros a [[i' j'] k']; reflexivity).
  rewrite fold_flip. fold (hits n_x n_y n_z idx).
  unfold idx. rewrite hits_one by assumption. reflexivity.
Qed.

Lemma interpolate_keeps_dims (st : FASMultigrid) (h : fas_heirarchy_t)
    (coarse_depth t : Z) :
  let g := _interpolateCoarse2fine st h coarse_depth t in
  nx g = nx (h t) /\ ny g = ny (h t) /\ nz g = nz (h t) /\ pts g = pts (h t).
Proof.
  cbv zeta. unfold _interpolateCoarse2fine, store.
  destruct (t =? _dIdx st (coarse_depth + 1)) eqn:E; [|auto].
  apply Z.eqb_eq in E. subst t. auto.
Qed.

(** The correction by an error that is zero on the coarse grid leaves the
    solution; the grid that held the error receives the solution. *)
Lemma correction_of_zero_error (st : FASMultigrid)
    (err_h soln_h : fas_heirarchy_t) (fine_depth : Z) :
  let c := _dIdx st (fine_depth - 1) in
  let f := _dIdx st fine_depth in
  let r := _correctFineFromCoarseErr_Err2Appx st err_h soln_h fine_depth in
  0 < nx_h st c -> 0 < ny_h st c -> 0 < nz_h st c ->
  nx_h st f = 2 * nx_h st c -> ny_h st f = 2 * ny_h st c ->
  nz_h st f = 2 * nz_h st c ->
  pts (err_h f) = nx_h st f * ny_h st f * nz_h st f ->
  (forall i, 0 <= i < nx_h st c * ny_h st c * nz_h st c ->
     _array (err_h c) i = 0%R) ->
  snd r = soln_h /\
  (forall x, nx (fst r x) = nx (err_h x) /\ ny (fst r x) = ny (err_h x) /\
             nz (fst r x) = nz (err_h x) /\ pts (fst r x) = pts (err_h x)) /\
  (forall i j k,
     0 <= i < nx_h st f -> 0 <= j < ny_h st f -> 0 <= k < nz_h st f ->
     _array (fst r f) (H_INDEX i j k (nx_h st f) (ny_h st f) (nz_h st f))
     = _array (soln_h f) (H_INDEX i j k (nx_h st f) (ny_h st f) (nz_h st f))).
Proof.
  intros c f r Hx Hy Hz Ex Ey Ez Hp H0.
  unfold r, _correctFineFromCoarseErr_Err2Appx. fold f.
  set (n_x := nx_h st f) in *. set (n_y := ny_h st f) in *.
  set (n_z := nz_h st f) in *.
  set (e0 := _interpolateCoarse2fine st err_h (fine_depth - 1)).
  assert (Z0 : forall idx, 0 <= idx < n_x * n_y * n_z ->
                 _array (e0 f) idx = 0%R).
  { intros idx Hidx.
    pose proof (interpolate_constant st err_h (fine_depth - 1) 0%R idx) as G.
    cbv zeta in G. fold c in G.
    replace (fine_depth - 1 + 1) with fine_depth in G by lia. fold f in G.
    apply G; try assumption; rewrite Hp; nia. }
  assert (D0 : forall x, nx (e0 x) = nx (err_h x) /\ ny (e0 x) = ny (err_h x) /\
                         nz (e0 x) = nz (err_h x) /\ pts (e0 x) = pts (err_h x))
    by (intros x; apply interpolate_keeps_dims).
  rewrite (fold_left_ext _
    (fun (es : (Z -> R) * (Z -> R)) t =>
       (store (fst es) (site_index n_x n_y n_z t) (snd es (site_index n_x n_y n_z t)),
        store (snd es) (site_index n_x n_y n_z t)
          (snd es (site_index n_x n_y n_z t)
           + fst es (site_index n_x n_y n_z t))%R)))
    by (intros a [[i' j'] k']; reflexivity).
  set (F := fold_left _ _ _).
  assert (A : forall idx, snd F idx = _array (soln_h f) idx).
  { intros idx.
    destruct (hits_cases n_x n_y n_z idx) as [[H1 Hr]|H1]; try lia.
    - destruct (fold_correct_once (site_index n_x n_y n_z)
                  (FAS_LOOP3_N n_x n_y n_z) idx H1
                  (_array (e0 f), _array (soln_h f))) as [_ G].
      fold F in G. rewrite G. cbn [fst snd]. rewrite Z0 by assumption. lra.
    - destruct (fold_correct_absent (site_index n_x n_y n_z)
                  (FAS_LOOP3_N n_x n_y n_z) idx H1
                  (_array (e0 f), _array (soln_h f))) as [_ G].
      exact G. }
  assert (B : forall i j k, 0 <= i < n_x -> 0 <= j < n_y -> 0 <= k < n_z ->
            fst F (H_INDEX i j k n_x n_y n_z)
            = _array (soln_h f) (H_INDEX i j k n_x n_y n_z)).
  { intros i j k Hi Hj Hk.
    destruct (fold_correct_once (site_index n_x n_y n_z)
                (FAS_LOOP3_N n_x n_y n_z) (H_INDEX i j k n_x n_y n_z)
                (hits_one n_x n_y n_z i j k Hi Hj Hk)
                (_array (e0 f), _array (soln_h f))) as [G _].
    exact G. }
  destruct F as [e s]. cbn [fst snd] in *. splits.
  - transitivity (store soln_h f (soln_h f)); [|apply store_id].
    f_equal. transitivity (with_array (soln_h f) (_array (soln_h f)));
      [|apply with_array_id].
    f_equal. extensionality idx. apply A.
  - intros x. unfold store. destruct (x =? f) eqn:E; [|apply D0].
    apply Z.eqb_eq in E. subst x. cbn [nx ny nz pts with_array]. apply D0.
  - intros i j k Hi Hj Hk. rewrite store_same. cbn [_array with_array].
    now apply B.
Qed.

Lemma for_each_app {T} (l1 l2 : list T)
    (body : T -> FASMultigrid -> outcome unit) :
  forall st,
    for_each (l1 ++ l2) body st
    = (do st' <- for_each l1 body st; for_each l2 body st').
Proof.
  induction l1 as [|x l1 IH]; intros st; cbn [app for_each bind]; [reflexivity|].
  destruct (body x st); cbn [bind]; auto.
Qed.

(** Induction over a counting loop whose body may throw. *)
Lemma for_each_zrange_ind (body : Z -> FASMultigrid -> outcome unit)
    (g : Z -> Z) (Q : Z -> FASMultigrid -> Prop) (n : Z) (s0 : FASMultigrid) :
  0 <= n -> Q 0 s0 ->
  (forall t s, 0 <= t < n -> Q t s ->
     exists s', body (g t) s = Returned tt s' /\ Q (t + 1) s') ->
  exists s', for_each (map g (zrange n)) body s0 = Returned tt s' /\ Q n s'.
Proof.
  intros Hn H0 Hstep.
  assert (G : forall m : nat, (Z.of_nat m <= n) ->
            exists s', for_each (map g (zrange (Z.of_nat m))) body s0
                       = Returned tt s' /\ Q (Z.of_nat m) s').
  { induction m as [|m IH]; intros Hm.
    - exists s0. split; [reflexivity|exact H0].
    - replace (Z.of_nat (S m)) with (Z.of_nat m + 1) by lia.
      rewrite zrange_succ by lia. rewrite map_app, for_each_app.
      destruct IH as (s1 & E1 & Q1); [lia|]. rewrite E1. cbn [bind map for_each].
      destruct (Hstep (Z.of_nat m) s1) as (s2 & E2 & Q2); [lia|exact Q1|].
      rewrite E2. cbn [bind]. exists s2. auto. }
  specialize (G (Z.to_nat n)). rewrite Z2Nat.id in G by assumption.
  apply G. lia.
Qed.


Lemma error_keeps_dims (st : FASMultigrid)
    (appx_to_err_h exact_soln_h : fas_heirarchy_t) (depth t : Z) :
  let g := _changeApproximateSolutionToError st appx_to_err_h exact_soln_h depth t in
  nx g = nx (appx_to_err_h t) /\ ny g = ny (appx_to_err_h t) /\
  nz g = nz (appx_to_err_h t) /\ pts g = pts (appx_to_err_h t).
Proof.
  cbv zeta. unfold _changeApproximateSolutionToError, store.
  destruct (t =? _dIdx st depth) eqn:E; [|auto].
  apply Z.eqb_eq in E. subst t. auto.
Qed.

(** One depth of the upward pass of a cycle, where the equation is solved
    and the intermediate grid holds the unknown: the unknowns are left, and
    the intermediate grid of the next finer depth holds the unknown. *)
Lemma upward_step (fuel : nat) (s : FASMultigrid) (coarse_depth : Z) :
  let t := _dIdx s coarse_depth in
  u_n s = 1 -> (0 < relaxation_tolerance s)%R ->
  0 < nx_h s t -> 0 < ny_h s t -> 0 < nz_h s t ->
  nx_h s (t + 1) = 2 * nx_h s t -> ny_h s (t + 1) = 2 * ny_h s t ->
  nz_h s (t + 1) = 2 * nz_h s t ->
  pts (tmp_h s 0 (t + 1))
  = nx_h s (t + 1) * ny_h s (t + 1) * nz_h s (t + 1) ->
  solved s 0 t ->
  (forall i j k, 0 <= i < nx_h s t -> 0 <= j < ny_h s t -> 0 <= k < nz_h s t ->
     _array (tmp_h s 0 t) (H_INDEX i j k (nx_h s t) (ny_h s t) (nz_h s t))
     = _array (u_h s 0 t) (H_INDEX i j k (nx_h s t) (ny_h s t) (nz_h s t))) ->
  exists s',
    (do st <- _relaxSolution_GaussSeidel fuel s coarse_depth (max_relax_iters s);
     let st := print st
       (msg_upward coarse_depth (_getMaxResidualAllEqs st coarse_depth)) in
     let st :=
       fold_left (fun st eqn_id =>
         set_tmp_h st (store (tmp_h st) eqn_id
           (_changeApproximateSolutionToError st (tmp_h st eqn_id)
              (u_h st eqn_id) coarse_depth)))
         (zrange (u_n st)) st in
     let st :=
       fold_left (fun st eqn_id =>
         let '(t, u) :=
           _correctFineFromCoarseErr_Err2Appx st (tmp_h st eqn_id)
             (u_h st eqn_id) (coarse_depth + 1) in
         set_u_h (set_tmp_h st (store (tmp_h st) eqn_id t))
           (store (u_h st) eqn_id u))
         (zrange (u_n st)) st in
     Returned tt st) = Returned tt s' /\
    same_setting s s' /\ u_h s' = u_h s /\ coarse_src_h s' = coarse_src_h s /\
    (forall x, nx (tmp_h s' 0 x) = nx (tmp_h s 0 x) /\
               ny (tmp_h s' 0 x) = ny (tmp_h s 0 x) /\
               nz (tmp_h s' 0 x) = nz (tmp_h s 0 x) /\
               pts (tmp_h s' 0 x) = pts (tmp_h s 0 x)) /\
    (forall i j k,
       0 <= i < nx_h s (t + 1) -> 0 <= j < ny_h s (t + 1) ->
       0 <= k < nz_h s (t + 1) ->
       _array (tmp_h s' 0 (t + 1))
         (H_INDEX i j k (nx_h s (t + 1)) (ny_h s (t + 1)) (nz_h s (t + 1)))
       = _array (u_h s' 0 (t + 1))
           (H_INDEX i j k (nx_h s (t + 1)) (ny_h s (t + 1)) (nz_h s (t + 1)))).
Proof.
  intros t Hn Htol Hx Hy Hz Ex Ey Ez Hp Hs Ha.
  rewrite solved_smoother by assumption. cbn [bind].
  set (sp := print s _).
  change (u_n sp) with (u_n s). rewrite Hn. change (zrange 1) with [0].
  cbn [fold_left].
  set (sc := set_tmp_h sp _).
  change (u_n sc) with (u_n s). rewrite Hn. change (zrange 1) with [0].
  cbn [fold_left].
  assert (I : _dIdx s (coarse_depth + 1) = t + 1) by (unfold t, _dIdx; lia).
  assert (Tc : tmp_h sc 0
               = _changeApproximateSolutionToError s (tmp_h s 0) (u_h s 0)
                   coarse_depth).
  { unfold sc. cbn [tmp_h set_tmp_h]. now rewrite store_same. }
  pose proof (correction_of_zero_error sc (tmp_h sc 0) (u_h sc 0)
                (coarse_depth + 1)) as G.
  cbv zeta in G.
  replace (coarse_depth + 1 - 1) with coarse_depth in G by lia.
  change (_dIdx sc) with (_dIdx s) in G. change (nx_h sc) with (nx_h s) in G.
  change (ny_h sc) with (ny_h s) in G. change (nz_h sc) with (nz_h s) in G.
  change (u_h sc) with (u_h s) in G.
  fold t in G. rewrite I in G.
  destruct G as (G1 & G2 & G3); try assumption.
  { rewrite Tc.
    destruct (error_keeps_dims s (tmp_h s 0) (u_h s 0) coarse_depth (t + 1))
      as (_ & _ & _ & ->). exact Hp. }
  { intros idx Hidx. rewrite Tc.
    destruct (index_is_site (nx_h s t) (ny_h s t) (nz_h s t) idx)
      as (i & j & k & Hi & Hj & Hk & E); try assumption.
    rewrite E.
    pose proof (error_entry s (tmp_h s 0) (u_h s 0) coarse_depth i j k) as W.
    cbv zeta in W. fold t in W. rewrite W by assumption.
    rewrite Ha by assumption. lra. }
  change (u_h sc) with (u_h s).
  destruct (_correctFineFromCoarseErr_Err2Appx sc (tmp_h sc 0) (u_h s 0)
              (coarse_depth + 1)) as [t' u'].
  cbn [fst snd] in G1, G2, G3. subst u'.
  eexists. split; [reflexivity|]. splits.
  - unfold same_setting. repeat split.
  - cbn [u_h set_u_h set_tmp_h]. change (u_h sc) with (u_h s). apply store_id.
  - reflexivity.
  - intros x. cbn [tmp_h set_u_h set_tmp_h]. rewrite store_same.
    destruct (G2 x) as (A1 & A2 & A3 & A4). rewrite Tc in A1, A2, A3, A4.
    destruct (error_keeps_dims s (tmp_h s 0) (u_h s 0) coarse_depth x)
      as (B1 & B2 & B3 & B4).
    cbv zeta in *. repeat split; congruence.
  - intros i j k Hi Hj Hk. cbn [tmp_h u_h set_u_h set_tmp_h].
    rewrite !store_same. now apply G3.
Qed.


(** X30. A cycle on an exact solution.  For one unknown, on a hierarchy
    whose dimensions double from each depth to the next finer one, when the
    equation holds exactly at every site of the finest depth, [VCycle]
    returns, the unknown of the finest depth is what it was, and the
    equation still holds there: the coarse depths add no correction. *)
Theorem cycle_keeps_an_exact_solution (fuel : nat) (st : FASMultigrid) :
  let top := _dIdx st (max_depth st) in
  u_n st = 1 -> 0 <= top -> (0 < relaxation_tolerance st)%R ->
  (forall t, 0 <= t < top ->
     0 < nx_h st t /\ 0 < ny_h st t /\ 0 < nz_h st t /\
     nx_h st (t + 1) = 2 * nx_h st t /\ ny_h st (t + 1) = 2 * ny_h st t /\
     nz_h st (t + 1) = 2 * nz_h st t) ->
  (forall t, 0 <= t <= top ->
     has_dims (nx_h st t) (ny_h st t) (nz_h st t) (tmp_h st 0 t)) ->
  solved st 0 top ->
  exists st',
    VCycle fuel st = Returned tt st' /\
    u_h st' 0 top = u_h st 0 top /\ solved st' 0 top.
Proof.
  intros top Hn Htop Htol Hdims Htmp Hs.
  unfold VCycle. rewrite solved_smoother by assumption. cbn [bind].
  set (sp := print st _).
  change (u_n sp) with (u_n st). rewrite Hn. change (zrange 1) with [0].
  cbn [fold_left].
  assert (Sp : same_setting st sp) by (unfold same_setting; repeat split).
  pose proof (downward_pass sp) as D. cbv zeta in D.
  change (_dIdx sp (max_depth sp)) with top in D.
  change (nx_h sp) with (nx_h st) in D. change (ny_h sp) with (ny_h st) in D.
  change (nz_h sp) with (nz_h st) in D. change (tmp_h sp) with (tmp_h st) in D.
  change (u_h sp) with (u_h st) in D.
  destruct D as (S1 & U1 & D1 & V1); try assumption.
  set (s1 := fold_left _ (fine_depths sp) sp) in *.
  assert (S1' : same_setting st s1) by exact (same_setting_trans st sp s1 Sp S1).
  set (s2 := set_tmp_h s1 _).
  assert (S2 : same_setting st s2).
  { apply (same_setting_trans st s1); [assumption|].
    unfold same_setting. repeat split. }
  pose proof S2 as (_ & _ & _ & _ & _ & _ & _ & Emax & Emin & _).
  rewrite Emax, Emin. change (max_depth st - min_depth st) with top.
  assert (I0 : _dIdx s1 (min_depth s1) = 0) by (unfold _dIdx; lia).
  assert (T2 : tmp_h s2 0
               = store (tmp_h s1 0) 0
                   (with_array (tmp_h s1 0 0) (_array (u_h s1 0 0)))).
  { unfold s2, _copyGrid, store_grid. cbn [tmp_h set_tmp_h].
    now rewrite I0, store_same. }
  assert (D2 : forall x, 0 <= x <= top ->
            has_dims (nx_h st x) (ny_h st x) (nz_h st x) (tmp_h s2 0 x)).
  { intros x Hx. rewrite T2. unfold store.
    destruct (Z.eqb_spec x 0) as [->|]; [|now apply D1].
    apply (D1 0 Hx). }
  pose (Q := fun (t : Z) (s : FASMultigrid) =>
    same_setting st s /\ u_h s = u_h s2 /\ coarse_src_h s = coarse_src_h s2 /\
    (forall x, nx (tmp_h s 0 x) = nx (tmp_h s2 0 x) /\
               ny (tmp_h s 0 x) = ny (tmp_h s2 0 x) /\
               nz (tmp_h s 0 x) = nz (tmp_h s2 0 x) /\
               pts (tmp_h s 0 x) = pts (tmp_h s2 0 x)) /\
    (forall i j k,
       0 <= i < nx_h st t -> 0 <= j < ny_h st t -> 0 <= k < nz_h st t ->
       _array (tmp_h s 0 t) (H_INDEX i j k (nx_h st t) (ny_h st t) (nz_h st t))
       = _array (u_h s 0 t) (H_INDEX i j k (nx_h st t) (ny_h st t) (nz_h st t)))).
  assert (V2 : forall s t, same_setting st s -> u_h s = u_h s2 ->
                 coarse_src_h s = coarse_src_h s2 -> 0 <= t <= top ->
                 solved s 0 t).
  { intros s t Ss Us Cs Ht. apply (solved_ext s1).
    - apply (same_setting_trans s1 st); [now apply same_setting_sym|assumption].
    - intros e'. now rewrite Us.
    - now rewrite Cs.
    - now apply V1. }
  match goal with
  | |- context [for_each (map ?g (zrange top)) ?body s2] =>
    destruct (for_each_zrange_ind body g Q top s2 Htop)
      as (s3 & E3 & S3 & U3 & C3 & D3 & A3)
  end.
  { unfold Q. splits; auto.
    intros i j k Hi Hj Hk. rewrite T2, store_same. reflexivity. }
  { intros t s Ht (Ss & Us & Cs & Ds & As).
    pose proof Ss as (_ & En & _ & Ex & Ey & Ez & Et & _ & Em & _).
    assert (I : _dIdx s (min_depth st + t) = t) by (unfold _dIdx; lia).
    pose proof (upward_step fuel s (min_depth st + t)) as W.
    cbv zeta in W. rewrite I, Ex, Ey, Ez in W.
    destruct (Hdims t Ht) as (P1 & P2 & P3 & P4 & P5 & P6).
    destruct W as (s' & E' & S' & U' & C' & D' & A'); try assumption;
      try congruence.
    - destruct (Ds (t + 1)) as (_ & _ & _ & ->).
      destruct (D2 (t + 1)) as (F1 & F2 & F3 & F4); [lia|]. congruence.
    - apply V2; auto. lia.
    - exists s'. split; [exact E'|]. unfold Q. splits.
      + exact (same_setting_trans st s s' Ss S').
      + congruence.
      + congruence.
      + intros x. destruct (D' x) as (B1 & B2 & B3 & B4).
        destruct (Ds x) as (B5 & B6 & B7 & B8). repeat split; congruence.
      + exact A'. }
  rewrite E3. cbn [bind].
  pose proof S3 as (_ & En & _ & _ & _ & _ & Et & Emax3 & Emin3 & _).
  assert (I3 : _dIdx s3 (max_depth s3) = top)
    by (unfold top, _dIdx; lia).
  assert (V3 : solved s3 0 top) by (apply V2; auto; lia).
  rewrite solved_smoother; [|congruence|rewrite Et; exact Htol|now rewrite I3].
  cbn [bind]. eexists. split; [reflexivity|]. split.
  - unfold print. cbn [u_h]. rewrite U3. change (u_h s2) with (u_h s1).
    apply U1.
  - apply (solved_ext s3); auto. unfold same_setting. repeat split.
Qed.

End ExactSolution.

Lemma cycle_keeps_an_exact_solution_witness :
  let st := two_level_solved 5 in
  exists st',
    VCycle (host := host_of 2 2 2) 1 st = Returned tt st' /\
    u_h st' 0 1 = u_h st 0 1 /\ solved (host := host_of 2 2 2) st' 0 1.
Proof.
  intros st.
  apply (cycle_keeps_an_exact_solution (host := host_of 2 2 2) 1 st).
  - reflexivity.
  - cbn. lia.
  - cbn. lra.
  - intros t Ht. change (0 <= t < 1) in Ht. replace t with 0 by lia. cbn. lia.
  - intros t Ht. change (0 <= t <= 1) in Ht.
    assert (t = 0 \/ t = 1) as [-> | ->] by lia; repeat split.
  - intros i j k _ _ _.
    unfold _evaluateEllipticEquationPt.
    change (molecule_n st 0) with 2. change (zrange 2) with [0; 1].
    cbn [fold_left].
    change (atom_n (eqns st 0 0)) with 1. change (atom_n (eqns st 0 1)) with 1.
    change (zrange 1) with [0]. cbn [fold_left].
    change (type (atoms (eqns st 0 0) 0)) with 1.
    change (type (atoms (eqns st 0 1) 0)) with 0.
    change (value (atoms (eqns st 0 0) 0)) with 1%R.
    cbn [Z.eqb Pos.eqb]. rewrite cpow_one.
    change (_dIdx st (max_depth st)) with 1.
    cbn [st two_level_solved u_h rho_h coarse_src_h _array Z.eqb Pos.eqb
         u_id atoms eqns].
    lra.
Defined.
